(** * Chess-Encryption-API: the bitstream <-> move-sequence codec

    A shallow embedding of [encode.py] and [decode.py] and the properties of
    the frame format, the move selector, the game sequencer and the expiry
    guard.

    Conventions of the embedding.
    - A Python [str] over the alphabet '0'/'1' (every bit string the codec
      builds comes from [format(_, 'b')]) is a [list bool], [true] for '1'.
    - Python integers that index or measure lists are [nat]; seeds and epoch
      seconds are [Z]; payload bytes are [Byte.byte].
    - A raised exception is the left injection of a sum, carrying the
      message; the loop of [encode] takes fuel and returns [None] when it
      runs out.
    - The rules engine ([chess.Board]), the generator ([random.Random]), the
      PGN reader and writer ([chess.pgn]) and [int()] on a header are not
      part of the repository: they are the variables of the section [Codec],
      and their contracts are hypotheses of the results that need them.
    - [floor(log2(n))] is [Nat.log2 n]: the floating point [log2] of the
      source is exact on the lengths of lists of legal moves, which are below
      219.
    - Files are read and written whole; an error of the operating system or
      of the text decoding while a file is read or written is not modelled. *)

From Stdlib Require Import ZArith Strings.Byte DecimalString DecimalZ DecimalPos.
From stdpp Require Import gmap strings list.

Local Open Scope nat_scope.

(** ** Bit strings *)

Abbreviation bits := (list bool).

(** The binary digits of a positive number, most significant first. *)
Fixpoint pos_bits (p : positive) : bits :=
  match p with
  | xH => [true]
  | xO q => pos_bits q ++ [false]
  | xI q => pos_bits q ++ [true]
  end.

(** [format(n, 'b')]: the digits of [n] without padding, "0" for zero. *)
Definition bin (n : nat) : bits :=
  match N.of_nat n with
  | N0 => [false]
  | Npos p => pos_bits p
  end.

(** [format(n, f'0{width}b')]: zero-filled to at least [width] digits; a
    number that needs more digits is not cut. *)
Definition format_b (width n : nat) : bits :=
  let digits := bin n in
  repeat false (width - length digits) ++ digits.

(** The value of a digit string read as an unsigned big-endian number. *)
Definition bits_val (bs : bits) : nat :=
  foldl (fun acc (b : bool) => 2 * acc + (if b then 1 else 0)) 0 bs.

(** [int(bs, 2)]: [None] stands for the ValueError on the empty string. *)
Definition int2 (bs : bits) : option nat :=
  match bs with
  | [] => None
  | _ => Some (bits_val bs)
  end.

(** [s[a:b]] for non-negative [a] and [b]. *)
Definition slice {A} (a b : nat) (s : list A) : list A := drop a (take b s).

(** [sub] is a prefix of [s], as a boolean. *)
Definition starts_with (sub s : bits) : bool :=
  bool_decide (take (length sub) s = sub).

(** [s.find(sub)]: the lowest index at which [sub] occurs, [None] for -1. *)
Fixpoint find (sub s : bits) : option nat :=
  if starts_with sub s then Some 0
  else match s with
       | [] => None
       | _ :: t => S <$> find sub t
       end.

(** [s.rfind(sub)]: the highest index at which [sub] occurs, [None] for -1. *)
Fixpoint rfind (sub s : bits) : option nat :=
  match s with
  | [] => if starts_with sub [] then Some 0 else None
  | _ :: t =>
      match rfind sub t with
      | Some i => Some (S i)
      | None => if starts_with sub s then Some 0 else None
      end
  end.

(** [sub] occurs in [s] at index [i]. *)
Definition occurs_at (sub s : bits) (i : nat) : Prop :=
  take (length sub) (drop i s) = sub.

(** The first and the last occurrence of [sub] in [s]. *)
Definition first_occurrence (sub s : bits) (i : nat) : Prop :=
  occurs_at sub s i ∧ forall j, j < i -> ¬ occurs_at sub s j.

Definition last_occurrence (sub s : bits) (i : nat) : Prop :=
  occurs_at sub s i ∧ forall j, i < j -> ¬ occurs_at sub s j.

(** ** The frame (encode.py, lines 78-84; decode.py, lines 97-137) *)

Definition START_MARKER : bits := [true; false; true; false].
Definition END_MARKER : bits := [false; true; false; true].

(** [''.join(format(byte, '08b') for byte in file_bytes)] *)
Definition data_bits_of (file_bytes : list byte) : bits :=
  mjoin ((fun byte => format_b 8 (Byte.to_nat byte)) <$> file_bytes).

Definition padding_needed (file_bytes : list byte) : nat :=
  let total_bits :=
    length START_MARKER + length (data_bits_of file_bytes) + length END_MARKER in
  (8 - total_bits mod 8) mod 8.

Definition complete_binary (file_bytes : list byte) : bits :=
  START_MARKER ++ data_bits_of file_bytes
    ++ repeat false (padding_needed file_bytes) ++ END_MARKER.

(** The loop that writes the decoded bytes: one byte per full group of eight
    bits at the offsets [range(0, len(data_bits), 8)]. *)
Definition bytes_of_bits (data_bits : bits) : list byte :=
  omap (fun k =>
          let i := 8 * k in
          let byte_bits := slice i (i + 8) data_bits in
          if bool_decide (length byte_bits = 8)
          then Byte.of_nat (bits_val byte_bits) else None)
       (seq 0 ((length data_bits + 7) / 8)).

(** The region between the markers, cut down to whole bytes
    (decode.py, lines 113-126). *)
Definition truncate_residue (data_bits : bits) : bits :=
  if bool_decide (length data_bits mod 8 ≠ 0)
  then take (length data_bits - length data_bits mod 8) data_bits
  else data_bits.

(** Marker search and extraction of the payload bits
    (decode.py, lines 98-129). *)
Definition parse_frame (all_bits : bits) : string + bits :=
  match find START_MARKER all_bits with
  | None => inl "Start marker not found in decoded data"%string
  | Some start_index =>
      let data_start := start_index + length START_MARKER in
      match rfind END_MARKER all_bits with
      | None => inl "End marker not found in decoded data"%string
      | Some end_index =>
          if bool_decide (end_index ≤ data_start)
          then inl "End marker not found in decoded data"%string
          else
            let data_bits :=
              truncate_residue (slice data_start end_index all_bits) in
            if bool_decide (length data_bits = 0)
            then inl "No data found between markers"%string
            else inr data_bits
      end
  end.

(** ** The codec over its external collaborators *)

(** A PGN game as the codec sees it: its header mapping and its main line. *)
Record GameRecord (Move : Type) : Type := mkGame {
  headers : gmap string string;
  mainline_moves : list Move
}.
Arguments mkGame {Move} _ _.
Arguments headers {Move} _.
Arguments mainline_moves {Move} _.

(** The headers of a fresh [pgn.Game()]: the seven tag roster, which is also
    the [default_headers] literal of [create_game_record]. *)
Definition tag_roster : gmap string string :=
  list_to_map
    [("Event", "?"); ("Site", "?"); ("Date", "????.??.??"); ("Round", "?");
     ("White", "?"); ("Black", "?"); ("Result", "*")]%string.

(** [str(z)] on an integer: its decimal digits, with a sign when negative. *)
Definition py_str (z : Z) : string := NilEmpty.string_of_int (Z.to_int z).

(** The rendering of the elapsed time of an expired file
    (decode.py, lines 40-46); [//] is floor division. *)
Definition time_msg (time_diff : Z) : string :=
  if bool_decide (time_diff < 60)%Z then py_str time_diff +:+ " seconds"
  else if bool_decide (time_diff < 3600)%Z
       then py_str (time_diff `div` 60)%Z +:+ " minutes"
       else py_str (time_diff `div` 3600)%Z +:+ " hours".

Definition expired_msg (time_diff : Z) : string :=
  "This file has expired " +:+ time_msg time_diff
    +:+ " ago and can no longer be decrypted".

(** The files of the service: path to content. *)
Abbreviation FS := (gmap string (list byte)).

(** ** The helper that reads bits from the bytes (encode.py, lines 24-37)

    [extract_bits] on a bit index and a number of bits that are not negative.
    The left injection stands for the exception raised: the IndexError of a
    list index past the end, and the ValueError of a shift by a negative
    count. *)
Definition extract_bits (file_bytes : list byte) (bit_index bits_to_extract : nat)
    : string + bits :=
  match file_bytes !! (bit_index / 8) with
  | None => inl "list index out of range"%string
  | Some current_byte =>
      let current_byte := Z.of_nat (Byte.to_nat current_byte) in
      let bit_offset := bit_index mod 8 in
      if bool_decide (8 < bit_offset + bits_to_extract)
         && bool_decide (bit_index / 8 + 1 < length file_bytes)
      then
        match file_bytes !! (bit_index / 8 + 1) with
        | None => inl "list index out of range"%string
        | Some next_byte =>
            let next_byte := Z.of_nat (Byte.to_nat next_byte) in
            let data := Z.lor (Z.shiftl current_byte 8) next_byte in
            let mask := (Z.shiftl 1 (Z.of_nat bits_to_extract) - 1)%Z in
            let shift :=
              (16 - Z.of_nat bit_offset - Z.of_nat bits_to_extract)%Z in
            if bool_decide (shift < 0)%Z then inl "negative shift count"%string
            else inr (format_b bits_to_extract
                        (Z.to_nat (Z.land (Z.shiftr data shift) mask)))
        end
      else
        let mask := (Z.shiftl 1 (Z.of_nat bits_to_extract) - 1)%Z in
        let shift := (8 - Z.of_nat bit_offset - Z.of_nat bits_to_extract)%Z in
        if bool_decide (shift < 0)%Z then inl "negative shift count"%string
        else inr (format_b bits_to_extract
                    (Z.to_nat (Z.land (Z.shiftr current_byte shift) mask)))
  end.

(** ** The headers of a request (main.py, lines 118-127 and 196-219) *)

(** The PGN fields of the form of [handle_encode]; [None] is a field that
    was not sent. *)
Record pgn_fields : Type := mkFields {
  pgn_event : option string;
  pgn_site : option string;
  pgn_date : option string;
  pgn_round : option string;
  pgn_white : option string;
  pgn_black : option string;
  pgn_whiteelo : option string;
  pgn_blackelo : option string;
  pgn_result : option string;
  pgn_eco : option string
}.

(** [v if v], for the filter of line 210: a value that is neither [None] nor
    the empty string. *)
Definition truthy (v : option string) : option string :=
  match v with
  | Some s => if bool_decide (s ≠ ""%string) then Some s else None
  | None => None
  end.

(** The dictionary of line 196, the filter of line 210, and the argument
    [custom_headers if custom_headers else None] of line 218. *)
Definition request_headers (form : pgn_fields) : option (gmap string string) :=
  let custom_headers : gmap string (option string) :=
    list_to_map
      [("Event", pgn_event form); ("Site", pgn_site form);
       ("Date", pgn_date form); ("Round", pgn_round form);
       ("White", pgn_white form); ("Black", pgn_black form);
       ("WhiteElo", pgn_whiteelo form); ("BlackElo", pgn_blackelo form);
       ("Result", pgn_result form); ("ECO", pgn_eco form)]%string in
  let custom_headers : gmap string string := omap truthy custom_headers in
  if bool_decide (custom_headers = ∅) then None else Some custom_headers.

(** ** A small rules engine, generator and integer reader

    The instance of the collaborators at which the results are exercised: the
    moves are numbers, a position offers the moves [0 .. width - 1], and the
    shuffle rotates the list by the state of the generator. *)

(** The decimal literals that [int()] reads: an optional minus sign and
    digits. *)
Definition decimal_int (s : string) : option Z :=
  match s with
  | ""%string | "-"%string => None
  | _ => Z.of_int <$> NilEmpty.int_of_string s
  end.

(** The number of moves of the position after [ply] moves: eight moves for
    six plies, a forced move, eight moves for two plies, sixteen moves for
    two plies, then mate. *)
Definition toy_width (ply : nat) : nat :=
  if bool_decide (ply < 6) then 8
  else if bool_decide (ply = 6) then 1
  else if bool_decide (ply < 9) then 8
  else if bool_decide (ply < 11) then 16
  else 0.

Definition toy_legal_moves (board : list nat) : list nat :=
  seq 0 (toy_width (length board)).
Definition toy_is_game_over (board : list nat) : bool :=
  bool_decide (11 ≤ length board).
Definition toy_never (board : list nat) : bool := false.
Definition toy_uci (move : nat) : string := py_str (Z.of_nat move).
Definition toy_Random (seed : Z) : nat := Z.to_nat seed.
Definition toy_shuffle (rng : nat) (moves : list nat) : nat * list nat :=
  (S rng, rotate rng moves).
Definition toy_randint (i : nat) : Z := Z.of_nat (7 * i + 3).

(** A format of PGN files for the expiry guard, which keeps of a game its
    expiry: each byte of the file is a game without moves that expires at the
    value of the byte. *)
Definition toy_pgn_load (content : list byte) : list (GameRecord nat) :=
  (fun b => mkGame (<["ExpiryTime"%string := py_str (Z.of_nat (Byte.to_nat b))]>
                      tag_roster) []) <$> content.
Definition toy_pgn_dump (games : list (GameRecord nat)) : list byte :=
  (fun game : GameRecord nat =>
     match headers game !! "ExpiryTime"%string with
     | Some value =>
         match decimal_int value with
         | Some t => default x00 (Byte.of_nat (Z.to_nat t))
         | None => x00
         end
     | None => x00
     end) <$> games.
Definition toy_is_blank (content : list byte) : bool :=
  bool_decide (content = []).
Section Codec.

(** *** The rules engine, the generator and the PGN library *)

Context {Move Rng : Type}.

(** A [chess.Board] that started from the initial position is determined by
    its move stack, and every board of the codec is one: the board is its
    move stack, [Board()] and [reset()] give the empty stack, [push]
    appends. The queries of the engine are functions of it. *)
Definition Board : Type := list Move.
Definition initial_board : Board := [].
Definition push (board : Board) (move : Move) : Board := board ++ [move].
Definition move_stack (board : Board) : list Move := board.

(** [list(board.legal_moves)] *)
Variable legal_moves : Board -> list Move.
Variable is_game_over : Board -> bool.
Variable is_insufficient_material : Board -> bool.
Variable can_claim_draw : Board -> bool.
(** [move.uci()] *)
Variable uci : Move -> string.

(** [random.Random(seed)], and [rng.shuffle(moves)] as the state passing
    function of the generator: the state after, and the list after. *)
Variable Random : Z -> Rng.
Variable shuffle : Rng -> list Move -> Rng * list Move.
(** The successive results of [random.randint(1, 1_000_000)] on the global
    generator: [randint i] is the draw number [i] of one run. *)
Variable randint : nat -> Z.

(** [int(s)] on a header value; [None] stands for its ValueError. *)
Variable py_int : string -> option Z.

(** The text of a PGN file holding the given games, read back by the
    [pgn.read_game] loop; [is_blank] is [not content.strip()]. *)
Variable pgn_dump : list (GameRecord Move) -> list byte.
Variable pgn_load : list byte -> list (GameRecord Move).
Variable is_blank : list byte -> bool.

(** *** encode.py *)

(** [create_game_record] (lines 39-64), the game before it is printed. *)
Definition create_game_record (board : Board) (seed : Z)
    (expiry_time : option Z) (custom_headers : option (gmap string string))
    : GameRecord Move :=
  let game_headers := <["Seed" := py_str seed]> tag_roster in
  let default_headers :=
    match custom_headers with
    | Some custom =>
        filter (fun kv : string * string => kv.2 ≠ ""%string) custom
          ∪ tag_roster
    | None => tag_roster
    end in
  let game_headers := default_headers ∪ game_headers in
  let game_headers :=
    match expiry_time with
    | Some t => <["ExpiryTime" := py_str t]> game_headers
    | None => game_headers
    end in
  mkGame game_headers (move_stack board).

(** [should_end_game] (lines 66-70). *)
Definition should_end_game (board : Board) : bool :=
  is_game_over board || is_insufficient_material board
    || can_claim_draw board || bool_decide (150 ≤ length (move_stack board)).

(** The headers handed to [create_game_record] for the game number
    [game_number] (lines 111-116, 143-149 and 164-170). *)
Definition game_headers_for (custom_headers : option (gmap string string))
    (game_number : nat) : option (gmap string string) :=
  let unset :=
    if bool_decide (1 < game_number)
    then Some {["Round"%string := py_str (Z.of_nat game_number)]} else None in
  match custom_headers with
  | Some custom =>
      if bool_decide (custom = ∅) then unset
      else if bool_decide (1 < game_number) && bool_decide (custom !! "Round"%string = None)
           then Some (<["Round" := py_str (Z.of_nat game_number)]> custom)
           else Some custom
  | None => unset
  end.

(** [expiry_time] (lines 87-89). *)
Definition expiry_of (now : Z) (self_destruct_timer : option Z) : option Z :=
  match self_destruct_timer with
  | Some timer => if bool_decide (0 < timer)%Z then Some (now + timer)%Z else None
  | None => None
  end.

(** The variables of the loop of [encode] (lines 95-101); [draws] counts
    the calls of [random.randint] made so far. *)
Record enc_state : Type := mkEnc {
  file_bit_index : nat;
  chess_board : Board;
  base_seed : Z;
  move_random : Rng;
  game_number : nat;
  output_pgns : list (GameRecord Move);
  draws : nat
}.

Section Loop.

Variable wrapped : bits.
Variable expiry_time : option Z.
Variable custom_headers : option (gmap string string).

Definition record_of (st : enc_state) (board : Board) : GameRecord Move :=
  create_game_record board (base_seed st) expiry_time
    (game_headers_for custom_headers (game_number st)).

(** Append the record of [board] and start the next game
    (lines 117-122, and 151-158 when bits remain). *)
Definition next_game (st : enc_state) (board : Board) (index : nat) : enc_state :=
  let seed := randint (draws st) in
  mkEnc index initial_board seed (Random seed) (S (game_number st))
        (output_pgns st ++ [record_of st board]) (S (draws st)).

(** The number of bits taken at a position with a choice (lines 124-126)
    and the bits themselves (line 128). *)
Definition bits_to_encode (st : enc_state) : nat :=
  let max_bits := Nat.log2 (length (legal_moves (chess_board st))) in
  let remaining_bits := length wrapped - file_bit_index st in
  min max_bits remaining_bits.

Definition chunk_at (st : enc_state) : bits :=
  slice (file_bit_index st) (file_bit_index st + bits_to_encode st) wrapped.

(** One pass through the body of the [while] loop (lines 103-158), entered
    with [file_bit_index < file_bits_count]. *)
Definition encode_iter (st : enc_state) : string + enc_state :=
  let file_bits_count := length wrapped in
  let moves := legal_moves (chess_board st) in
  if bool_decide (length moves ≤ 1) then
    let board :=
      match moves with
      | move :: _ => push (chess_board st) move
      | [] => chess_board st
      end in
    if bool_decide (length moves = 0) || is_game_over board
    then inr (next_game st board (file_bit_index st))
    else inr (mkEnc (file_bit_index st) board (base_seed st) (move_random st)
                    (game_number st) (output_pgns st) (draws st))
  else
    match int2 (chunk_at st) with
    | None => inl "invalid literal for int() with base 2: ''"%string
    | Some move_index =>
        if bool_decide (length moves ≤ move_index)
        then inl "Invalid move index calculated"%string
        else
          let '(rng, shuffled) := shuffle (move_random st) moves in
          match shuffled !! move_index with
          | None => inl "list index out of range"%string
          | Some chosen_move =>
              let board := push (chess_board st) chosen_move in
              let index := file_bit_index st + bits_to_encode st in
              if should_end_game board then
                if bool_decide (index < file_bits_count)
                then inr (next_game st board index)
                else inr (mkEnc index board (base_seed st) rng (game_number st)
                                (output_pgns st ++ [record_of st board])
                                (draws st))
              else inr (mkEnc index board (base_seed st) rng (game_number st)
                              (output_pgns st) (draws st))
          end
    end.

(** The two outcomes of a pass, named: the state after a pass at a position
    without a choice, and the state after a pass that plays [chosen_move] on
    [bits_to_encode] bits and leaves the generator in [rng]. *)
Definition forced_next (st : enc_state) : enc_state :=
  let board :=
    match legal_moves (chess_board st) with
    | move :: _ => push (chess_board st) move
    | [] => chess_board st
    end in
  if bool_decide (length (legal_moves (chess_board st)) = 0) || is_game_over board
  then next_game st board (file_bit_index st)
  else mkEnc (file_bit_index st) board (base_seed st) (move_random st)
             (game_number st) (output_pgns st) (draws st).

Definition choice_next (st : enc_state) (rng : Rng) (chosen_move : Move) : enc_state :=
  let board := push (chess_board st) chosen_move in
  let index := file_bit_index st + bits_to_encode st in
  if should_end_game board then
    if bool_decide (index < length wrapped) then next_game st board index
    else mkEnc index board (base_seed st) rng (game_number st)
               (output_pgns st ++ [record_of st board]) (draws st)
  else mkEnc index board (base_seed st) rng (game_number st)
             (output_pgns st) (draws st).

(** The [while] loop (line 102); [None] when the fuel runs out. *)
Fixpoint encode_loop (fuel : nat) (st : enc_state) : option (string + enc_state) :=
  if bool_decide (file_bit_index st < length wrapped) then
    match fuel with
    | 0 => None
    | S fuel' =>
        match encode_iter st with
        | inl e => Some (inl e)
        | inr st' => encode_loop fuel' st'
        end
    end
  else Some (inr st).

(** The last game, if any move was made (lines 161-172). *)
Definition finish (st : enc_state) : list (GameRecord Move) :=
  match move_stack (chess_board st) with
  | [] => output_pgns st
  | _ => output_pgns st ++ [record_of st (chess_board st)]
  end.

(** The state at the head of the loop (lines 95-101). *)
Definition enc_init : enc_state :=
  let seed := randint 0 in
  mkEnc 0 initial_board seed (Random seed) 1 [] 1.

(** The states at the head of the passes of the loop, in order. *)
Fixpoint encode_trace (fuel : nat) (st : enc_state) : list enc_state :=
  if bool_decide (file_bit_index st < length wrapped) then
    match fuel with
    | 0 => []
    | S fuel' =>
        st :: match encode_iter st with
              | inl _ => []
              | inr st' => encode_trace fuel' st'
              end
    end
  else [].

(** The bits a pass reads from the stream: none at a position without a
    choice. *)
Definition consumed (st : enc_state) : bits :=
  if bool_decide (length (legal_moves (chess_board st)) ≤ 1) then []
  else chunk_at st.

(** The states the loop can be in at its head. *)
Inductive enc_reach : enc_state -> Prop :=
  | reach_init : enc_reach enc_init
  | reach_step st st' :
      enc_reach st ->
      file_bit_index st < length wrapped ->
      encode_iter st = inr st' ->
      enc_reach st'.

End Loop.

(** The generator of a game as the determinism contract has it: one stream,
    advanced by one shuffle at each position that has two legal moves or
    more and left alone at the others, along the moves played from [board]. *)
Fixpoint rng_along (rng : Rng) (board : Board) (moves : list Move) : Rng :=
  match moves with
  | [] => rng
  | move :: rest =>
      let rng' :=
        if bool_decide (length (legal_moves board) ≤ 1) then rng
        else (shuffle rng (legal_moves board)).1 in
      rng_along rng' (push board move) rest
  end.

(** Seeded once from the seed of the game, at the initial position. *)
Definition rng_at (seed : Z) (board : Board) : Rng :=
  rng_along (Random seed) initial_board board.

(** The game set of a payload: the frame, the expiry, the loop and the last
    game (lines 78-172), without the files. *)
Definition encode_games (fuel : nat) (file_bytes : list byte) (now : Z)
    (self_destruct_timer : option Z) (custom_headers : option (gmap string string))
    : option (string + list (GameRecord Move)) :=
  let wrapped := complete_binary file_bytes in
  let expiry_time := expiry_of now self_destruct_timer in
  match encode_loop wrapped expiry_time custom_headers fuel enc_init with
  | None => None
  | Some (inl e) => Some (inl e)
  | Some (inr st) => Some (inr (finish expiry_time custom_headers st))
  end.

(** [read_input_file] (lines 13-22). *)
Definition read_input_file (fs : FS) (file_path : string) : string + list byte :=
  match fs !! file_path with
  | None => inl "Input file does not exist"%string
  | Some [] => inl "Input file is empty"%string
  | Some file_bytes => inr file_bytes
  end.

(** [encode] (lines 72-202) on the files [fs]: the files after, and the error
    raised if any. The handler of line 200 logs and raises again. The read
    back of the output (lines 180-194) only logs. *)
Definition encode (fuel : nat) (fs : FS) (now : Z) (file_path output_pgn_path : string)
    (self_destruct_timer : option Z) (custom_headers : option (gmap string string))
    : option (FS * (string + unit)) :=
  match read_input_file fs file_path with
  | inl e => Some (fs, inl e)
  | inr file_bytes =>
      match encode_games fuel file_bytes now self_destruct_timer custom_headers with
      | None => None
      | Some (inl e) => Some (fs, inl e)
      | Some (inr output_pgns) =>
          Some (<[output_pgn_path := pgn_dump output_pgns]> fs, inr ())
      end
  end.

(** *** decode.py *)

(** [names.index(name)]: the first index, [None] for its ValueError. *)
Definition index_of (name : string) (names : list string) : option nat :=
  fst <$> list_find (fun n => n = name) names.

(** The body of the loop over the moves of a game (lines 74-93), on the
    board, the generator and the bits extracted so far. *)
Definition decode_step (game_index : nat) (st : Board * Rng * bits) (move : Move)
    : string + (Board * Rng * bits) :=
  let '(board, move_random, all_bits) := st in
  let moves := legal_moves board in
  if bool_decide (length moves ≤ 1) then inr (push board move, move_random, all_bits)
  else
    let '(rng, shuffled) := shuffle move_random moves in
    match index_of (uci move) (uci <$> shuffled) with
    | None =>
        inl ("Invalid move found in game " +:+ py_str (Z.of_nat (game_index + 1))
               +:+ ": " +:+ uci move)
    | Some move_index =>
        let max_bits := Nat.log2 (length shuffled) in
        let all_bits :=
          if bool_decide (0 < max_bits)
          then all_bits ++ format_b max_bits move_index else all_bits in
        inr (push board move, rng, all_bits)
    end.

(** The loop over the moves of a game (line 73). *)
Fixpoint decode_moves (game_index : nat) (st : Board * Rng * bits)
    (moves : list Move) : string + (Board * Rng * bits) :=
  match moves with
  | [] => inr st
  | move :: rest =>
      match decode_step game_index st move with
      | inl e => inl e
      | inr st' => decode_moves game_index st' rest
      end
  end.

(** One game (lines 65-93): its seed, a fresh generator and board, its moves. *)
Definition decode_game (game_index : nat) (all_bits : bits) (game : GameRecord Move)
    : string + bits :=
  match py_int (default "1"%string (headers game !! "Seed"%string)) with
  | None => inl ("Invalid seed in game " +:+ py_str (Z.of_nat (game_index + 1)))
  | Some seed =>
      match decode_moves game_index (initial_board, Random seed, all_bits)
                         (mainline_moves game) with
      | inl e => inl e
      | inr (_, _, all_bits') => inr all_bits'
      end
  end.

(** The loop over the games (line 64), from the game number [game_index]. *)
Fixpoint extract_from (game_index : nat) (all_bits : bits)
    (games : list (GameRecord Move)) : string + bits :=
  match games with
  | [] => inr all_bits
  | game :: rest =>
      match decode_game game_index all_bits game with
      | inl e => inl e
      | inr all_bits' => extract_from (S game_index) all_bits' rest
      end
  end.

Definition extract_bits_of (games : list (GameRecord Move)) : string + bits :=
  extract_from 0 [] games.

(** The expiry check (lines 34-55) on the first game: the files after it,
    and [inl] the error raised or [inr] to go on. An expired file removes the
    output file before it raises. *)
Definition check_expiry (fs : FS) (current_time : Z) (output_file_path : string)
    (first : GameRecord Move) : FS * (string + unit) :=
  match headers first !! "ExpiryTime"%string with
  | None => (fs, inr ())
  | Some value =>
      match py_int value with
      | None =>
          (fs, inl ("invalid literal for int() with base 10: '" +:+ value +:+ "'"))
      | Some expiry_time =>
          if bool_decide (current_time > expiry_time)%Z
          then (delete output_file_path fs,
                inl (expired_msg (current_time - expiry_time)))
          else (fs, inr ())
      end
  end.

(** The payload of a game set: extraction, frame and bytes (lines 61-137). *)
Definition decode_games (games : list (GameRecord Move)) : string + list byte :=
  match extract_bits_of games with
  | inl e => inl e
  | inr all_bits =>
      match parse_frame all_bits with
      | inl e => inl e
      | inr data_bits => inr (bytes_of_bits data_bits)
      end
  end.

(** What follows the expiry check (lines 57-147): the old output file is
    removed, the bits are extracted, the frame is parsed, the bytes are
    written and the file is checked. *)
Definition decode_rest (fs : FS) (games : list (GameRecord Move))
    (output_file_path : string) : FS * (string + unit) :=
  let fs := delete output_file_path fs in
  match decode_games games with
  | inl e => (fs, inl e)
  | inr decoded =>
      let fs := <[output_file_path := decoded]> fs in
      match fs !! output_file_path with
      | None => (fs, inl "Failed to create output file"%string)
      | Some [] => (fs, inl "Decoded output file is empty"%string)
      | Some _ => (fs, inr ())
      end
  end.

(** [decode(encode(payload))], the PGN file in between read back game for
    game. *)
Definition decode_encoded (fuel : nat) (file_bytes : list byte) (now : Z)
    (self_destruct_timer : option Z) (custom_headers : option (gmap string string))
    : option (string + list byte) :=
  match encode_games fuel file_bytes now self_destruct_timer custom_headers with
  | None => None
  | Some (inl e) => Some (inl e)
  | Some (inr games) => Some (decode_games games)
  end.

(** The body of the [try] of [decode] (lines 11-147): the files when it
    ends or raises, and the error raised if any. *)
Definition decode_body (fs : FS) (current_time : Z)
    (pgn_file_path output_file_path : string) : FS * (string + unit) :=
  match fs !! pgn_file_path with
  | None => (fs, inl "Input PGN file does not exist"%string)
  | Some pgn_content =>
      if is_blank pgn_content then (fs, inl "Input PGN file is empty"%string)
      else
        match pgn_load pgn_content with
        | [] => (fs, inl "No valid chess games found in PGN file"%string)
        | first :: rest =>
            match check_expiry fs current_time output_file_path first with
            | (fs', inl e) => (fs', inl e)
            | (fs', inr _) => decode_rest fs' (first :: rest) output_file_path
            end
        end
  end.

(** [decode] (lines 8-152): the handler of line 149 removes the output file
    and raises the error again under a prefix. *)
Definition decode (fs : FS) (current_time : Z)
    (pgn_file_path output_file_path : string) : FS * (string + unit) :=
  match decode_body fs current_time pgn_file_path output_file_path with
  | (fs', inl e) => (delete output_file_path fs', inl ("Decoding failed: " +:+ e))
  | (fs', inr tt) => (fs', inr tt)
  end.

(** *** What the results are stated with *)

(** A game replays to a generator state and to extracted bits, wherever it
    stands in the game set. *)
Definition replays (seed : Z) (board : Board) (rng : Rng) (cur : bits) : Prop :=
  forall game_index all_bits,
    decode_moves game_index (initial_board, Random seed, all_bits) board
    = inr (board, rng, all_bits ++ cur).

(** A game set extracts to bits, whatever was extracted before it. *)
Definition extracts (games : list (GameRecord Move)) (out : bits) : Prop :=
  forall game_index all_bits,
    extract_from game_index all_bits games = inr (all_bits ++ out).

(** While bits remain, the games recorded and the game on the board extract
    to the bits read so far. *)
Definition live_inv (wrapped : bits) (st : enc_state) : Prop :=
  exists cur out,
    replays (base_seed st) (chess_board st) (move_random st) cur
    ∧ extracts (output_pgns st) out
    ∧ out ++ cur = take (file_bit_index st) wrapped.

(** What is left of a run of the loop of [encode] when no game has more than
    [max_plies] plies: the plies the game on the board can still take, and
    the bits not read yet, each worth a whole game. *)
Definition plies_left (max_plies : nat) (board : Board) : nat :=
  match board with
  | [] => 0
  | _ => 1 + (max_plies + 1 - length board)
  end.

Definition work_left (max_plies : nat) (wrapped : bits) (st : enc_state) : nat :=
  (length wrapped - file_bit_index st) * (max_plies + 3)
  + plies_left max_plies (chess_board st).

(** The record of the game number [i] of a run, counted from 0: its board
    under the seed of the draw number [i], the expiry of the run and the
    headers of the game number [i + 1]. *)
Definition game_of (expiry_time : option Z)
    (custom_headers : option (gmap string string)) (i : nat) (board : Board)
    : GameRecord Move :=
  create_game_record board (randint i) expiry_time
    (game_headers_for custom_headers (S i)).

(** Two games with the same seed header and the same moves. *)
Definition same_seed_and_moves (game game' : GameRecord Move) : Prop :=
  headers game !! "Seed"%string = headers game' !! "Seed"%string
  ∧ mainline_moves game = mainline_moves game'.

(** ** Bit strings: values and digits *)

Lemma bits_val_foldl (acc : nat) (bs : bits) :
  foldl (fun a (b : bool) => 2 * a + (if b then 1 else 0)) acc bs
  = acc * 2 ^ length bs + bits_val bs.
Proof.
  unfold bits_val. revert acc.
  induction bs as [|b bs IH]; intros acc; cbn [foldl length].
  - rewrite Nat.pow_0_r. lia.
  - rewrite IH, (IH (2 * 0 + _)), Nat.pow_succ_r'. destruct b; lia.
Qed.

Lemma bits_val_cons (b : bool) (bs : bits) :
  bits_val (b :: bs) = (if b then 2 ^ length bs else 0) + bits_val bs.
Proof.
  unfold bits_val at 1. cbn [foldl]. rewrite bits_val_foldl. destruct b; lia.
Qed.

Lemma bits_val_app (a b : bits) :
  bits_val (a ++ b) = bits_val a * 2 ^ length b + bits_val b.
Proof.
  induction a as [|x a IH]; simpl.
  - reflexivity.
  - rewrite !bits_val_cons, IH, length_app, Nat.pow_add_r. destruct x; lia.
Qed.

Lemma bits_val_lt (bs : bits) : bits_val bs < 2 ^ length bs.
Proof.
  induction bs as [|b bs IH]; simpl.
  - unfold bits_val; simpl; lia.
  - rewrite bits_val_cons. destruct b; simpl; lia.
Qed.

Lemma bits_val_zeros (n : nat) (bs : bits) :
  bits_val (repeat false n ++ bs) = bits_val bs.
Proof.
  induction n as [|n IH]; simpl; [reflexivity|].
  rewrite bits_val_cons. simpl. exact IH.
Qed.

(** Two digit strings of one length with one value are the same string. *)
Lemma bits_val_inj (a b : bits) :
  length a = length b -> bits_val a = bits_val b -> a = b.
Proof.
  revert b. induction a as [|x a IH]; intros [|y b] Hlen Hval; simplify_eq/=.
  - reflexivity.
  - rewrite !bits_val_cons in Hval.
    pose proof (bits_val_lt a) as Ha. pose proof (bits_val_lt b) as Hb.
    rewrite Hlen in Ha, Hval.
    destruct x, y; try (exfalso; lia); f_equal; apply IH; lia.
Qed.

Lemma bits_val_pos_bits (p : positive) : bits_val (pos_bits p) = Pos.to_nat p.
Proof.
  induction p as [p IH|p IH|]; simpl.
  - rewrite bits_val_app, IH. unfold bits_val; simpl. lia.
  - rewrite bits_val_app, IH. unfold bits_val; simpl. lia.
  - reflexivity.
Qed.

Lemma bits_val_bin (n : nat) : bits_val (bin n) = n.
Proof.
  unfold bin. destruct (N.of_nat n) as [|p] eqn:E.
  - unfold bits_val; simpl. lia.
  - rewrite bits_val_pos_bits. lia.
Qed.

Lemma pos_bits_head (p : positive) : exists t, pos_bits p = true :: t.
Proof.
  induction p as [p [t IH]|p [t IH]|]; simpl; rewrite ?IH; eauto.
Qed.

Lemma length_bin_pos (n : nat) : 0 < length (bin n).
Proof.
  unfold bin. destruct (N.of_nat n) as [|p]; simpl; [lia|].
  destruct (pos_bits_head p) as [t ->]. simpl. lia.
Qed.

(** A number below [2 ^ w] has at most [w] digits. *)
Lemma length_bin_le (w n : nat) : 0 < w -> n < 2 ^ w -> length (bin n) ≤ w.
Proof.
  intros Hw Hn. pose proof (bits_val_bin n) as Hv. unfold bin in *.
  destruct (N.of_nat n) as [|p]; simpl; [lia|].
  destruct (pos_bits_head p) as [t Ht]. rewrite Ht in *.
  rewrite bits_val_cons in Hv. simpl.
  destruct (decide (length t < w)) as [|Hge]; [lia|].
  assert (2 ^ w ≤ 2 ^ length t) by (apply Nat.pow_le_mono_r; lia). lia.
Qed.

Lemma bits_val_format_b (w n : nat) : bits_val (format_b w n) = n.
Proof. unfold format_b. rewrite bits_val_zeros. apply bits_val_bin. Qed.

Lemma length_format_b (w n : nat) :
  0 < w -> n < 2 ^ w -> length (format_b w n) = w.
Proof.
  intros Hw Hn. unfold format_b. rewrite length_app, repeat_length.
  pose proof (length_bin_le w n Hw Hn). lia.
Qed.

(** The width is a minimum: a number with more digits keeps them all. *)
Lemma length_format_b_ge (w n : nat) : w ≤ length (format_b w n).
Proof. unfold format_b. rewrite length_app, repeat_length. lia. Qed.

(** Printing the value of a digit string at a larger width pads it with
    zeros on the left. *)
Lemma format_b_bits_val (w : nat) (bs : bits) :
  bs ≠ [] -> length bs ≤ w ->
  format_b w (bits_val bs) = repeat false (w - length bs) ++ bs.
Proof.
  intros Hne Hlen.
  assert (0 < length bs) by (destruct bs; simpl; [done|lia]).
  apply bits_val_inj.
  - rewrite length_format_b, length_app, repeat_length; [lia|lia|].
    pose proof (bits_val_lt bs).
    assert (2 ^ length bs ≤ 2 ^ w) by (apply Nat.pow_le_mono_r; lia). lia.
  - rewrite bits_val_format_b, bits_val_zeros. reflexivity.
Qed.

Lemma format_b_bits_val_same (bs : bits) :
  bs ≠ [] -> format_b (length bs) (bits_val bs) = bs.
Proof.
  intros Hne. rewrite format_b_bits_val, Nat.sub_diag by done. reflexivity.
Qed.

Lemma int2_Some (bs : bits) : bs ≠ [] -> int2 bs = Some (bits_val bs).
Proof. destruct bs; [done|reflexivity]. Qed.

(** ** Substring search *)

Lemma occurs_at_0 (sub s : bits) : occurs_at sub s 0 <-> starts_with sub s = true.
Proof. unfold occurs_at, starts_with. rewrite bool_decide_eq_true. reflexivity. Qed.

Lemma occurs_at_S (sub : bits) (x : bool) (s : bits) (i : nat) :
  occurs_at sub (x :: s) (S i) <-> occurs_at sub s i.
Proof. reflexivity. Qed.

Lemma occurs_at_lt (sub s : bits) (i : nat) :
  sub ≠ [] -> occurs_at sub s i -> i + length sub ≤ length s.
Proof.
  unfold occurs_at. intros Hne H.
  assert (length (take (length sub) (drop i s)) = length sub) as Hl by (by rewrite H).
  rewrite length_take, length_drop in Hl.
  assert (0 < length sub) by (destruct sub; simpl; [done|lia]). lia.
Qed.

Lemma find_Some (sub s : bits) (i : nat) :
  find sub s = Some i <->
  occurs_at sub s i ∧ i ≤ length s ∧ forall j, j < i -> ¬ occurs_at sub s j.
Proof.
  revert i. induction s as [|x s IH]; intros i; simpl.
  - destruct (starts_with sub []) eqn:E.
    + apply occurs_at_0 in E. split.
      * intros [= <-]. split_and!; [done|simpl; lia|lia].
      * intros (_ & Hi & _). simpl in Hi. f_equal. lia.
    + split; [done|]. intros (Ho & Hi & _). simpl in Hi.
      assert (i = 0) as -> by lia. apply occurs_at_0 in Ho. congruence.
  - destruct (starts_with sub (x :: s)) eqn:E.
    + apply occurs_at_0 in E. split.
      * intros [= <-]. split_and!; [done|lia|lia].
      * intros (_ & _ & Hmin). destruct i as [|i]; [done|].
        exfalso. apply (Hmin 0); [lia|done].
    + assert (¬ occurs_at sub (x :: s) 0) as Hno.
      { rewrite occurs_at_0. congruence. }
      destruct i as [|i].
      * split; [destruct (find sub s); done|]. intros (Ho & _). done.
      * change (occurs_at sub (x :: s) (S i)) with (occurs_at sub s i).
        split.
        -- destruct (find sub s) as [k|] eqn:Ek; simpl; [|done].
           intros [= <-]. destruct (proj1 (IH k) eq_refl) as (Ho & Hi & Hmin).
           split_and!; [done|lia|]. intros [|j] Hj; [done|].
           apply (Hmin j). lia.
        -- intros (Ho & Hi & Hmin).
           assert (find sub s = Some i) as ->; [|done].
           apply IH. split_and!; [done|lia|].
           intros j Hj. apply (Hmin (S j)). lia.
Qed.

Lemma find_None (sub s : bits) :
  find sub s = None <-> forall j, j ≤ length s -> ¬ occurs_at sub s j.
Proof.
  induction s as [|x s IH]; simpl.
  - destruct (starts_with sub []) eqn:E.
    + apply occurs_at_0 in E. split; [done|]. intros H. destruct (H 0); [lia|done].
    + split; [|done]. intros _ j Hj. assert (j = 0) as -> by lia.
      rewrite occurs_at_0. congruence.
  - destruct (starts_with sub (x :: s)) eqn:E.
    + apply occurs_at_0 in E. split; [done|]. intros H. destruct (H 0); [lia|done].
    + assert (¬ occurs_at sub (x :: s) 0) as Hno.
      { rewrite occurs_at_0. congruence. }
      destruct (find sub s) as [k|] eqn:Ek; simpl.
      * split; [done|]. intros H. apply find_Some in Ek as (Ho & Hk & _).
        destruct (H (S k)); [lia|done].
      * split; [|done]. intros _ [|j] Hj; [done|].
        apply (proj1 IH eq_refl j). lia.
Qed.

Lemma rfind_occurs (sub s : bits) (i : nat) :
  rfind sub s = Some i -> occurs_at sub s i ∧ i ≤ length s.
Proof.
  revert i. induction s as [|x s IH]; intros i; simpl.
  - destruct (starts_with sub []) eqn:E; [|done].
    intros [= <-]. apply occurs_at_0 in E. done.
  - destruct (rfind sub s) as [k|].
    + intros [= <-]. destruct (IH k eq_refl). split; [done|lia].
    + destruct (starts_with sub (x :: s)) eqn:E; [|done].
      intros [= <-]. apply occurs_at_0 in E. split; [done|lia].
Qed.

Lemma rfind_None (sub s : bits) :
  rfind sub s = None <-> forall j, j ≤ length s -> ¬ occurs_at sub s j.
Proof.
  induction s as [|x s IH]; simpl.
  - destruct (starts_with sub []) eqn:E.
    + apply occurs_at_0 in E. split; [done|]. intros H. destruct (H 0); [lia|done].
    + split; [|done]. intros _ j Hj. assert (j = 0) as -> by lia.
      rewrite occurs_at_0. congruence.
  - destruct (rfind sub s) as [k|] eqn:Ek.
    + split; [done|]. intros H. apply rfind_occurs in Ek as [Ho Hk].
      destruct (H (S k)); [lia|done].
    + pose proof (proj1 IH eq_refl) as Hnone.
      destruct (starts_with sub (x :: s)) eqn:E.
      * apply occurs_at_0 in E. split; [done|]. intros H. destruct (H 0); [lia|done].
      * split; [|done]. intros _ [|j] Hj.
        -- rewrite occurs_at_0. congruence.
        -- apply (Hnone j). lia.
Qed.

Lemma rfind_Some (sub s : bits) (i : nat) :
  rfind sub s = Some i <->
  occurs_at sub s i ∧ i ≤ length s
  ∧ forall j, i < j -> j ≤ length s -> ¬ occurs_at sub s j.
Proof.
  revert i. induction s as [|x s IH]; intros i; simpl.
  - destruct (starts_with sub []) eqn:E.
    + apply occurs_at_0 in E. split.
      * intros [= <-]. split_and!; [done|simpl; lia|simpl; lia].
      * intros (_ & Hi & _). simpl in Hi. f_equal. lia.
    + split; [done|]. intros (Ho & Hi & _). simpl in Hi.
      assert (i = 0) as -> by lia. apply occurs_at_0 in Ho. congruence.
  - destruct (rfind sub s) as [k|] eqn:Ek.
    + destruct (proj1 (IH k) eq_refl) as (Ho & Hk & Hmax). split.
      * intros [= <-]. split_and!; [done|lia|].
        intros [|j] Hj Hj'; [lia|]. apply (Hmax j); lia.
      * intros (Hoi & Hi & Hmaxi). f_equal.
        destruct (decide (S k = i)) as [|Hne]; [done|exfalso].
        destruct (decide (S k < i)) as [Hlt|Hge].
        -- destruct i as [|i]; [lia|]. apply (Hmax i); [lia|lia|done].
        -- apply (Hmaxi (S k)); [lia|lia|done].
    + pose proof (proj1 (rfind_None sub s) Ek) as Hnone.
      destruct (starts_with sub (x :: s)) eqn:E.
      * apply occurs_at_0 in E. split.
        -- intros [= <-]. split_and!; [done|lia|].
           intros [|j] Hj Hj'; [lia|]. apply (Hnone j). lia.
        -- intros (Hoi & Hi & _). f_equal. destruct i as [|i]; [done|].
           destruct (Hnone i); [lia|done].
      * split; [done|]. intros (Hoi & Hi & _). destruct i as [|i].
        -- apply occurs_at_0 in Hoi. congruence.
        -- destruct (Hnone i); [lia|done].
Qed.

Lemma find_first (sub s : bits) (i : nat) :
  sub ≠ [] -> find sub s = Some i <-> first_occurrence sub s i.
Proof.
  intros Hne. rewrite find_Some. unfold first_occurrence. split.
  - intros (? & ? & ?). done.
  - intros [Ho Hmin]. split_and!; [done| |done].
    pose proof (occurs_at_lt sub s i Hne Ho). lia.
Qed.

Lemma find_absent (sub s : bits) :
  sub ≠ [] -> find sub s = None <-> forall j, ¬ occurs_at sub s j.
Proof.
  intros Hne. rewrite find_None. split; [|by auto].
  intros H j Ho. apply (H j); [|done].
  pose proof (occurs_at_lt sub s j Hne Ho). lia.
Qed.

Lemma rfind_last (sub s : bits) (i : nat) :
  sub ≠ [] -> rfind sub s = Some i <-> last_occurrence sub s i.
Proof.
  intros Hne. rewrite rfind_Some. unfold last_occurrence. split.
  - intros (Ho & Hi & Hmax). split; [done|]. intros j Hj Hoj.
    apply (Hmax j); [done| |done].
    pose proof (occurs_at_lt sub s j Hne Hoj). lia.
  - intros [Ho Hmax]. split_and!; [done| |by auto].
    pose proof (occurs_at_lt sub s i Hne Ho). lia.
Qed.

Lemma rfind_absent (sub s : bits) :
  sub ≠ [] -> rfind sub s = None <-> forall j, ¬ occurs_at sub s j.
Proof.
  intros Hne. rewrite rfind_None. split; [|by auto].
  intros H j Ho. apply (H j); [|done].
  pose proof (occurs_at_lt sub s j Hne Ho). lia.
Qed.

(** ** The frame *)

Lemma length_format_byte (b : byte) : length (format_b 8 (Byte.to_nat b)) = 8.
Proof.
  apply length_format_b; [lia|]. pose proof (Byte.to_nat_bounded b).
  change (2 ^ 8) with 256. lia.
Qed.

Lemma format_byte_testbit (b : byte) (j : nat) :
  j < 8 ->
  format_b 8 (Byte.to_nat b) !! j = Some (Nat.testbit (Byte.to_nat b) (7 - j)).
Proof.
  intros Hj.
  do 8 (destruct j as [|j]; [destruct b; vm_compute; reflexivity|]). lia.
Qed.

Lemma data_bits_of_cons (b : byte) (l : list byte) :
  data_bits_of (b :: l) = format_b 8 (Byte.to_nat b) ++ data_bits_of l.
Proof. reflexivity. Qed.

Lemma length_data_bits_of (file_bytes : list byte) :
  length (data_bits_of file_bytes) = 8 * length file_bytes.
Proof.
  induction file_bytes as [|b l IH]; [done|].
  rewrite data_bits_of_cons, length_app, length_format_byte, IH. simpl. lia.
Qed.

Lemma data_bits_of_lookup (file_bytes : list byte) (i j : nat) (b : byte) :
  file_bytes !! i = Some b -> j < 8 ->
  data_bits_of file_bytes !! (8 * i + j) = format_b 8 (Byte.to_nat b) !! j.
Proof.
  revert i.
  induction file_bytes as [|x l IH]; intros i Hi Hj; [done|].
  rewrite data_bits_of_cons. destruct i as [|i].
  - injection Hi as ->. rewrite lookup_app_l; [done|]. rewrite length_format_byte. lia.
  - rewrite lookup_app_r; rewrite length_format_byte; [|lia].
    replace (8 * S i + j - 8) with (8 * i + j) by lia.
    by apply IH.
Qed.

Lemma padding_needed_0 (file_bytes : list byte) : padding_needed file_bytes = 0.
Proof.
  unfold padding_needed. rewrite length_data_bits_of. simpl length.
  replace (4 + 8 * length file_bytes + 4) with ((length file_bytes + 1) * 8) by lia.
  rewrite Nat.Div0.mod_mul. reflexivity.
Qed.

Lemma length_complete_binary (file_bytes : list byte) :
  length (complete_binary file_bytes) = 8 * length file_bytes + 8.
Proof.
  unfold complete_binary. rewrite padding_needed_0.
  rewrite !length_app, length_data_bits_of. simpl. lia.
Qed.

(** C2: the wrapped bitstream of [encode] is the start marker 1010, the
    eight bits of each payload byte in order with the most significant bit
    first, the zero padding and the end marker 0101; the padding has the
    length of the specification's formula, which is the least number of bits
    that makes the total a multiple of 8; and the total is a multiple of 8. *)
Theorem wrapped_bitstream_layout (file_bytes : list byte) :
  exists (data padding : bits),
    complete_binary file_bytes
      = [true; false; true; false] ++ data ++ padding ++ [false; true; false; true]
    ∧ length data = 8 * length file_bytes
    ∧ (forall i j b, file_bytes !! i = Some b -> j < 8 ->
         data !! (8 * i + j) = Some (Nat.testbit (Byte.to_nat b) (7 - j)))
    ∧ padding = repeat false (length padding)
    ∧ length padding = (8 - (4 + 8 * length file_bytes + 4) mod 8) mod 8
    ∧ (forall k, (4 + 8 * length file_bytes + k + 4) mod 8 = 0 -> length padding ≤ k)
    ∧ length (complete_binary file_bytes) mod 8 = 0.
Proof.
  exists (data_bits_of file_bytes), (repeat false (padding_needed file_bytes)).
  split_and!.
  - reflexivity.
  - apply length_data_bits_of.
  - intros i j b Hi Hj. rewrite (data_bits_of_lookup _ _ _ b) by done.
    by apply format_byte_testbit.
  - by rewrite repeat_length.
  - rewrite repeat_length. unfold padding_needed.
    rewrite length_data_bits_of. reflexivity.
  - intros k _. rewrite repeat_length, padding_needed_0. lia.
  - rewrite length_complete_binary.
    replace (8 * length file_bytes + 8) with ((length file_bytes + 1) * 8) by lia.
    apply Nat.Div0.mod_mul.
Qed.

Lemma markers_nonempty : START_MARKER ≠ [] ∧ END_MARKER ≠ [].
Proof. done. Qed.

Lemma length_truncate_residue (data_bits : bits) :
  truncate_residue data_bits = take (8 * (length data_bits / 8)) data_bits.
Proof.
  unfold truncate_residue. pose proof (Nat.div_mod_eq (length data_bits) 8) as E.
  case_bool_decide as H.
  - f_equal. lia.
  - rewrite take_ge; [done|]. lia.
Qed.

(** The outcome of frame parsing once both searches have found a marker. *)
Lemma parse_frame_found (all_bits : bits) (s e : nat) :
  find START_MARKER all_bits = Some s ->
  rfind END_MARKER all_bits = Some e ->
  s + 4 < e ->
  parse_frame all_bits
  = if bool_decide (e - (s + 4) - (e - (s + 4)) mod 8 = 0)
    then inl "No data found between markers"%string
    else inr (take (e - (s + 4) - (e - (s + 4)) mod 8) (drop (s + 4) all_bits)).
Proof.
  intros Hfind Hrfind Hlt. unfold parse_frame. rewrite Hfind, Hrfind.
  destruct (rfind_occurs _ _ _ Hrfind) as [_ Hbound].
  change (length START_MARKER) with 4.
  rewrite bool_decide_false by lia.
  assert (length (slice (s + 4) e all_bits) = e - (s + 4)) as Hlen.
  { unfold slice. rewrite length_drop, length_take. lia. }
  pose proof (Nat.div_mod_eq (e - (s + 4)) 8) as Hdm.
  pose proof (Nat.mod_upper_bound (e - (s + 4)) 8 ltac:(lia)) as Hub.
  rewrite length_truncate_residue, Hlen.
  replace (8 * ((e - (s + 4)) / 8)) with (e - (s + 4) - (e - (s + 4)) mod 8) by lia.
  rewrite length_take, Hlen.
  rewrite Nat.min_l by lia.
  case_bool_decide; [done|]. f_equal.
  unfold slice. rewrite !take_drop_commute, take_take. f_equal. f_equal. lia.
Qed.

(** C3: frame parsing fails with the missing-start-marker error when 1010
    does not occur; with the missing-end-marker error when 0101 does not occur
    at an index after the one that follows the first start marker (the index
    where the data starts); and otherwise uses the first 1010 and the last
    0101 of the stream, failing with the empty-frame error when the region
    between them holds no whole byte, and giving the region cut down to whole
    bytes when it does. *)
Theorem parse_frame_spec (all_bits : bits) :
  ((forall i, ¬ occurs_at START_MARKER all_bits i) ->
     parse_frame all_bits = inl "Start marker not found in decoded data"%string)
  ∧ (forall s,
       first_occurrence START_MARKER all_bits s ->
       (forall e, s + 4 < e -> ¬ occurs_at END_MARKER all_bits e) ->
       parse_frame all_bits = inl "End marker not found in decoded data"%string)
  ∧ (forall s e,
       first_occurrence START_MARKER all_bits s ->
       last_occurrence END_MARKER all_bits e ->
       s + 4 < e ->
       parse_frame all_bits
       = if bool_decide (e - (s + 4) - (e - (s + 4)) mod 8 = 0)
         then inl "No data found between markers"%string
         else inr (take (e - (s + 4) - (e - (s + 4)) mod 8) (drop (s + 4) all_bits))).
Proof.
  destruct markers_nonempty as [Hs He]. split_and!.
  - intros Hno. apply (find_absent _ _ Hs) in Hno. unfold parse_frame.
    by rewrite Hno.
  - intros s Hfirst Hno. apply (find_first _ _ _ Hs) in Hfirst.
    unfold parse_frame. rewrite Hfirst.
    destruct (rfind END_MARKER all_bits) as [e|] eqn:E; [|done].
    apply (rfind_last _ _ _ He) in E as [Ho _].
    change (length START_MARKER) with 4.
    case_bool_decide as Hle; [done|]. destruct (Hno e); [lia|done].
  - intros s e Hfirst Hlast Hlt. apply parse_frame_found; [|
      |done].
    + by apply (find_first _ _ _ Hs).
    + by apply (rfind_last _ _ _ He).
Qed.

(** ** The encode loop, pass by pass *)

Section LoopFacts.

Variable wrapped : bits.
Variable expiry_time : option Z.
Variable custom_headers : option (gmap string string).

(** The loop of [encode] at these values of its constants. *)
Local Abbreviation pass := (encode_iter wrapped expiry_time custom_headers).
Local Abbreviation loop := (encode_loop wrapped expiry_time custom_headers).
Local Abbreviation trace := (encode_trace wrapped expiry_time custom_headers).
Local Abbreviation reach := (enc_reach wrapped expiry_time custom_headers).
Local Abbreviation new_game := (next_game expiry_time custom_headers).
Local Abbreviation record := (record_of expiry_time custom_headers).
Local Abbreviation after_forced := (forced_next expiry_time custom_headers).
Local Abbreviation after_choice := (choice_next wrapped expiry_time custom_headers).
Local Abbreviation nbits := (bits_to_encode wrapped).
Local Abbreviation chunk := (chunk_at wrapped).
Local Abbreviation taken := (consumed wrapped).

(** A position with a choice takes at least one bit, at most
    [floor(log2 n)], and never more than remain. *)
Lemma bits_to_encode_bounds (st : enc_state) :
  file_bit_index st < length wrapped ->
  2 ≤ length (legal_moves (chess_board st)) ->
  1 ≤ nbits st
  ∧ nbits st ≤ Nat.log2 (length (legal_moves (chess_board st)))
  ∧ file_bit_index st + nbits st ≤ length wrapped.
Proof.
  intros Hidx Hn. unfold bits_to_encode.
  assert (1 ≤ Nat.log2 (length (legal_moves (chess_board st)))).
  { apply Nat.log2_le_pow2; simpl; lia. }
  lia.
Qed.

Lemma length_chunk_at (st : enc_state) :
  file_bit_index st + nbits st ≤ length wrapped ->
  length (chunk st) = nbits st.
Proof.
  intros H. unfold chunk_at, slice. rewrite length_drop, length_take. lia.
Qed.

Lemma chunk_at_drop (st : enc_state) :
  chunk st = take (nbits st) (drop (file_bit_index st) wrapped).
Proof. unfold chunk_at, slice. by rewrite take_drop_commute. Qed.

(** The number read from the stream is below the number of legal moves. *)
Lemma chunk_val_in_range (st : enc_state) :
  file_bit_index st < length wrapped ->
  2 ≤ length (legal_moves (chess_board st)) ->
  chunk st ≠ []
  ∧ bits_val (chunk st) < 2 ^ nbits st
  ∧ bits_val (chunk st) < length (legal_moves (chess_board st)).
Proof.
  intros Hidx Hn.
  destruct (bits_to_encode_bounds st Hidx Hn) as (H1 & H2 & H3).
  pose proof (length_chunk_at st H3) as Hlen.
  pose proof (bits_val_lt (chunk st)) as Hv. rewrite Hlen in Hv.
  split_and!; [|done|].
  - intros E. rewrite E in Hlen. simpl in Hlen. lia.
  - pose proof (Nat.log2_spec (length (legal_moves (chess_board st))) ltac:(lia))
      as [Hlo _].
    assert (2 ^ nbits st
            ≤ 2 ^ Nat.log2 (length (legal_moves (chess_board st))))
      by (apply Nat.pow_le_mono_r; lia).
    lia.
Qed.

Lemma encode_iter_forced (st : enc_state) :
  length (legal_moves (chess_board st)) ≤ 1 ->
  pass st = inr (after_forced st).
Proof.
  intros H. unfold encode_iter, forced_next.
  rewrite bool_decide_true by done.
  by destruct (_ || _).
Qed.

Lemma encode_iter_choice (st : enc_state) :
  file_bit_index st < length wrapped ->
  2 ≤ length (legal_moves (chess_board st)) ->
  pass st =
    match (shuffle (move_random st) (legal_moves (chess_board st))).2
            !! bits_val (chunk st) with
    | None => inl "list index out of range"%string
    | Some chosen_move =>
        inr (after_choice st
               (shuffle (move_random st) (legal_moves (chess_board st))).1
               chosen_move)
    end.
Proof.
  intros Hidx Hn. destruct (chunk_val_in_range st Hidx Hn) as (Hne & _ & Hlt).
  unfold encode_iter, choice_next.
  rewrite bool_decide_false by lia.
  rewrite (int2_Some _ Hne).
  rewrite bool_decide_false by lia.
  destruct (shuffle _ _) as [rng shuffled]. simpl.
  destruct (shuffled !! _); [|done].
  destruct (should_end_game _); [|done]. by case_bool_decide.
Qed.

(** What a pass reads at a position with a choice. *)
Lemma chunk_is_index (st : enc_state) :
  file_bit_index st < length wrapped ->
  2 ≤ length (legal_moves (chess_board st)) ->
  length (chunk st)
    = min (Nat.log2 (length (legal_moves (chess_board st))))
          (length wrapped - file_bit_index st)
  ∧ chunk st = take (length (chunk st)) (drop (file_bit_index st) wrapped)
  ∧ exists move_index,
      int2 (chunk st) = Some move_index
      ∧ move_index < length (legal_moves (chess_board st)).
Proof.
  intros Hidx Hn.
  destruct (bits_to_encode_bounds st Hidx Hn) as (H1 & H2 & H3).
  destruct (chunk_val_in_range st Hidx Hn) as (Hne & _ & Hlt).
  split_and!.
  - by rewrite length_chunk_at.
  - rewrite length_chunk_at by done. apply chunk_at_drop.
  - exists (bits_val (chunk st)). split; [by apply int2_Some|done].
Qed.

Lemma pass_no_index_error (st : enc_state) :
  file_bit_index st < length wrapped ->
  pass st ≠ inl "Invalid move index calculated"%string.
Proof.
  intros Hidx.
  destruct (decide (length (legal_moves (chess_board st)) ≤ 1)) as [Hf|Hc].
  - by rewrite encode_iter_forced.
  - rewrite encode_iter_choice by lia. by destruct (_ !! _).
Qed.

Lemma loop_no_index_error (fuel : nat) (st : enc_state) :
  loop fuel st ≠ Some (inl "Invalid move index calculated"%string).
Proof.
  revert st. induction fuel as [|fuel IH]; intros st; simpl.
  - by case_bool_decide.
  - case_bool_decide as Hidx; [|done].
    destruct (pass st) as [e|st'] eqn:E; [|apply IH].
    intros [= ->]. by apply (pass_no_index_error st).
Qed.

(** A pass that succeeds is one of the two named outcomes. *)
Lemma pass_inv (st st' : enc_state) :
  file_bit_index st < length wrapped ->
  pass st = inr st' ->
  (length (legal_moves (chess_board st)) ≤ 1 ∧ st' = after_forced st)
  ∨ (2 ≤ length (legal_moves (chess_board st))
     ∧ exists chosen_move,
         (shuffle (move_random st) (legal_moves (chess_board st))).2
           !! bits_val (chunk st) = Some chosen_move
         ∧ st' = after_choice st
                   (shuffle (move_random st) (legal_moves (chess_board st))).1
                   chosen_move).
Proof.
  intros Hidx Hpass.
  destruct (decide (length (legal_moves (chess_board st)) ≤ 1)) as [Hf|Hc].
  - left. rewrite encode_iter_forced in Hpass by done. by simplify_eq.
  - right. split; [lia|]. rewrite encode_iter_choice in Hpass by lia.
    destruct (_ !! _) as [chosen_move|]; [|done]. exists chosen_move.
    by simplify_eq.
Qed.

Lemma forced_next_index (st : enc_state) :
  file_bit_index (after_forced st) = file_bit_index st.
Proof. unfold forced_next. by destruct (_ || _). Qed.

Lemma choice_next_index (st : enc_state) (rng : Rng) (chosen_move : Move) :
  file_bit_index (after_choice st rng chosen_move)
  = file_bit_index st + nbits st.
Proof.
  unfold choice_next. destruct (should_end_game _); [|done]. by case_bool_decide.
Qed.

Lemma consumed_forced (st : enc_state) :
  length (legal_moves (chess_board st)) ≤ 1 -> taken st = [].
Proof. intros H. unfold consumed. by rewrite bool_decide_true. Qed.

Lemma consumed_choice (st : enc_state) :
  2 ≤ length (legal_moves (chess_board st)) -> taken st = chunk st.
Proof. intros H. unfold consumed. rewrite bool_decide_false; [done|lia]. Qed.

(** A pass moves the cursor forward by the bits it read, which are the bits
    of the stream under the cursor. *)
Lemma pass_cursor (st st' : enc_state) :
  file_bit_index st < length wrapped ->
  pass st = inr st' ->
  file_bit_index st' = file_bit_index st + length (taken st)
  ∧ taken st = slice (file_bit_index st) (file_bit_index st') wrapped
  ∧ file_bit_index st' ≤ length wrapped.
Proof.
  intros Hidx Hpass.
  destruct (pass_inv st st' Hidx Hpass) as [[Hf ->]|(Hc & mv & _ & ->)].
  - rewrite forced_next_index, consumed_forced by done. simpl.
    split_and!; [lia| |lia]. unfold slice. rewrite drop_ge; [done|].
    rewrite length_take. lia.
  - destruct (bits_to_encode_bounds st Hidx Hc) as (H1 & H2 & H3).
    rewrite choice_next_index, consumed_choice, length_chunk_at by done.
    done.
Qed.

(** The loop keeps what a pass keeps. *)
Lemma loop_invariant (P : enc_state -> Prop) :
  (forall st st', P st -> file_bit_index st < length wrapped ->
                  pass st = inr st' -> P st') ->
  forall fuel st st', P st -> loop fuel st = Some (inr st') ->
    P st' ∧ ¬ file_bit_index st' < length wrapped.
Proof.
  intros Hstep fuel. induction fuel as [|fuel IH]; intros st st' HP; simpl.
  - case_bool_decide; [done|]. intros [= <-]. done.
  - case_bool_decide as Hidx; [|intros [= <-]; done].
    destruct (pass st) as [e|st1] eqn:E; [done|].
    apply IH. by apply (Hstep st).
Qed.

Lemma loop_reach (fuel : nat) (st st' : enc_state) :
  reach st -> loop fuel st = Some (inr st') ->
  reach st' ∧ ¬ file_bit_index st' < length wrapped.
Proof.
  apply loop_invariant. intros s s' Hs Hidx Hpass. by eapply reach_step.
Qed.

Lemma reach_index_le (st : enc_state) :
  reach st -> file_bit_index st ≤ length wrapped.
Proof.
  induction 1 as [|st st' _ IH Hidx Hpass]; simpl; [lia|].
  by destruct (pass_cursor st st' Hidx Hpass) as (_ & _ & ?).
Qed.

(** More fuel does not change a result. *)
Lemma loop_fuel_mono (fuel fuel' : nat) (st : enc_state) (r : string + enc_state) :
  fuel ≤ fuel' -> loop fuel st = Some r -> loop fuel' st = Some r.
Proof.
  revert fuel' st. induction fuel as [|fuel IH]; intros fuel' st Hle; simpl.
  - case_bool_decide as Hidx; [done|]. intros [= <-].
    destruct fuel'; simpl; by rewrite bool_decide_false.
  - destruct fuel' as [|fuel']; [lia|]. simpl.
    case_bool_decide as Hidx; [|done].
    destruct (pass st) as [e|st1]; [done|]. apply IH. lia.
Qed.

(** C5: at a position with at most one legal move a pass of [encode] reads
    no bit and leaves the cursor where it is; it pushes the sole move if there
    is one, and the board it pushed to is either the board of the game that
    goes on, or the board recorded as a finished game. [decode] at such a
    position emits no bit, leaves its generator alone and pushes the recorded
    move, so it reaches the board [encode] reached. *)
Theorem forced_position_no_bits (st : enc_state) :
  length (legal_moves (chess_board st)) ≤ 1 ->
  (exists st',
     pass st = inr st'
     ∧ file_bit_index st' = file_bit_index st
     ∧ taken st = []
     ∧ (forall move, legal_moves (chess_board st) = [move] ->
          if is_game_over (push (chess_board st) move)
          then output_pgns st'
               = output_pgns st ++ [record st (push (chess_board st) move)]
               ∧ chess_board st' = initial_board
          else output_pgns st' = output_pgns st
               ∧ chess_board st' = push (chess_board st) move
               ∧ move_random st' = move_random st)
     ∧ (legal_moves (chess_board st) = [] ->
          output_pgns st' = output_pgns st ++ [record st (chess_board st)]
          ∧ chess_board st' = initial_board))
  ∧ (forall game_index rng all_bits move,
       decode_step game_index (chess_board st, rng, all_bits) move
       = inr (push (chess_board st) move, rng, all_bits)).
Proof.
  intros Hf. split.
  - exists (after_forced st). split_and!.
    + by apply encode_iter_forced.
    + apply forced_next_index.
    + by apply consumed_forced.
    + intros move Hm. unfold forced_next. rewrite Hm. simpl.
      destruct (is_game_over _); done.
    + intros Hm. unfold forced_next. rewrite Hm. done.
  - intros game_index rng all_bits move. unfold decode_step.
    by rewrite bool_decide_true.
Qed.

(** ** The cursor *)

Lemma trace_consumed (fuel : nat) (st st_end : enc_state) :
  file_bit_index st ≤ length wrapped ->
  loop fuel st = Some (inr st_end) ->
  mjoin (taken <$> trace fuel st) = drop (file_bit_index st) wrapped.
Proof.
  revert st. induction fuel as [|fuel IH]; intros st Hle; simpl.
  - case_bool_decide as Hidx; [done|]. intros _. simpl.
    rewrite drop_ge; [done|lia].
  - case_bool_decide as Hidx; [|intros _; simpl; rewrite drop_ge; [done|lia]].
    destruct (pass st) as [e|st1] eqn:E; [done|]. intros Hloop.
    destruct (pass_cursor st st1 Hidx E) as (Hi & Ht & Hle1).
    rewrite fmap_cons. simpl. rewrite (IH st1 Hle1 Hloop), Ht, Hi.
    unfold slice. rewrite <- take_drop_commute.
    rewrite <- (drop_drop wrapped (length (taken st)) (file_bit_index st)).
    apply take_drop.
Qed.

Lemma trace_linked (fuel : nat) (st0 st_end : enc_state) :
  loop fuel st0 = Some (inr st_end) ->
  forall i st, trace fuel st0 !! i = Some st ->
    file_bit_index st < length wrapped
    ∧ exists st', pass st = inr st'
        ∧ (trace fuel st0 !! S i = Some st'
           ∨ (trace fuel st0 !! S i = None ∧ st' = st_end)).
Proof.
  revert st0. induction fuel as [|fuel IH]; intros st0; simpl.
  - case_bool_decide; done.
  - case_bool_decide as Hidx; [|done].
    destruct (pass st0) as [e|st1] eqn:E; [done|]. intros Hloop [|i] st Hst.
    + injection Hst as <-. split; [done|]. exists st1. split; [done|].
      simpl. destruct fuel as [|fuel']; simpl in *.
      * case_bool_decide; [done|]. right. split; [done|congruence].
      * case_bool_decide; [by left|]. right. split; [done|congruence].
    + simpl in Hst. apply (IH st1 Hloop i st Hst).
Qed.

Lemma trace_head (fuel : nat) (st : enc_state) (r : string + enc_state) :
  loop fuel st = Some r -> file_bit_index st < length wrapped ->
  head (trace fuel st) = Some st.
Proof.
  destruct fuel as [|fuel]; simpl; case_bool_decide; done.
Qed.

(** The pass that ends the loop. *)
Lemma loop_last (fuel : nat) (st st_end : enc_state) :
  loop fuel st = Some (inr st_end) ->
  file_bit_index st < length wrapped ->
  reach st ->
  exists st_last,
    reach st_last ∧ file_bit_index st_last < length wrapped
    ∧ pass st_last = inr st_end
    ∧ ¬ file_bit_index st_end < length wrapped.
Proof.
  revert st. induction fuel as [|fuel IH]; intros st; simpl.
  - case_bool_decide; [done|]. lia.
  - case_bool_decide as Hidx; [|lia].
    destruct (pass st) as [e|st1] eqn:E; [done|]. intros Hloop _ Hreach.
    destruct (decide (file_bit_index st1 < length wrapped)) as [Hlt|Hge].
    + apply (IH st1 Hloop Hlt). by eapply reach_step.
    + exists st. split_and!; [done|done| |].
      * destruct fuel; simpl in Hloop; rewrite bool_decide_false in Hloop by done;
          congruence.
      * destruct fuel; simpl in Hloop; rewrite bool_decide_false in Hloop by done;
          congruence.
Qed.

(** It is a pass at a position with a choice, it reads the last bits of the
    stream, and it leaves its game on the board: the game is recorded at once
    when the move ends it. *)
Lemma last_pass (st st_end : enc_state) :
  file_bit_index st < length wrapped ->
  pass st = inr st_end ->
  ¬ file_bit_index st_end < length wrapped ->
  2 ≤ length (legal_moves (chess_board st))
  ∧ file_bit_index st + nbits st = length wrapped
  ∧ exists chosen_move,
      (shuffle (move_random st) (legal_moves (chess_board st))).2
        !! bits_val (chunk st) = Some chosen_move
      ∧ st_end =
          mkEnc (length wrapped) (push (chess_board st) chosen_move) (base_seed st)
            (shuffle (move_random st) (legal_moves (chess_board st))).1
            (game_number st)
            (if should_end_game (push (chess_board st) chosen_move)
             then output_pgns st ++ [record st (push (chess_board st) chosen_move)]
             else output_pgns st)
            (draws st).
Proof.
  intros Hidx Hpass Hend.
  destruct (pass_inv st st_end Hidx Hpass) as [[Hf ->]|(Hc & mv & Hmv & ->)].
  - rewrite forced_next_index in Hend. lia.
  - destruct (bits_to_encode_bounds st Hidx Hc) as (H1 & H2 & H3).
    rewrite choice_next_index in Hend.
    assert (file_bit_index st + nbits st = length wrapped) as Hlen by lia.
    split_and!; [done|done|]. exists mv. split; [done|].
    unfold choice_next. rewrite Hlen.
    destruct (should_end_game _); [|done].
    rewrite bool_decide_false by lia. done.
Qed.

Lemma finish_nonempty (st : enc_state) :
  chess_board st ≠ [] ->
  finish expiry_time custom_headers st
  = output_pgns st ++ [record st (chess_board st)].
Proof. unfold finish, move_stack. by destruct (chess_board st). Qed.

(** ** Termination *)

(** Two contracts of the collaborators: the shuffle permutes its list, and
    the legal moves of a position have distinct UCI names. *)
Hypothesis shuffle_perm :
  forall rng moves, (shuffle rng moves).2 ≡ₚ moves.
Hypothesis uci_nodup :
  forall board, NoDup (uci <$> legal_moves board).

Lemma pass_ok (st : enc_state) :
  file_bit_index st < length wrapped -> exists st', pass st = inr st'.
Proof using shuffle_perm.
  clear uci_nodup.
  intros Hidx.
  destruct (decide (length (legal_moves (chess_board st)) ≤ 1)) as [Hf|Hc].
  - rewrite encode_iter_forced by done. eauto.
  - rewrite encode_iter_choice by lia.
    destruct (chunk_val_in_range st Hidx ltac:(lia)) as (_ & _ & Hlt).
    pose proof (Permutation_length
                  (shuffle_perm (move_random st) (legal_moves (chess_board st))))
      as Hlen.
    destruct (lookup_lt_is_Some_2
                (shuffle (move_random st) (legal_moves (chess_board st))).2
                (bits_val (chunk st)) ltac:(lia)) as [mv ->].
    eauto.
Qed.

Section Termination.

(** Two more: the initial position offers a choice, and a game that is
    [max_plies] long is over. *)
Variable max_plies : nat.
Hypothesis initial_choice : 2 ≤ length (legal_moves initial_board).
Hypothesis long_games_over :
  forall board, max_plies ≤ length board -> is_game_over board = true.

Lemma plies_left_le (board : Board) : plies_left max_plies board ≤ max_plies + 2.
Proof. destruct board; simpl; lia. Qed.

Lemma pass_decreases (st st' : enc_state) :
  file_bit_index st < length wrapped ->
  pass st = inr st' ->
  work_left max_plies wrapped st' < work_left max_plies wrapped st.
Proof using initial_choice long_games_over.
  clear uci_nodup shuffle_perm.
  intros Hidx Hpass. unfold work_left.
  destruct (pass_inv st st' Hidx Hpass) as [[Hf ->]|(Hc & mv & _ & ->)].
  - assert (0 < plies_left max_plies (chess_board st)) as Hpos.
    { destruct (chess_board st) eqn:E; [|simpl; lia].
      unfold initial_board in initial_choice. lia. }
    rewrite forced_next_index. apply Nat.add_lt_mono_l. unfold forced_next.
    destruct (legal_moves (chess_board st)) as [|m [|m' l]] eqn:Hm;
      [| |simpl in Hf; lia]; simpl; [done|].
    destruct (is_game_over (push (chess_board st) m)) eqn:Hover; simpl; [done|].
    assert (length (push (chess_board st) m) < max_plies) as Hlen.
    { destruct (decide (length (push (chess_board st) m) < max_plies)); [done|].
      rewrite long_games_over in Hover; [done|lia]. }
    unfold push in *. rewrite length_app in Hlen. simpl in Hlen.
    destruct (chess_board st) as [|x b]; [simpl in Hpos; lia|].
    simpl in *. rewrite length_app. simpl. lia.
  - destruct (bits_to_encode_bounds st Hidx Hc) as (H1 & H2 & H3).
    rewrite choice_next_index.
    pose proof (plies_left_le (chess_board (after_choice st
      (shuffle (move_random st) (legal_moves (chess_board st))).1 mv))).
    nia.
Qed.

Lemma loop_terminates_from (fuel : nat) (st : enc_state) :
  work_left max_plies wrapped st ≤ fuel -> exists st', loop fuel st = Some (inr st').
Proof using shuffle_perm initial_choice long_games_over.
  revert st. induction fuel as [|fuel IH]; intros st Hwork; simpl.
  - case_bool_decide as Hidx; [|eauto].
    unfold work_left in Hwork. nia.
  - case_bool_decide as Hidx; [|eauto].
    destruct (pass_ok st Hidx) as [st1 Hst1]. rewrite Hst1.
    apply IH. pose proof (pass_decreases st st1 Hidx Hst1). lia.
Qed.

(** C7: with enough fuel the loop of [encode] ends, and it ends with the
    cursor at the length of the wrapped bitstream; the bits read by its
    passes, in order, are the wrapped bitstream, each read once; every pass
    reads the bits under the cursor and moves the cursor past them, the next
    pass starting where it stopped; and the game on the board when the loop
    ends, which has a move, is recorded as the last game. *)
Theorem every_bit_consumed_once (fuel : nat) :
  0 < length wrapped ->
  (max_plies + 3) * length wrapped ≤ fuel ->
  exists st_end,
    loop fuel enc_init = Some (inr st_end)
    ∧ file_bit_index st_end = length wrapped
    ∧ mjoin (taken <$> trace fuel enc_init) = wrapped
    ∧ head (trace fuel enc_init) = Some enc_init
    ∧ (forall i st, trace fuel enc_init !! i = Some st ->
         file_bit_index st < length wrapped
         ∧ exists st',
             pass st = inr st'
             ∧ file_bit_index st' = file_bit_index st + length (taken st)
             ∧ taken st = slice (file_bit_index st) (file_bit_index st') wrapped
             ∧ (trace fuel enc_init !! S i = Some st'
                ∨ (trace fuel enc_init !! S i = None ∧ st' = st_end)))
    ∧ chess_board st_end ≠ []
    ∧ finish expiry_time custom_headers st_end
      = output_pgns st_end ++ [record st_end (chess_board st_end)].
Proof using shuffle_perm initial_choice long_games_over.
  clear uci_nodup.
  intros Hlen Hfuel.
  destruct (loop_terminates_from fuel enc_init) as [st_end Hloop].
  { unfold work_left. simpl. lia. }
  exists st_end.
  destruct (loop_reach fuel enc_init st_end (reach_init _ _ _) Hloop)
    as [Hreach Hend].
  pose proof (reach_index_le st_end Hreach) as Hle.
  destruct (loop_last fuel enc_init st_end Hloop Hlen (reach_init _ _ _))
    as (st_last & Hrl & Hil & Hpl & _).
  destruct (last_pass st_last st_end Hil Hpl Hend) as (_ & _ & mv & _ & Heq).
  assert (chess_board st_end ≠ []) as Hne.
  { rewrite Heq. simpl. unfold push. by destruct (chess_board st_last). }
  split_and!.
  - done.
  - lia.
  - rewrite (trace_consumed fuel enc_init st_end); [done|simpl; lia|done].
  - by eapply trace_head.
  - intros i st Hst.
    destruct (trace_linked fuel enc_init st_end Hloop i st Hst)
      as (Hidx & st' & Hpass & Hnext).
    split; [done|]. exists st'.
    destruct (pass_cursor st st' Hidx Hpass) as (Hi & Ht & _). done.
  - done.
  - by apply finish_nonempty.
Qed.

End Termination.

(** ** Replaying a game *)

Lemma index_of_nodup (names : list string) (i : nat) (name : string) :
  NoDup names -> names !! i = Some name -> index_of name names = Some i.
Proof.
  intros Hnd Hi. unfold index_of.
  assert (list_find (fun n => n = name) names = Some (i, name)) as ->; [|done].
  apply list_find_Some. split_and!; [done|done|].
  intros j y Hj Hlt ->. pose proof (NoDup_lookup _ _ _ _ Hnd Hi Hj). lia.
Qed.

(** [decode] finds the move [encode] chose at the index [encode] chose it
    at, and prints the index on [floor(log2 n)] digits. *)
Lemma decode_step_choice (game_index : nat) (board : Board) (rng : Rng)
    (all_bits : bits) (i : nat) (move : Move) :
  2 ≤ length (legal_moves board) ->
  (shuffle rng (legal_moves board)).2 !! i = Some move ->
  decode_step game_index (board, rng, all_bits) move
  = inr (push board move, (shuffle rng (legal_moves board)).1,
         all_bits ++ format_b (Nat.log2 (length (legal_moves board))) i).
Proof using shuffle_perm uci_nodup.
  intros Hn Hi. unfold decode_step.
  rewrite bool_decide_false by lia.
  pose proof (shuffle_perm rng (legal_moves board)) as Hperm.
  destruct (shuffle rng (legal_moves board)) as [rng' shuffled]. simpl in *.
  rewrite (index_of_nodup _ i).
  - rewrite (Permutation_length Hperm).
    rewrite bool_decide_true; [done|].
    apply Nat.log2_pos. lia.
  - rewrite Hperm. apply uci_nodup.
  - by rewrite list_lookup_fmap, Hi.
Qed.

Lemma decode_step_forced (game_index : nat) (board : Board) (rng : Rng)
    (all_bits : bits) (move : Move) :
  length (legal_moves board) ≤ 1 ->
  decode_step game_index (board, rng, all_bits) move
  = inr (push board move, rng, all_bits).
Proof. intros H. unfold decode_step. by rewrite bool_decide_true. Qed.

Lemma decode_moves_app (game_index : nat) (st : Board * Rng * bits)
    (moves1 moves2 : list Move) :
  decode_moves game_index st (moves1 ++ moves2)
  = match decode_moves game_index st moves1 with
    | inl e => inl e
    | inr st' => decode_moves game_index st' moves2
    end.
Proof.
  revert st. induction moves1 as [|m ms IH]; intros st; simpl; [done|].
  destruct (decode_step game_index st m); [done|]. apply IH.
Qed.

(** [decode] advances its generator as the contract says, whatever the
    game. *)
Lemma decode_moves_rng (game_index : nat) (moves : list Move) :
  forall board rng all_bits board' rng' all_bits',
    decode_moves game_index (board, rng, all_bits) moves
    = inr (board', rng', all_bits') ->
    board' = board ++ moves ∧ rng' = rng_along rng board moves.
Proof.
  induction moves as [|m ms IH]; intros board rng all_bits board' rng' all_bits';
    cbn [decode_moves].
  - intros [= <- <- <-]. by rewrite app_nil_r.
  - destruct (decode_step game_index (board, rng, all_bits) m)
      as [e|[[b1 r1] bits1]] eqn:E; [done|].
    intros Hrest. apply IH in Hrest as [-> ->].
    cbn [rng_along]. unfold decode_step in E. case_bool_decide as Hf.
    + injection E as <- <- <-. unfold push. by rewrite <- app_assoc.
    + destruct (shuffle rng (legal_moves board)) as [r sh]. simpl.
      destruct (index_of _ _); [|done].
      injection E as <- <- <-. unfold push. by rewrite <- app_assoc.
Qed.

Lemma replays_nil (seed : Z) : replays seed initial_board (Random seed) [].
Proof. intros k b0. simpl. by rewrite app_nil_r. Qed.

Lemma replays_forced (seed : Z) (board : Board) (rng : Rng) (cur : bits) (move : Move) :
  replays seed board rng cur ->
  length (legal_moves board) ≤ 1 ->
  replays seed (push board move) rng cur.
Proof.
  intros Hr Hf k b0. unfold push. rewrite decode_moves_app, Hr.
  cbn [decode_moves]. by rewrite decode_step_forced.
Qed.

Lemma replays_choice (seed : Z) (board : Board) (rng : Rng) (cur : bits)
    (i : nat) (move : Move) :
  replays seed board rng cur ->
  2 ≤ length (legal_moves board) ->
  (shuffle rng (legal_moves board)).2 !! i = Some move ->
  replays seed (push board move) (shuffle rng (legal_moves board)).1
    (cur ++ format_b (Nat.log2 (length (legal_moves board))) i).
Proof using shuffle_perm uci_nodup.
  intros Hr Hn Hi k b0. unfold push. rewrite decode_moves_app, Hr.
  cbn [decode_moves]. rewrite (decode_step_choice _ _ _ _ i) by done.
  by rewrite app_assoc.
Qed.

(** The bits [decode] prints for the move of a pass of [encode]: the bits
    the pass read, after as many zeros as the pass fell short of
    [floor(log2 n)]. *)
Lemma format_chunk (st : enc_state) :
  file_bit_index st < length wrapped ->
  2 ≤ length (legal_moves (chess_board st)) ->
  format_b (Nat.log2 (length (legal_moves (chess_board st)))) (bits_val (chunk st))
  = repeat false (Nat.log2 (length (legal_moves (chess_board st))) - nbits st)
    ++ chunk st.
Proof.
  intros Hidx Hn.
  destruct (bits_to_encode_bounds st Hidx Hn) as (H1 & H2 & H3).
  destruct (chunk_val_in_range st Hidx Hn) as (Hne & _ & _).
  pose proof (length_chunk_at st H3) as Hlen.
  rewrite format_b_bits_val; rewrite ?Hlen; done.
Qed.

(** The game on the board of a state that [encode] reaches replays to the
    generator of that state. *)
Lemma reach_replays (st : enc_state) :
  reach st ->
  exists cur, replays (base_seed st) (chess_board st) (move_random st) cur.
Proof using shuffle_perm uci_nodup.
  induction 1 as [|st st' _ [cur IH] Hidx Hpass].
  - exists []. apply replays_nil.
  - destruct (pass_inv st st' Hidx Hpass) as [[Hf ->]|(Hc & mv & Hmv & ->)].
    + unfold forced_next.
      destruct (_ || _); simpl; [exists []; apply replays_nil|].
      exists cur. destruct (legal_moves (chess_board st)) as [|m l] eqn:Hm; [done|].
      apply replays_forced; [done|]. by rewrite Hm.
    + unfold choice_next.
      destruct (should_end_game _); [case_bool_decide|]; simpl;
        [exists []; apply replays_nil|..]; eexists; by apply replays_choice.
Qed.

(** C6: the generator of [encode] in a state it reaches is the generator
    seeded once from the seed of the current game and advanced by one shuffle
    at each position of that game with two legal moves or more, and at no
    other; the generator of [decode] after the moves of a game is the same
    function of the seed of the game and of its moves; and replaying the
    current game of [encode] from its seed succeeds and ends on the board and
    in the generator state of [encode]. *)
Theorem generators_synchronized (st : enc_state) :
  reach st ->
  move_random st = rng_at (base_seed st) (chess_board st)
  ∧ (forall game_index seed moves all_bits board rng all_bits',
       decode_moves game_index (initial_board, Random seed, all_bits) moves
       = inr (board, rng, all_bits') ->
       board = moves ∧ rng = rng_at seed moves)
  ∧ (forall game_index all_bits, exists all_bits',
       decode_moves game_index
         (initial_board, Random (base_seed st), all_bits) (chess_board st)
       = inr (chess_board st, move_random st, all_bits')).
Proof using shuffle_perm uci_nodup.
  intros Hreach. destruct (reach_replays st Hreach) as [cur Hcur].
  split_and!.
  - pose proof (Hcur 0 []) as H. by apply decode_moves_rng in H as [_ ->].
  - intros k seed moves b0 board rng b1 H. by apply decode_moves_rng in H.
  - intros k b0. eexists. apply Hcur.
Qed.

(** ** Extracting the bits of a game set *)

Lemma extract_from_app (game_index : nat) (all_bits : bits)
    (games1 games2 : list (GameRecord Move)) :
  extract_from game_index all_bits (games1 ++ games2)
  = match extract_from game_index all_bits games1 with
    | inl e => inl e
    | inr all_bits' => extract_from (game_index + length games1) all_bits' games2
    end.
Proof.
  revert game_index all_bits.
  induction games1 as [|g gs IH]; intros k b0; simpl.
  - by rewrite Nat.add_0_r.
  - destruct (decode_game k b0 g); [done|]. rewrite IH.
    by replace (S k + length gs) with (k + S (length gs)) by lia.
Qed.

Lemma extracts_nil : extracts [] [].
Proof. intros k b0. simpl. by rewrite app_nil_r. Qed.

Lemma extracts_snoc (games : list (GameRecord Move)) (out : bits)
    (game : GameRecord Move) (cur : bits) :
  extracts games out ->
  (forall game_index all_bits,
     decode_game game_index all_bits game = inr (all_bits ++ cur)) ->
  extracts (games ++ [game]) (out ++ cur).
Proof.
  intros Hgs Hg k b0. rewrite extract_from_app, Hgs. simpl.
  rewrite Hg. by rewrite app_assoc.
Qed.

Lemma trace_reach (fuel : nat) (st0 : enc_state) :
  reach st0 -> forall st, st ∈ trace fuel st0 -> reach st.
Proof.
  revert st0. induction fuel as [|fuel IH]; intros st0 Hreach st; simpl.
  - case_bool_decide; by intros ?%elem_of_nil.
  - case_bool_decide as Hidx; [|by intros ?%elem_of_nil].
    intros [->|Hin]%elem_of_cons; [done|].
    destruct (pass st0) as [e|st1] eqn:E; [by apply elem_of_nil in Hin|].
    apply (IH st1); [by eapply reach_step|done].
Qed.

(** The last state of the trace is the state of the pass that ends the
    loop. *)
Lemma trace_last (fuel : nat) (st_end st_last : enc_state) :
  loop fuel enc_init = Some (inr st_end) ->
  last (trace fuel enc_init) = Some st_last ->
  reach st_last
  ∧ file_bit_index st_last < length wrapped
  ∧ pass st_last = inr st_end
  ∧ ¬ file_bit_index st_end < length wrapped.
Proof.
  intros Hloop Hlast.
  destruct (loop_reach fuel enc_init st_end (reach_init _ _ _) Hloop) as [_ Hend].
  rewrite last_lookup in Hlast.
  destruct (trace_linked fuel enc_init st_end Hloop _ _ Hlast)
    as (Hidx & st' & Hpass & Hnext).
  assert (st' = st_end) as ->.
  { destruct Hnext as [Hnext|[_ ?]]; [|done].
    apply lookup_lt_Some in Hnext. apply lookup_lt_Some in Hlast. lia. }
  split_and!; [|done..].
  apply (trace_reach fuel enc_init (reach_init _ _ _)).
  by eapply list_elem_of_lookup_2.
Qed.

Lemma tag_roster_lookup_seed : tag_roster !! "Seed"%string = None.
Proof. reflexivity. Qed.

(** The record of a game carries its seed, unless the caller's headers name
    a seed of their own. *)
Lemma create_game_record_seed (board : Board) (seed : Z) (expiry : option Z)
    (game_headers : option (gmap string string)) :
  (forall h, game_headers = Some h -> h !! "Seed"%string = None) ->
  headers (create_game_record board seed expiry game_headers) !! "Seed"%string
  = Some (py_str seed).
Proof.
  intros Hno. unfold create_game_record. simpl.
  assert ((match game_headers with
           | Some custom =>
               filter (fun kv : string * string => kv.2 ≠ ""%string) custom
                 ∪ tag_roster
           | None => tag_roster
           end) !! "Seed"%string = None) as Hd.
  { destruct game_headers as [h|]; [|done].
    apply lookup_union_None. split; [|done].
    apply map_lookup_filter_None. left. by apply Hno. }
  destruct expiry as [t|].
  - rewrite lookup_insert_ne by done.
    rewrite lookup_union_r by done. by rewrite lookup_insert_eq.
  - rewrite lookup_union_r by done. by rewrite lookup_insert_eq.
Qed.

(** The record of a game with an expiry carries it, whatever the headers. *)
Lemma create_game_record_expiry (board : Board) (seed t : Z)
    (game_headers : option (gmap string string)) :
  headers (create_game_record board seed (Some t) game_headers)
    !! "ExpiryTime"%string
  = Some (py_str t).
Proof. unfold create_game_record. simpl. by rewrite lookup_insert_eq. Qed.

Section RoundTrip.

(** [int()] reads what [str()] prints, and the caller's headers name no seed. *)
Hypothesis py_int_str : forall z, py_int (py_str z) = Some z.
Hypothesis custom_no_seed :
  forall custom, custom_headers = Some custom -> custom !! "Seed"%string = None.

Lemma game_headers_for_seed (n : nat) (h : gmap string string) :
  game_headers_for custom_headers n = Some h -> h !! "Seed"%string = None.
Proof using custom_no_seed.
  unfold game_headers_for. intros H. pose proof custom_no_seed as Hno.
  destruct custom_headers as [custom|].
  - specialize (Hno custom eq_refl).
    repeat case_bool_decide; simpl in H; simplify_eq; try done;
      rewrite ?lookup_insert_ne by done; done.
  - case_bool_decide; by simplify_eq.
Qed.

Lemma decode_game_record (st : enc_state) (board : Board) (rng : Rng) (cur : bits) :
  replays (base_seed st) board rng cur ->
  forall game_index all_bits,
    decode_game game_index all_bits (record st board) = inr (all_bits ++ cur).
Proof using py_int_str custom_no_seed.
  intros Hr k b0. unfold decode_game, record_of.
  rewrite create_game_record_seed by apply game_headers_for_seed.
  simpl. rewrite py_int_str. unfold move_stack. by rewrite Hr.
Qed.

Lemma live_inv_step (st st' : enc_state) :
  live_inv wrapped st ->
  file_bit_index st < length wrapped ->
  pass st = inr st' ->
  file_bit_index st' < length wrapped ->
  live_inv wrapped st'.
Proof using shuffle_perm uci_nodup py_int_str custom_no_seed.
  intros (cur & out & Hcur & Hout & Heq) Hidx Hpass Hidx'.
  destruct (pass_inv st st' Hidx Hpass) as [[Hf ->]|(Hc & mv & Hmv & ->)].
  - unfold forced_next in *.
    destruct (legal_moves (chess_board st)) as [|m l] eqn:Hm.
    + simpl. exists [], (out ++ cur). split_and!.
      * apply replays_nil.
      * apply extracts_snoc; [done|]. by eapply decode_game_record.
      * by rewrite app_nil_r.
    + assert (replays (base_seed st) (push (chess_board st) m) (move_random st) cur)
        as Hcur' by (apply replays_forced; [done|by rewrite Hm]).
      destruct (_ || _); simpl.
      * exists [], (out ++ cur). split_and!.
        -- apply replays_nil.
        -- apply extracts_snoc; [done|]. by eapply decode_game_record.
        -- by rewrite app_nil_r.
      * exists cur, out. done.
  - destruct (bits_to_encode_bounds st Hidx Hc) as (H1 & H2 & H3).
    rewrite choice_next_index in Hidx'.
    assert (nbits st = Nat.log2 (length (legal_moves (chess_board st)))) as Hfull.
    { unfold bits_to_encode in *. lia. }
    pose proof (replays_choice _ _ _ _ _ _ Hcur Hc Hmv) as Hcur'.
    rewrite format_chunk, <- Hfull, Nat.sub_diag in Hcur' by done.
    simpl in Hcur'.
    assert ((out ++ cur) ++ chunk st
            = take (file_bit_index st + nbits st) wrapped) as Heq'.
    { rewrite Heq, chunk_at_drop.
      rewrite <- (take_drop (file_bit_index st)
                    (take (file_bit_index st + nbits st) wrapped)).
      rewrite take_take, Nat.min_l by lia.
      by rewrite take_drop_commute. }
    unfold choice_next.
    destruct (should_end_game _); [rewrite bool_decide_true by lia|]; simpl.
    + exists [], (out ++ cur ++ chunk st). split_and!.
      * apply replays_nil.
      * apply extracts_snoc; [done|]. by eapply decode_game_record.
      * by rewrite app_nil_r, app_assoc.
    + exists (cur ++ chunk st), out. split_and!; [done|done|].
      by rewrite app_assoc.
Qed.

Lemma reach_live (st : enc_state) :
  reach st -> file_bit_index st < length wrapped -> live_inv wrapped st.
Proof using shuffle_perm uci_nodup py_int_str custom_no_seed.
  induction 1 as [|st st' _ IH Hidx Hpass]; intros Hlive.
  - exists [], []. split_and!; [apply replays_nil|apply extracts_nil|done].
  - by apply (live_inv_step st st'); [apply IH|..].
Qed.

(** The bits [decode] extracts from the games of [encode]: the wrapped
    bitstream, with the zeros that pad the last move to its full width in
    front of the bits that move stands for; and then, when the last move ends
    its game, the bits of that game once more, the game being recorded both
    by the pass and after the loop. *)
Lemma extracted_stream (fuel : nat) (st_end st_last : enc_state) :
  loop fuel enc_init = Some (inr st_end) ->
  last (trace fuel enc_init) = Some st_last ->
  2 ≤ length (legal_moves (chess_board st_last))
  ∧ file_bit_index st_last + nbits st_last = length wrapped
  ∧ exists last_game,
      extract_bits_of (finish expiry_time custom_headers st_end)
      = inr (take (file_bit_index st_last) wrapped
             ++ repeat false
                  (Nat.log2 (length (legal_moves (chess_board st_last)))
                   - nbits st_last)
             ++ drop (file_bit_index st_last) wrapped
             ++ (if should_end_game (chess_board st_end) then last_game else [])).
Proof using shuffle_perm uci_nodup py_int_str custom_no_seed.
  intros Hloop Hlast. rename st_last into st.
  destruct (trace_last fuel st_end st Hloop Hlast) as (Hreach & Hidx & Hpass & Hend).
  destruct (last_pass st st_end Hidx Hpass Hend) as (Hn & Hall & mv & Hmv & Heq).
  destruct (reach_live st Hreach Hidx) as (cur & out & Hcur & Hout & Hstream).
  pose proof (replays_choice _ _ _ _ _ _ Hcur Hn Hmv) as Hcur'.
  rewrite format_chunk in Hcur' by done.
  assert (chunk st = drop (file_bit_index st) wrapped) as Hchunk.
  { rewrite chunk_at_drop. apply take_ge. rewrite length_drop. lia. }
  rewrite Hchunk in Hcur'.
  set (pad := repeat false
                (Nat.log2 (length (legal_moves (chess_board st))) - nbits st)) in *.
  set (tail := drop (file_bit_index st) wrapped) in *.
  split_and!; [done..|]. exists (cur ++ pad ++ tail).
  assert (chess_board st_end = push (chess_board st) mv) as Hboard by (by rewrite Heq).
  assert (record st_end (chess_board st_end)
          = record st (push (chess_board st) mv)) as Hrec by (by rewrite Heq).
  rewrite finish_nonempty, Hrec, Hboard
    by (rewrite Hboard; unfold push; by destruct (chess_board st)).
  pose proof (decode_game_record st _ _ _ Hcur') as Hgame.
  unfold extract_bits_of. rewrite Heq. simpl.
  destruct (should_end_game (push (chess_board st) mv)).
  - rewrite (extracts_snoc _ _ _ _ (extracts_snoc _ _ _ _ Hout Hgame) Hgame).
    simpl. f_equal. rewrite <- Hstream. by rewrite <- !app_assoc.
  - rewrite (extracts_snoc _ _ _ _ Hout Hgame).
    simpl. f_equal. rewrite <- Hstream. by rewrite <- !app_assoc, app_nil_r.
Qed.

End RoundTrip.

(** C10: at a position with [n >= 2] legal moves [decode] prints, for the
    move a pass of [encode] played there, the bits the pass read after
    [floor(log2 n) - bits read] zeros: [floor(log2 n)] bits in all, whatever
    number the pass read. A pass reads fewer only when it reads the last bits
    of the stream; the bits [decode] extracts from the game set are then the
    wrapped bitstream with those zeros put in front of its last bits: they
    are more than the wrapped bitstream has, and differ from it from there
    on. *)
Theorem decode_emits_full_width :
  (forall st : enc_state,
     file_bit_index st < length wrapped ->
     2 ≤ length (legal_moves (chess_board st)) ->
     exists chosen_move rng,
       pass st = inr (after_choice st rng chosen_move)
       ∧ (forall game_index all_bits,
            decode_step game_index (chess_board st, move_random st, all_bits)
              chosen_move
            = inr (push (chess_board st) chosen_move, rng,
                   all_bits
                   ++ repeat false
                        (Nat.log2 (length (legal_moves (chess_board st)))
                         - nbits st)
                   ++ chunk st))
       ∧ length (repeat false
                   (Nat.log2 (length (legal_moves (chess_board st))) - nbits st)
                 ++ chunk st)
         = Nat.log2 (length (legal_moves (chess_board st)))
       ∧ length (taken st) = nbits st
       ∧ (nbits st < Nat.log2 (length (legal_moves (chess_board st))) ->
          file_bit_index st + nbits st = length wrapped))
  ∧ (forall fuel st_end st_last,
       (forall z, py_int (py_str z) = Some z) ->
       (forall custom, custom_headers = Some custom ->
                       custom !! "Seed"%string = None) ->
       loop fuel enc_init = Some (inr st_end) ->
       last (trace fuel enc_init) = Some st_last ->
       nbits st_last < Nat.log2 (length (legal_moves (chess_board st_last))) ->
       exists extracted rest,
         extract_bits_of (finish expiry_time custom_headers st_end)
         = inr extracted
         ∧ extracted
           = take (file_bit_index st_last) wrapped
             ++ repeat false
                  (Nat.log2 (length (legal_moves (chess_board st_last)))
                   - nbits st_last)
             ++ drop (file_bit_index st_last) wrapped ++ rest
         ∧ length wrapped < length extracted
         ∧ take (file_bit_index st_last) extracted
           = take (file_bit_index st_last) wrapped
         ∧ drop (file_bit_index st_last) extracted
           ≠ drop (file_bit_index st_last) wrapped).
Proof using shuffle_perm uci_nodup.
  split.
  - intros st Hidx Hn.
    destruct (bits_to_encode_bounds st Hidx Hn) as (H1 & H2 & H3).
    destruct (pass_ok st Hidx) as [st' Hpass].
    destruct (pass_inv st st' Hidx Hpass) as [[Hf _]|(_ & mv & Hmv & ->)]; [lia|].
    exists mv, (shuffle (move_random st) (legal_moves (chess_board st))).1.
    split_and!.
    + done.
    + intros k b0. rewrite (decode_step_choice _ _ _ _ _ _ Hn Hmv).
      by rewrite format_chunk.
    + rewrite length_app, repeat_length, length_chunk_at by done. lia.
    + rewrite consumed_choice, length_chunk_at by done. done.
    + intros Hshort. unfold bits_to_encode in *. lia.
  - intros fuel st_end st_last Hint Hcustom Hloop Hlast Hshort.
    destruct (extracted_stream Hint Hcustom fuel st_end st_last Hloop Hlast)
      as (Hn & Hall & last_game & Hext).
    set (pad := repeat false
                  (Nat.log2 (length (legal_moves (chess_board st_last)))
                   - nbits st_last)) in *.
    set (rest := if should_end_game (chess_board st_end) then last_game else [])
      in *.
    assert (0 < length pad) as Hpad by (unfold pad; rewrite repeat_length; lia).
    assert (length (take (file_bit_index st_last) wrapped)
            = file_bit_index st_last) as Htake
      by (rewrite length_take; lia).
    exists (take (file_bit_index st_last) wrapped
            ++ pad ++ drop (file_bit_index st_last) wrapped ++ rest), rest.
    split_and!; [done|done|..].
    + rewrite !length_app, Htake, length_drop. lia.
    + by rewrite take_app_length'.
    + rewrite drop_app_length' by done. intros Heq.
      apply (f_equal length) in Heq. rewrite !length_app in Heq. lia.
Qed.


(** ** The records of the game set *)

(** Every game of the set is made by [create_game_record] with the one
    expiry of the run. *)
Lemma reach_output_records (st : enc_state) :
  reach st ->
  forall game, game ∈ output_pgns st ->
    exists board seed game_headers,
      game = create_game_record board seed expiry_time game_headers.
Proof.
  induction 1 as [|st st' _ IH Hidx Hpass]; intros game Hin.
  - by apply elem_of_nil in Hin.
  - assert (forall board, game ∈ output_pgns st ++ [record st board] ->
              exists board seed game_headers,
                game = create_game_record board seed expiry_time game_headers)
      as Hsnoc.
    { intros board [Hold|Hnew%list_elem_of_singleton]%elem_of_app; [by apply IH|].
      unfold record_of in Hnew. eauto. }
    destruct (pass_inv st st' Hidx Hpass) as [[Hf ->]|(Hc & mv & Hmv & ->)].
    + unfold forced_next in Hin. destruct (_ || _); simpl in Hin; eauto.
    + unfold choice_next in Hin.
      destruct (should_end_game _); [case_bool_decide|]; simpl in Hin; eauto.
Qed.

Lemma finish_records (st : enc_state) :
  reach st ->
  forall game, game ∈ finish expiry_time custom_headers st ->
    exists board seed game_headers,
      game = create_game_record board seed expiry_time game_headers.
Proof.
  intros Hreach game. unfold finish.
  destruct (move_stack (chess_board st)); [by apply (reach_output_records st)|].
  intros [Hold|Hnew%list_elem_of_singleton]%elem_of_app.
  - by apply (reach_output_records st).
  - unfold record_of in Hnew. eauto.
Qed.
(** ** The games of the set, numbered *)

(** No pass fails, so the loop does not. *)
Lemma loop_no_error (fuel : nat) (st : enc_state) (e : string) :
  loop fuel st ≠ Some (inl e).
Proof using shuffle_perm.
  clear uci_nodup.
  revert st. induction fuel as [|fuel IH]; intros st; simpl;
    case_bool_decide as Hidx; try done.
  destruct (pass_ok st Hidx) as [st' ->]. apply IH.
Qed.

(** A run whose initial position has no legal move starts game after game
    and never ends. *)
Lemma loop_stuck (fuel : nat) (st st' : enc_state) :
  legal_moves initial_board = [] ->
  chess_board st = initial_board ->
  file_bit_index st < length wrapped ->
  loop fuel st ≠ Some (inr st').
Proof.
  clear shuffle_perm uci_nodup.
  intros Hnone. revert st. induction fuel as [|fuel IH]; intros st Hboard Hidx; simpl;
    rewrite bool_decide_true by done; [done|].
  rewrite encode_iter_forced by (rewrite Hboard, Hnone; simpl; lia).
  apply IH.
  - unfold forced_next. rewrite Hboard, Hnone. done.
  - by rewrite forced_next_index.
Qed.

Lemma imap_snoc {A B} (f : nat -> A -> B) (l : list A) (x : A) :
  imap f (l ++ [x]) = imap f l ++ [f (length l) x].
Proof. rewrite imap_app. simpl. by rewrite Nat.add_0_r. Qed.

(** While bits remain, the games recorded are the games number 0, 1, ... of
    the run, the game on the board is the next one, and no recorded game is
    without a move. *)
Lemma live_numbered (st : enc_state) :
  legal_moves initial_board ≠ [] ->
  reach st -> file_bit_index st < length wrapped ->
  draws st = game_number st
  ∧ exists boards,
      output_pgns st = imap (game_of expiry_time custom_headers) boards
      ∧ Forall (fun board => board ≠ []) boards
      ∧ game_number st = S (length boards)
      ∧ base_seed st = randint (length boards).
Proof.
  clear shuffle_perm uci_nodup.
  intros Hsome. induction 1 as [|st st' _ IH Hidx Hpass]; intros Hlive.
  - split; [done|]. exists []. done.
  - destruct (IH Hidx) as (Hdraws & boards & Hout & Hne & Hnum & Hseed).
    assert (forall board, board ≠ [] ->
              draws (new_game st board (file_bit_index st')) =
                game_number (new_game st board (file_bit_index st'))
              ∧ exists boards',
                  output_pgns (new_game st board (file_bit_index st'))
                  = imap (game_of expiry_time custom_headers) boards'
                  ∧ Forall (fun board => board ≠ []) boards'
                  ∧ game_number (new_game st board (file_bit_index st'))
                    = S (length boards')
                  ∧ base_seed (new_game st board (file_bit_index st'))
                    = randint (length boards')) as Hnew.
    { intros board Hboard. simpl. split; [by rewrite Hdraws|].
      exists (boards ++ [board]). rewrite imap_snoc, length_app. simpl.
      split_and!.
      - rewrite Hout. unfold record_of, game_of. by rewrite Hseed, Hnum.
      - apply Forall_app. split; [done|]. by apply Forall_singleton.
      - lia.
      - rewrite Hdraws, Hnum. f_equal. lia. }
    assert (forall move, push (chess_board st) move ≠ []) as Hpush.
    { intros move. unfold push. by destruct (chess_board st). }
    destruct (pass_inv st st' Hidx Hpass) as [[Hf ->]|(Hc & mv & Hmv & ->)].
    + rewrite forced_next_index in Hnew. unfold forced_next.
      destruct (legal_moves (chess_board st)) as [|m l] eqn:Hm.
      * simpl. apply Hnew. intros Hb. unfold initial_board in Hsome.
        rewrite Hb in Hm. done.
      * destruct (_ || _); [by apply Hnew|]. simpl. eauto 10.
    + unfold choice_next in *.
      destruct (should_end_game _).
      * rewrite bool_decide_true in * by (case_bool_decide; [done|simpl in Hlive; lia]).
        by apply Hnew.
      * simpl. eauto 10.
Qed.

(** The game set of a run: its games in order, and the last of them once
    more when its last move ended it. *)
Lemma finish_games (fuel : nat) (st_end : enc_state) :
  0 < length wrapped ->
  loop fuel enc_init = Some (inr st_end) ->
  exists boards,
    Forall (fun board => board ≠ []) boards
    ∧ last boards = Some (chess_board st_end)
    ∧ finish expiry_time custom_headers st_end
      = imap (game_of expiry_time custom_headers) boards
        ++ (if should_end_game (chess_board st_end)
            then [game_of expiry_time custom_headers (length boards - 1)
                    (chess_board st_end)]
            else []).
Proof.
  clear shuffle_perm uci_nodup.
  intros Hlen Hloop.
  assert (legal_moves initial_board ≠ []) as Hsome.
  { intros Hnone. by apply (loop_stuck fuel enc_init st_end Hnone). }
  destruct (loop_last fuel enc_init st_end Hloop Hlen (reach_init _ _ _))
    as (st & Hreach & Hidx & Hpass & Hend).
  destruct (last_pass st st_end Hidx Hpass Hend) as (_ & _ & mv & _ & Heq).
  destruct (live_numbered st Hsome Hreach Hidx)
    as (Hdraws & boards & Hout & Hne & Hnum & Hseed).
  assert (chess_board st_end = push (chess_board st) mv) as Hboard by (by rewrite Heq).
  assert (chess_board st_end ≠ []) as Hnonempty.
  { rewrite Hboard. unfold push. by destruct (chess_board st). }
  assert (record st_end (chess_board st_end)
          = game_of expiry_time custom_headers (length boards) (chess_board st_end))
    as Hrec.
  { unfold record_of, game_of. rewrite Heq. simpl. by rewrite Hseed, Hnum. }
  exists (boards ++ [chess_board st_end]). split_and!.
  - apply Forall_app. split; [done|]. by apply Forall_singleton.
  - by rewrite last_snoc.
  - rewrite finish_nonempty, Hrec, imap_snoc, length_app by done. simpl.
    replace (length boards + 1 - 1) with (length boards) by lia.
    rewrite Heq at 1. simpl. rewrite <- Hboard.
    destruct (should_end_game (chess_board st_end)).
    + rewrite Hout. f_equal. f_equal. unfold record_of, game_of.
      by rewrite Hseed, Hnum.
    + by rewrite Hout, app_nil_r.
Qed.
(** ** The bits of the last game *)

Section LastGame.

Hypothesis py_int_str : forall z, py_int (py_str z) = Some z.
Hypothesis custom_no_seed :
  forall custom, custom_headers = Some custom -> custom !! "Seed"%string = None.

(** The bits [decode] extracts from the game set of a run, split at the last
    game: the bits of the games before it, the bits of the last game, and the
    bits of the last game once more when its last move ended it. *)
Lemma extracted_last_game (fuel : nat) (st_end st_last : enc_state) :
  loop fuel enc_init = Some (inr st_end) ->
  last (trace fuel enc_init) = Some st_last ->
  exists seen last_game,
    seen ++ last_game
    = take (file_bit_index st_last) wrapped
      ++ repeat false
           (Nat.log2 (length (legal_moves (chess_board st_last))) - nbits st_last)
      ++ drop (file_bit_index st_last) wrapped
    ∧ extract_bits_of [record st_end (chess_board st_end)] = inr last_game
    ∧ extract_bits_of (finish expiry_time custom_headers st_end)
      = inr (seen ++ last_game
             ++ (if should_end_game (chess_board st_end) then last_game else [])).
Proof using shuffle_perm uci_nodup py_int_str custom_no_seed.
  intros Hloop Hlast. rename st_last into st.
  destruct (trace_last fuel st_end st Hloop Hlast) as (Hreach & Hidx & Hpass & Hend).
  destruct (last_pass st st_end Hidx Hpass Hend) as (Hn & Hall & mv & Hmv & Heq).
  destruct (reach_live py_int_str custom_no_seed st Hreach Hidx)
    as (cur & out & Hcur & Hout & Hstream).
  pose proof (replays_choice _ _ _ _ _ _ Hcur Hn Hmv) as Hcur'.
  rewrite format_chunk in Hcur' by done.
  assert (chunk st = drop (file_bit_index st) wrapped) as Hchunk.
  { rewrite chunk_at_drop. apply take_ge. rewrite length_drop. lia. }
  rewrite Hchunk in Hcur'.
  set (pad := repeat false
                (Nat.log2 (length (legal_moves (chess_board st))) - nbits st)) in *.
  set (tail := drop (file_bit_index st) wrapped) in *.
  exists out, (cur ++ pad ++ tail).
  assert (chess_board st_end = push (chess_board st) mv) as Hboard by (by rewrite Heq).
  assert (record st_end (chess_board st_end)
          = record st (push (chess_board st) mv)) as Hrec by (by rewrite Heq).
  pose proof (decode_game_record py_int_str custom_no_seed st _ _ _ Hcur') as Hgame.
  split_and!.
  - by rewrite <- Hstream, <- !app_assoc.
  - rewrite Hrec. unfold extract_bits_of. simpl. by rewrite Hgame.
  - rewrite finish_nonempty, Hrec, Hboard
      by (rewrite Hboard; unfold push; by destruct (chess_board st)).
    unfold extract_bits_of. rewrite Heq. simpl.
    destruct (should_end_game (push (chess_board st) mv)).
    + rewrite (extracts_snoc _ _ _ _ (extracts_snoc _ _ _ _ Hout Hgame) Hgame).
      simpl. by rewrite <- !app_assoc.
    + rewrite (extracts_snoc _ _ _ _ Hout Hgame).
      simpl. by rewrite <- !app_assoc, app_nil_r.
Qed.

End LastGame.

End LoopFacts.

(** ** The index read from the stream *)

(** C4: at a position with two legal moves or more a pass of [encode] takes
    [min(floor(log2 n), bits remaining)] bits from under the cursor and reads
    them as an unsigned big-endian number, which is below [n]; no pass raises
    the index error, and [encode] never does, whatever the payload. *)
Theorem move_index_in_range :
  (forall (wrapped : bits) (st : enc_state),
     file_bit_index st < length wrapped ->
     2 ≤ length (legal_moves (chess_board st)) ->
     length (chunk_at wrapped st)
       = min (Nat.log2 (length (legal_moves (chess_board st))))
             (length wrapped - file_bit_index st)
     ∧ chunk_at wrapped st
       = take (length (chunk_at wrapped st)) (drop (file_bit_index st) wrapped)
     ∧ exists move_index,
         int2 (chunk_at wrapped st) = Some move_index
         ∧ move_index = bits_val (chunk_at wrapped st)
         ∧ move_index < length (legal_moves (chess_board st)))
  ∧ (forall wrapped expiry_time custom_headers (st : enc_state),
       file_bit_index st < length wrapped ->
       encode_iter wrapped expiry_time custom_headers st
       ≠ inl "Invalid move index calculated"%string)
  ∧ (forall fuel fs now file_path output_pgn_path self_destruct_timer
            custom_headers fs',
       encode fuel fs now file_path output_pgn_path self_destruct_timer
         custom_headers
       ≠ Some (fs', inl "Invalid move index calculated"%string)).
Proof.
  split_and!.
  - intros wrapped st Hidx Hn.
    destruct (chunk_is_index wrapped st Hidx Hn) as (Hlen & Htake & i & Hi & Hlt).
    split_and!; [done|done|]. exists i. split_and!; [done| |done].
    destruct (chunk_at wrapped st); [done|]. by injection Hi.
  - intros wrapped expiry_time custom_headers st. apply pass_no_index_error.
  - intros fuel fs now inp out timer custom fs'. unfold encode, read_input_file.
    destruct (fs !! inp) as [[|b l]|]; [done| |done].
    unfold encode_games.
    pose proof (loop_no_index_error (complete_binary (b :: l))
                  (expiry_of now timer) custom fuel enc_init) as Hloop.
    destruct (encode_loop _ _ _ _ _) as [[e|st]|]; [|done..].
    intros [= _ ->]. done.
Qed.

(** ** The frame of a payload parses back to the payload *)

Lemma slice_data_bits_of (file_bytes : list byte) (k : nat) (b : byte) :
  file_bytes !! k = Some b ->
  slice (8 * k) (8 * k + 8) (data_bits_of file_bytes) = format_b 8 (Byte.to_nat b).
Proof.
  revert k. induction file_bytes as [|x l IH]; intros k Hk; [done|].
  rewrite data_bits_of_cons. unfold slice in *. destruct k as [|k].
  - injection Hk as ->. rewrite (take_app_length' _ _ 8); [done|].
    by rewrite length_format_byte.
  - replace (8 * S k + 8) with (8 + (8 * k + 8)) by lia.
    replace (8 * S k) with (8 + 8 * k) by lia.
    rewrite (take_app_add' _ _ 8) by (by rewrite length_format_byte).
    rewrite (drop_app_add' _ _ 8) by (by rewrite length_format_byte).
    by apply IH.
Qed.

Lemma omap_seq_lookup {A} (f : nat -> option A) (l : list A) (s : nat) :
  (forall i, i < length l -> f (s + i) = l !! i) ->
  omap f (seq s (length l)) = l.
Proof.
  revert s. induction l as [|x l IH]; intros s Hf; simpl; [done|].
  pose proof (Hf 0 ltac:(simpl; lia)) as H0. rewrite Nat.add_0_r in H0.
  rewrite H0. simpl. f_equal. apply IH. intros i Hi.
  replace (S s + i) with (s + S i) by lia. apply (Hf (S i)). simpl. lia.
Qed.

Lemma bytes_of_bits_data_bits_of (file_bytes : list byte) :
  bytes_of_bits (data_bits_of file_bytes) = file_bytes.
Proof.
  unfold bytes_of_bits. rewrite length_data_bits_of.
  replace ((8 * length file_bytes + 7) / 8) with (length file_bytes).
  2:{ rewrite (Nat.mul_comm 8), Nat.div_add_l by lia. simpl. lia. }
  apply omap_seq_lookup. intros i Hi. cbv beta zeta. rewrite Nat.add_0_l.
  destruct (lookup_lt_is_Some_2 file_bytes i Hi) as [b Hb].
  rewrite (slice_data_bits_of _ _ b Hb), length_format_byte.
  rewrite bool_decide_true by done.
  by rewrite bits_val_format_b, Byte.of_to_nat, Hb.
Qed.

Lemma parse_frame_complete_binary (file_bytes : list byte) :
  file_bytes ≠ [] ->
  parse_frame (complete_binary file_bytes) = inr (data_bits_of file_bytes).
Proof.
  intros Hne.
  assert (0 < length file_bytes) as Hpos by (destruct file_bytes; simpl; [done|lia]).
  pose proof (length_complete_binary file_bytes) as Hlen.
  pose proof (length_data_bits_of file_bytes) as Hdata.
  assert (complete_binary file_bytes
          = START_MARKER ++ data_bits_of file_bytes ++ END_MARKER) as Hw.
  { unfold complete_binary. by rewrite padding_needed_0. }
  destruct markers_nonempty as [Hs He].
  rewrite (parse_frame_found _ 0 (8 * length file_bytes + 4)).
  - replace (8 * length file_bytes + 4 - (0 + 4)) with (length file_bytes * 8) by lia.
    rewrite Nat.Div0.mod_mul, Nat.sub_0_r. rewrite bool_decide_false by lia.
    f_equal. rewrite Hw. simpl. rewrite drop_0.
    rewrite (take_app_length' _ _ _); [done|lia].
  - apply (find_first _ _ _ Hs). split; [|lia]. rewrite Hw. done.
  - apply (rfind_last _ _ _ He). split.
    + unfold occurs_at. rewrite Hw, app_assoc.
      rewrite drop_app_length'; [done|]. rewrite length_app, Hdata. simpl. lia.
    + intros j Hj Ho. apply occurs_at_lt in Ho; [|done].
      rewrite Hlen in Ho. simpl in Ho. lia.
  - lia.
Qed.
(** ** A frame whose end marker is pushed apart *)

Lemma length_omap_le {A B} (f : A -> option B) (l : list A) :
  length (omap f l) ≤ length l.
Proof.
  induction l as [|x l IH]; [done|].
  change (omap f (x :: l))
    with (match f x with Some y => y :: omap f l | None => omap f l end).
  destruct (f x); simpl; lia.
Qed.

Lemma length_bytes_of_bits (data_bits : bits) :
  length (bytes_of_bits data_bits) ≤ (length data_bits + 7) / 8.
Proof.
  unfold bytes_of_bits. etrans; [apply length_omap_le|]. by rewrite length_seq.
Qed.

Lemma occurs_at_app_r (sub s1 s2 : bits) (j : nat) :
  occurs_at sub (s1 ++ s2) (length s1 + j) <-> occurs_at sub s2 j.
Proof. unfold occurs_at. by rewrite drop_app_add. Qed.

Lemma repeat_false_snoc (z : nat) :
  repeat false z ++ [false] = repeat false (S z).
Proof. induction z as [|z IH]; simpl; [done|]. by rewrite IH. Qed.

(** Zeros closed by a one hold no end marker. *)
Lemma no_end_marker_in_zeros (z k : nat) :
  ¬ occurs_at END_MARKER (repeat false z ++ [true]) k.
Proof.
  revert k. induction z as [|z IH]; intros k Ho.
  - apply occurs_at_lt in Ho; [|done]. simpl in Ho. lia.
  - destruct k as [|k]; [|by apply (IH k)].
    destruct z; discriminate Ho.
Qed.

(** Nor does the end marker once two zeros or more stand between its first
    two bits and its last bit. *)
Lemma no_end_marker_pushed_apart (z k : nat) :
  2 ≤ z ->
  ¬ occurs_at END_MARKER ([false; true] ++ repeat false z ++ [true]) k.
Proof.
  intros Hz Ho. destruct k as [|[|k]].
  - destruct z as [|[|z]]; [lia|lia|discriminate Ho].
  - destruct z as [|z]; [lia|discriminate Ho].
  - by apply (no_end_marker_in_zeros z k).
Qed.

(** The frame of a payload with [d >= 1] zeros put in front of its last one
    or two bits: no end marker is left from where the end marker was. *)
Lemma no_end_marker_after_padding (file_bytes : list byte) (r d j : nat) :
  r = 1 ∨ r = 2 -> 1 ≤ d ->
  8 * length file_bytes + 4 ≤ j ->
  ¬ occurs_at END_MARKER
      (take (length (complete_binary file_bytes) - r) (complete_binary file_bytes)
       ++ repeat false d
       ++ drop (length (complete_binary file_bytes) - r) (complete_binary file_bytes))
      j.
Proof.
  intros Hr Hd Hj.
  pose proof (length_data_bits_of file_bytes) as Hdata.
  assert (complete_binary file_bytes
          = (START_MARKER ++ data_bits_of file_bytes) ++ END_MARKER) as Hw.
  { unfold complete_binary. by rewrite padding_needed_0, app_assoc. }
  assert (length (START_MARKER ++ data_bits_of file_bytes)
          = 8 * length file_bytes + 4) as Hhead.
  { rewrite length_app, Hdata. simpl. lia. }
  rewrite length_complete_binary, Hw.
  assert (exists z, 2 ≤ z
            ∧ take (8 * length file_bytes + 8 - r)
                ((START_MARKER ++ data_bits_of file_bytes) ++ END_MARKER)
              ++ repeat false d
              ++ drop (8 * length file_bytes + 8 - r)
                   ((START_MARKER ++ data_bits_of file_bytes) ++ END_MARKER)
              = (START_MARKER ++ data_bits_of file_bytes)
                ++ [false; true] ++ repeat false z ++ [true]) as (z & Hz & ->).
  { destruct Hr as [-> | ->].
    - exists (S d). split; [lia|].
      replace (8 * length file_bytes + 8 - 1) with
        (length (START_MARKER ++ data_bits_of file_bytes) + 3) by lia.
      rewrite take_app_add, drop_app_add.
      change (take 3 END_MARKER) with ([false; true] ++ [false]).
      change (drop 3 END_MARKER) with [true].
      rewrite <- !app_assoc. by change ([false] ++ repeat false d ++ [true])
        with (repeat false (S d) ++ [true]).
    - exists (S d). split; [lia|].
      replace (8 * length file_bytes + 8 - 2) with
        (length (START_MARKER ++ data_bits_of file_bytes) + 2) by lia.
      rewrite take_app_add, drop_app_add.
      change (take 2 END_MARKER) with [false; true].
      change (drop 2 END_MARKER) with ([false] ++ [true]).
      rewrite (app_assoc (repeat false d)), repeat_false_snoc.
      by rewrite <- !app_assoc. }
  replace j with (length (START_MARKER ++ data_bits_of file_bytes)
                  + (j - (8 * length file_bytes + 4))) by lia.
  rewrite occurs_at_app_r. by apply no_end_marker_pushed_apart.
Qed.

(** Such a stream does not parse to the payload: it parses to an error or to
    fewer bytes. *)
Lemma padded_frame_loses_payload (file_bytes : list byte) (r d : nat) :
  r = 1 ∨ r = 2 -> 1 ≤ d ->
  match parse_frame
          (take (length (complete_binary file_bytes) - r) (complete_binary file_bytes)
           ++ repeat false d
           ++ drop (length (complete_binary file_bytes) - r)
                (complete_binary file_bytes)) with
  | inl _ => True
  | inr data_bits => length (bytes_of_bits data_bits) < length file_bytes
  end.
Proof.
  intros Hr Hd.
  set (stream := take _ _ ++ _ ++ drop _ _).
  unfold parse_frame. change (length START_MARKER) with 4.
  destruct (find START_MARKER stream) as [s|]; [|done].
  destruct (rfind END_MARKER stream) as [e|] eqn:He; [|done].
  case_bool_decide as Hse; [done|].
  case_bool_decide as Hempty; [done|].
  apply rfind_occurs in He as [Ho _].
  assert (e < 8 * length file_bytes + 4) as Hlt.
  { destruct (decide (e < 8 * length file_bytes + 4)); [done|].
    destruct (no_end_marker_after_padding file_bytes r d e Hr Hd); [lia|done]. }
  rewrite length_truncate_residue in *. 
  set (region := slice (s + 4) e stream) in *.
  assert (length region ≤ 8 * length file_bytes - 1) as Hregion.
  { unfold region, slice. rewrite length_drop, length_take. lia. }
  eapply Nat.le_lt_trans; [apply length_bytes_of_bits|].
  rewrite length_take.
  pose proof (Nat.div_mod_eq (length region) 8) as Hdm.
  assert (length region / 8 < length file_bytes) as Hq.
  { apply Nat.Div0.div_lt_upper_bound. lia. }
  rewrite Nat.min_l by lia.
  replace (8 * (length region / 8) + 7) with (7 + (length region / 8) * 8) by lia.
  rewrite Nat.div_add, (Nat.div_small 7 8) by lia. lia.
Qed.
(** ** The bytes that are written *)

(** Eight digits are the digits of a byte. *)
Lemma byte_of_bits (bs : bits) :
  length bs = 8 ->
  exists b, Byte.of_nat (bits_val bs) = Some b ∧ format_b 8 (Byte.to_nat b) = bs.
Proof.
  intros Hlen. pose proof (bits_val_lt bs) as Hlt. rewrite Hlen in Hlt.
  change (2 ^ 8) with 256 in Hlt.
  destruct (Byte.of_nat (bits_val bs)) as [b|] eqn:E.
  - exists b. split; [done|]. apply Byte.to_of_nat in E. rewrite E, <- Hlen.
    apply format_b_bits_val_same. by destruct bs.
  - apply Byte.of_nat_None_iff in E. lia.
Qed.

(** A digit string is the digits of some bytes and fewer than eight digits
    more. *)
Lemma bits_as_bytes (data_bits : bits) :
  exists l tail, data_bits = data_bits_of l ++ tail ∧ length tail < 8.
Proof.
  remember (length data_bits) as n eqn:Hn. revert data_bits Hn.
  induction n as [n IH] using lt_wf_ind. intros d Hn.
  destruct (decide (n < 8)) as [Hlt|Hge].
  - exists [], d. split; [done|lia].
  - destruct (byte_of_bits (take 8 d)) as (b & _ & Hb).
    { rewrite length_take. lia. }
    destruct (IH (n - 8) ltac:(lia) (drop 8 d)) as (l & tail & Hd & Htail).
    { rewrite length_drop. lia. }
    exists (b :: l), tail. split; [|done].
    rewrite data_bits_of_cons, Hb, <- app_assoc, <- Hd. by rewrite take_drop.
Qed.

Lemma slice_app_l {A} (a b : nat) (s t : list A) :
  b ≤ length s -> slice a b (s ++ t) = slice a b s.
Proof. intros H. unfold slice. by rewrite take_app_le. Qed.

Lemma bytes_of_bits_tail (l : list byte) (tail : bits) :
  length tail < 8 -> bytes_of_bits (data_bits_of l ++ tail) = l.
Proof.
  intros Htail. pose proof (length_data_bits_of l) as Hlen.
  unfold bytes_of_bits. rewrite length_app, Hlen.
  assert (exists extra, (8 * length l + length tail + 7) / 8 = length l + extra
                        ∧ extra ≤ 1) as (extra & -> & Hextra).
  { exists ((length tail + 7) / 8). split.
    - replace (8 * length l + length tail + 7)
        with (length l * 8 + (length tail + 7)) by lia.
      by rewrite Nat.div_add_l.
    - apply Nat.lt_succ_r, Nat.Div0.div_lt_upper_bound. lia. }
  rewrite seq_app, omap_app. rewrite omap_seq_lookup.
  - destruct extra as [|[|?]]; [by rewrite app_nil_r| |lia].
    rewrite Nat.add_0_l. cbn [seq omap list_omap]. cbv beta zeta.
    rewrite bool_decide_false; [by rewrite app_nil_r|].
    unfold slice. rewrite length_drop, length_take, length_app, Hlen. lia.
  - intros i Hi. cbv beta zeta. rewrite Nat.add_0_l.
    destruct (lookup_lt_is_Some_2 l i Hi) as [b Hb].
    rewrite slice_app_l by lia.
    rewrite (slice_data_bits_of _ _ b Hb), length_format_byte.
    rewrite bool_decide_true by done.
    by rewrite bits_val_format_b, Byte.of_to_nat, Hb.
Qed.

(** X1: the loop that writes the decoded bytes writes one byte for each
    whole group of eight bits, in order, and nothing for the bits after the
    last whole group: the bytes written, put back into bits, are the bits up
    to there. *)
Theorem bytes_of_bits_whole_groups (data_bits : bits) :
  length (bytes_of_bits data_bits) = length data_bits / 8
  ∧ data_bits_of (bytes_of_bits data_bits)
    = take (8 * (length data_bits / 8)) data_bits.
Proof.
  destruct (bits_as_bytes data_bits) as (l & tail & -> & Htail).
  rewrite bytes_of_bits_tail by done.
  pose proof (length_data_bits_of l) as Hlen.
  assert (length (data_bits_of l ++ tail) / 8 = length l) as ->.
  { rewrite length_app, Hlen, (Nat.mul_comm 8), Nat.div_add_l by lia.
    rewrite (Nat.div_small (length tail)) by done. lia. }
  split; [done|]. rewrite take_app_length'; [done|lia].
Qed.
(** ** The padding the frame parser accepts *)

Lemma start_marker_first (rest : bits) : find START_MARKER (START_MARKER ++ rest) = Some 0.
Proof. reflexivity. Qed.

Lemma end_marker_last (body : bits) :
  rfind END_MARKER (body ++ END_MARKER) = Some (length body).
Proof.
  destruct markers_nonempty as [_ He].
  apply (rfind_last _ _ _ He). split.
  - unfold occurs_at. by rewrite drop_app_length.
  - intros j Hj Ho. apply occurs_at_lt in Ho; [|done].
    rewrite length_app in Ho. simpl in Ho. lia.
Qed.

(** What the parser gives for a stream that begins with the start marker and
    ends with the end marker, by the bits in between. *)
Lemma parse_frame_between (body : bits) :
  parse_frame (START_MARKER ++ body ++ END_MARKER)
  = if bool_decide (body = [])
    then inl "End marker not found in decoded data"%string
    else if bool_decide (length body < 8)
         then inl "No data found between markers"%string
         else inr (take (8 * (length body / 8)) body).
Proof.
  unfold parse_frame. rewrite start_marker_first.
  rewrite app_assoc, end_marker_last, <- app_assoc.
  rewrite length_app. change (length START_MARKER) with 4.
  change (0 + 4) with 4.
  assert (slice 4 (4 + length body) (START_MARKER ++ body ++ END_MARKER) = body)
    as ->.
  { unfold slice. change (4 + length body) with (length START_MARKER + length body).
    rewrite take_app_add, take_app_length. reflexivity. }
  pose proof (Nat.div_mod_eq (length body) 8) as Hdm.
  pose proof (Nat.mod_upper_bound (length body) 8 ltac:(lia)) as Hub.
  rewrite length_truncate_residue, length_take.
  destruct body as [|b body]; [done|].
  rewrite (bool_decide_false (4 + _ ≤ 4)) by (simpl; lia).
  rewrite (bool_decide_false (_ :: _ = [])) by done.
  assert (length (b :: body) < 8
          <-> (8 * (length (b :: body) / 8)) `min` length (b :: body) = 0) as Hiff.
  { split; intros H.
    - rewrite Nat.div_small; lia.
    - destruct (decide (length (b :: body) < 8)); [done|].
      assert (1 ≤ length (b :: body) / 8) by (apply Nat.div_le_lower_bound; lia).
      lia. }
  repeat case_bool_decide; try done; tauto.
Qed.

(** X2: between the markers the frame parser accepts, after the bits of the
    payload, up to seven bits of any value, and gives the payload back; a
    frame with fewer than eight bits between its markers is refused, as one
    without an end marker when there is no bit, and as one without data
    otherwise. *)
Theorem frame_tolerates_padding (file_bytes : list byte) (padding : bits) :
  length padding < 8 ->
  (file_bytes ≠ [] ->
   parse_frame (START_MARKER ++ data_bits_of file_bytes ++ padding ++ END_MARKER)
   = inr (data_bits_of file_bytes)
   ∧ bytes_of_bits (data_bits_of file_bytes) = file_bytes)
  ∧ parse_frame (START_MARKER ++ padding ++ END_MARKER)
    = inl (if bool_decide (padding = [])
           then "End marker not found in decoded data"%string
           else "No data found between markers"%string).
Proof.
  intros Hpad. split.
  - intros Hne. split; [|apply bytes_of_bits_data_bits_of].
    assert (0 < length file_bytes) as Hpos by (destruct file_bytes; simpl; [done|lia]).
    pose proof (length_data_bits_of file_bytes) as Hdata.
    rewrite (app_assoc (data_bits_of _)), parse_frame_between.
    rewrite bool_decide_false.
    2:{ intros E. apply (f_equal length) in E. rewrite length_app, Hdata in E.
        simpl in E. lia. }
    rewrite length_app, Hdata, bool_decide_false by lia. f_equal.
    rewrite (Nat.mul_comm 8 (length file_bytes)), Nat.div_add_l by lia.
    rewrite (Nat.div_small (length padding)), Nat.add_0_r by done.
    rewrite take_app_length'; [done|lia].
  - rewrite parse_frame_between. case_bool_decide; [done|].
    by rewrite bool_decide_true.
Qed.
Lemma data_bits_of_app (l l' : list byte) :
  data_bits_of (l ++ l') = data_bits_of l ++ data_bits_of l'.
Proof. unfold data_bits_of. by rewrite fmap_app, join_app. Qed.

(** The bytes of the bits of some bytes and of more bits. *)
Lemma bytes_of_bits_app (l : list byte) (more : bits) :
  bytes_of_bits (data_bits_of l ++ more) = l ++ bytes_of_bits more.
Proof.
  destruct (bits_as_bytes more) as (l' & tail & -> & Htail).
  rewrite app_assoc, <- data_bits_of_app.
  by rewrite !bytes_of_bits_tail.
Qed.

Lemma length_bytes_of_bits_eq (data_bits : bits) :
  length (bytes_of_bits data_bits) = length data_bits / 8.
Proof.
  destruct (bits_as_bytes data_bits) as (l & tail & -> & Htail).
  rewrite bytes_of_bits_tail by done.
  rewrite length_app, length_data_bits_of, (Nat.mul_comm 8), Nat.div_add_l by lia.
  rewrite (Nat.div_small (length tail)) by done. lia.
Qed.

(** The end marker followed by fewer than four of its own last bits: its last
    occurrence there stands less than eight bits in. *)
Lemma end_marker_repeated_in_part (k : nat) :
  k < 4 ->
  exists p, last_occurrence END_MARKER (END_MARKER ++ drop (4 - k) END_MARKER) p
            ∧ p < 8.
Proof.
  intros Hk. destruct markers_nonempty as [_ He].
  assert (forall t p, occurs_at END_MARKER t p ->
            (forall j, p < j -> j + 4 ≤ length t -> ¬ occurs_at END_MARKER t j) ->
            last_occurrence END_MARKER t p) as Hlast.
  { intros t p Ho Hno. split; [done|]. intros j Hj Hoj.
    apply (Hno j Hj); [|done]. by apply (occurs_at_lt _ _ _ He). }
  destruct k as [|[|[|[|k]]]]; [| | | |lia].
  - exists 0. split; [|lia]. apply Hlast; [reflexivity|].
    intros j Hj Hle. simpl in Hle. lia.
  - exists 0. split; [|lia]. apply Hlast; [reflexivity|].
    intros [|[|j]] Hj Hle; simpl in Hle; [lia|discriminate|lia].
  - exists 2. split; [|lia]. apply Hlast; [reflexivity|].
    intros [|[|[|j]]] Hj Hle; simpl in Hle; lia.
  - exists 0. split; [|lia]. apply Hlast; [reflexivity|].
    intros [|[|[|[|j]]]] Hj Hle; simpl in Hle; [lia|discriminate..|lia].
Qed.

(** ** The game set *)

Section GameSet.

Hypothesis shuffle_perm :
  forall rng moves, (shuffle rng moves).2 ≡ₚ moves.
Hypothesis uci_nodup :
  forall board, NoDup (uci <$> legal_moves board).
Hypothesis py_int_str : forall z, py_int (py_str z) = Some z.

(** The payload comes back when the last move of [encode] stands for as
    many bits as its position offers and does not end its game. *)
Lemma round_trip_whole_last_move (fuel : nat) (file_bytes : list byte) (now : Z)
    (self_destruct_timer : option Z) (custom_headers : option (gmap string string))
    (st_end st_last : enc_state) :
  file_bytes ≠ [] ->
  (forall custom, custom_headers = Some custom -> custom !! "Seed"%string = None) ->
  encode_loop (complete_binary file_bytes) (expiry_of now self_destruct_timer)
    custom_headers fuel enc_init = Some (inr st_end) ->
  last (encode_trace (complete_binary file_bytes)
          (expiry_of now self_destruct_timer) custom_headers fuel enc_init)
  = Some st_last ->
  Nat.log2 (length (legal_moves (chess_board st_last)))
  ≤ length (complete_binary file_bytes) - file_bit_index st_last ->
  should_end_game (chess_board st_end) = false ->
  exists games,
    encode_games fuel file_bytes now self_destruct_timer custom_headers
    = Some (inr games)
    ∧ decode_games games = inr file_bytes.
Proof using shuffle_perm uci_nodup py_int_str.
  intros Hne Hcustom Hloop Hlast Hfull Hgoes.
  exists (finish (expiry_of now self_destruct_timer) custom_headers st_end).
  split; [unfold encode_games; by rewrite Hloop|].
  destruct (extracted_stream _ _ _ shuffle_perm uci_nodup py_int_str Hcustom
              fuel st_end st_last Hloop Hlast) as (Hn & Hall & tail & Hext).
  unfold decode_games. rewrite Hext, Hgoes.
  replace (Nat.log2 (length (legal_moves (chess_board st_last)))
           - bits_to_encode (complete_binary file_bytes) st_last) with 0
    by (unfold bits_to_encode; lia).
  simpl. rewrite app_nil_r, take_drop.
  rewrite parse_frame_complete_binary by done.
  by rewrite bytes_of_bits_data_bits_of.
Qed.
(** The payload does not come back when the last move of [encode] stands
    for one or two bits at a position that offers more: it is printed by
    [decode] on all the bits of the position, and the zeros in front push the
    end marker apart. *)
Lemma round_trip_fails_short_last_move (fuel : nat) (file_bytes : list byte)
    (now : Z) (self_destruct_timer : option Z)
    (custom_headers : option (gmap string string)) (st_end st_last : enc_state) :
  (forall custom, custom_headers = Some custom -> custom !! "Seed"%string = None) ->
  encode_loop (complete_binary file_bytes) (expiry_of now self_destruct_timer)
    custom_headers fuel enc_init = Some (inr st_end) ->
  last (encode_trace (complete_binary file_bytes)
          (expiry_of now self_destruct_timer) custom_headers fuel enc_init)
  = Some st_last ->
  length (complete_binary file_bytes) - file_bit_index st_last = 1
  ∨ length (complete_binary file_bytes) - file_bit_index st_last = 2 ->
  length (complete_binary file_bytes) - file_bit_index st_last
  < Nat.log2 (length (legal_moves (chess_board st_last))) ->
  should_end_game (chess_board st_end) = false ->
  exists games,
    encode_games fuel file_bytes now self_destruct_timer custom_headers
    = Some (inr games)
    ∧ decode_games games ≠ inr file_bytes.
Proof using shuffle_perm uci_nodup py_int_str.
  intros Hcustom Hloop Hlast Hleft Hshort Hgoes.
  exists (finish (expiry_of now self_destruct_timer) custom_headers st_end).
  split; [unfold encode_games; by rewrite Hloop|].
  destruct (extracted_stream _ _ _ shuffle_perm uci_nodup py_int_str Hcustom
              fuel st_end st_last Hloop Hlast) as (Hn & Hall & tail & Hext).
  unfold decode_games. rewrite Hext, Hgoes, app_nil_r.
  set (r := length (complete_binary file_bytes) - file_bit_index st_last) in *.
  assert (bits_to_encode (complete_binary file_bytes) st_last = r) as Hr
    by (unfold bits_to_encode; lia).
  assert (file_bit_index st_last = length (complete_binary file_bytes) - r)
    as Hidx by lia.
  rewrite Hr, Hidx.
  pose proof (padded_frame_loses_payload file_bytes r
                (Nat.log2 (length (legal_moves (chess_board st_last))) - r)
                Hleft ltac:(lia)) as Hlost.
  destruct (parse_frame _) as [e|data_bits]; [done|].
  intros [= Heq]. rewrite Heq in Hlost. lia.
Qed.
(** The frame of a payload followed by bits in which the last end marker
    stands less than eight bits in: the parser gives the payload. *)
Lemma parse_frame_trailing (file_bytes : list byte) (trail : bits) (p : nat) :
  file_bytes ≠ [] -> last_occurrence END_MARKER trail p -> p < 8 ->
  parse_frame (START_MARKER ++ data_bits_of file_bytes ++ trail)
  = inr (data_bits_of file_bytes).
Proof.
  clear shuffle_perm uci_nodup py_int_str.
  intros Hne [Hocc Hlast] Hp.
  assert (0 < length file_bytes) as Hpos by (destruct file_bytes; simpl; [done|lia]).
  pose proof (length_data_bits_of file_bytes) as Hdata.
  destruct markers_nonempty as [Hs He].
  assert (length (START_MARKER ++ data_bits_of file_bytes)
          = 4 + 8 * length file_bytes) as Hhead.
  { rewrite length_app, Hdata. reflexivity. }
  rewrite (parse_frame_found _ 0 (4 + 8 * length file_bytes + p)).
  - replace (4 + 8 * length file_bytes + p - (0 + 4))
      with (p + length file_bytes * 8) by lia.
    rewrite Nat.Div0.mod_add, (Nat.mod_small p) by done.
    rewrite bool_decide_false by lia. f_equal.
    change (drop (0 + 4) (START_MARKER ++ ?r)) with r.
    rewrite take_app_length'; [done|lia].
  - apply start_marker_first.
  - apply (rfind_last _ _ _ He). rewrite app_assoc, <- Hhead. split.
    + by apply occurs_at_app_r.
    + intros j Hj Ho.
      replace j with (length (START_MARKER ++ data_bits_of file_bytes)
                      + (j - (4 + 8 * length file_bytes))) in Ho by lia.
      apply occurs_at_app_r in Ho.
      apply (Hlast (j - (4 + 8 * length file_bytes))); [lia|done].
  - lia.
Qed.

(** The end marker behind [d] zeros is the last one there. *)
Lemma end_marker_after_zeros (d : nat) :
  last_occurrence END_MARKER (repeat false d ++ END_MARKER) d.
Proof.
  clear shuffle_perm uci_nodup py_int_str.
  destruct markers_nonempty as [_ He].
  apply (rfind_last _ _ _ He).
  by rewrite end_marker_last, repeat_length.
Qed.

(** The stream [decode] extracts when the last move of [encode] stood for the
    three or four bits that were left: the zeros that pad the move stand in
    front of the end marker. *)
Lemma padded_before_end_marker (file_bytes : list byte) (r d : nat) :
  r = 3 ∨ r = 4 ->
  take (length (complete_binary file_bytes) - r) (complete_binary file_bytes)
  ++ repeat false d
  ++ drop (length (complete_binary file_bytes) - r) (complete_binary file_bytes)
  = START_MARKER ++ data_bits_of file_bytes ++ repeat false d ++ END_MARKER.
Proof.
  clear shuffle_perm uci_nodup py_int_str.
  intros Hr. pose proof (length_data_bits_of file_bytes) as Hdata.
  assert (complete_binary file_bytes
          = (START_MARKER ++ data_bits_of file_bytes) ++ END_MARKER) as Hw.
  { unfold complete_binary. by rewrite padding_needed_0, app_assoc. }
  assert (length (START_MARKER ++ data_bits_of file_bytes)
          = 8 * length file_bytes + 4) as Hhead.
  { rewrite length_app, Hdata. simpl. lia. }
  rewrite length_complete_binary, Hw. destruct Hr as [-> | ->].
  - replace (8 * length file_bytes + 8 - 3) with
      (length (START_MARKER ++ data_bits_of file_bytes) + 1) by lia.
    rewrite take_app_add, drop_app_add.
    change (take 1 END_MARKER) with [false].
    change (drop 1 END_MARKER) with [true; false; true].
    rewrite <- !app_assoc. do 2 f_equal.
    change ([false] ++ repeat false d ++ [true; false; true])
      with (repeat false (S d) ++ [true; false; true]).
    rewrite <- repeat_false_snoc, <- app_assoc. reflexivity.
  - replace (8 * length file_bytes + 8 - 4) with
      (length (START_MARKER ++ data_bits_of file_bytes) + 0) by lia.
    rewrite take_app_add, drop_app_add. simpl take. simpl drop.
    by rewrite app_nil_r, <- !app_assoc.
Qed.

(** X3: the payload comes back from the game set when the last move of
    [encode] does not end its game and either stands for as many bits as its
    position offers, or stands for the three or four bits that were left at a
    position that offers fewer than eight bits more: the zeros [decode] puts
    in front of such a move fall between the payload and the end marker,
    where the parser drops them. *)
Theorem round_trip_when_last_move_fits (fuel : nat) (file_bytes : list byte)
    (now : Z) (self_destruct_timer : option Z)
    (custom_headers : option (gmap string string)) (st_end st_last : enc_state) :
  file_bytes ≠ [] ->
  (forall custom, custom_headers = Some custom -> custom !! "Seed"%string = None) ->
  encode_loop (complete_binary file_bytes) (expiry_of now self_destruct_timer)
    custom_headers fuel enc_init = Some (inr st_end) ->
  last (encode_trace (complete_binary file_bytes)
          (expiry_of now self_destruct_timer) custom_headers fuel enc_init)
  = Some st_last ->
  Nat.log2 (length (legal_moves (chess_board st_last)))
  ≤ length (complete_binary file_bytes) - file_bit_index st_last
  ∨ ((length (complete_binary file_bytes) - file_bit_index st_last = 3
      ∨ length (complete_binary file_bytes) - file_bit_index st_last = 4)
     ∧ Nat.log2 (length (legal_moves (chess_board st_last)))
       < length (complete_binary file_bytes) - file_bit_index st_last + 8) ->
  should_end_game (chess_board st_end) = false ->
  exists games,
    encode_games fuel file_bytes now self_destruct_timer custom_headers
    = Some (inr games)
    ∧ decode_games games = inr file_bytes.
Proof using shuffle_perm uci_nodup py_int_str.
  intros Hne Hcustom Hloop Hlast Hfits Hgoes.
  destruct (decide (Nat.log2 (length (legal_moves (chess_board st_last)))
                    ≤ length (complete_binary file_bytes) - file_bit_index st_last))
    as [Hwhole|Hshort].
  { by apply (round_trip_whole_last_move fuel file_bytes now self_destruct_timer
                custom_headers st_end st_last). }
  destruct Hfits as [?|[Hleft Hpad]]; [lia|].
  exists (finish (expiry_of now self_destruct_timer) custom_headers st_end).
  split; [unfold encode_games; by rewrite Hloop|].
  destruct (extracted_stream _ _ _ shuffle_perm uci_nodup py_int_str Hcustom
              fuel st_end st_last Hloop Hlast) as (Hn & Hall & tail & Hext).
  unfold decode_games. rewrite Hext, Hgoes, app_nil_r.
  set (r := length (complete_binary file_bytes) - file_bit_index st_last) in *.
  assert (bits_to_encode (complete_binary file_bytes) st_last = r) as Hr
    by (unfold bits_to_encode; lia).
  assert (file_bit_index st_last = length (complete_binary file_bytes) - r)
    as Hidx by lia.
  rewrite Hr, Hidx, padded_before_end_marker by done.
  rewrite (parse_frame_trailing file_bytes _
             (Nat.log2 (length (legal_moves (chess_board st_last))) - r));
    [|done|apply end_marker_after_zeros|lia].
  by rewrite bytes_of_bits_data_bits_of.
Qed.

(** X4: the payload does not come back when the last move of [encode]
    stands for the one or two bits that were left at a position that offers
    more: [decode] fails, or gives fewer bytes than the payload has. *)
Theorem short_last_move_loses_payload (fuel : nat) (file_bytes : list byte)
    (now : Z) (self_destruct_timer : option Z)
    (custom_headers : option (gmap string string)) (st_end st_last : enc_state) :
  (forall custom, custom_headers = Some custom -> custom !! "Seed"%string = None) ->
  encode_loop (complete_binary file_bytes) (expiry_of now self_destruct_timer)
    custom_headers fuel enc_init = Some (inr st_end) ->
  last (encode_trace (complete_binary file_bytes)
          (expiry_of now self_destruct_timer) custom_headers fuel enc_init)
  = Some st_last ->
  length (complete_binary file_bytes) - file_bit_index st_last = 1
  ∨ length (complete_binary file_bytes) - file_bit_index st_last = 2 ->
  length (complete_binary file_bytes) - file_bit_index st_last
  < Nat.log2 (length (legal_moves (chess_board st_last))) ->
  should_end_game (chess_board st_end) = false ->
  exists games,
    encode_games fuel file_bytes now self_destruct_timer custom_headers
    = Some (inr games)
    ∧ match decode_games games with
      | inl _ => True
      | inr decoded => length decoded < length file_bytes
      end.
Proof using shuffle_perm uci_nodup py_int_str.
  intros Hcustom Hloop Hlast Hleft Hshort Hgoes.
  exists (finish (expiry_of now self_destruct_timer) custom_headers st_end).
  split; [unfold encode_games; by rewrite Hloop|].
  destruct (extracted_stream _ _ _ shuffle_perm uci_nodup py_int_str Hcustom
              fuel st_end st_last Hloop Hlast) as (Hn & Hall & tail & Hext).
  unfold decode_games. rewrite Hext, Hgoes, app_nil_r.
  set (r := length (complete_binary file_bytes) - file_bit_index st_last) in *.
  assert (bits_to_encode (complete_binary file_bytes) st_last = r) as Hr
    by (unfold bits_to_encode; lia).
  assert (file_bit_index st_last = length (complete_binary file_bytes) - r)
    as Hidx by lia.
  rewrite Hr, Hidx.
  pose proof (padded_frame_loses_payload file_bytes r
                (Nat.log2 (length (legal_moves (chess_board st_last))) - r)
                Hleft ltac:(lia)) as Hlost.
  by destruct (parse_frame _) as [e|data_bits].
Qed.
(** X5: when the last move of [encode] stands for as many bits as its
    position offers and ends its game, the game is recorded twice, by the
    pass and after the loop, and [decode] gives the payload followed by one
    byte more for every eight bits that the last game holds. *)
Theorem last_game_decoded_twice (fuel : nat) (file_bytes : list byte)
    (now : Z) (self_destruct_timer : option Z)
    (custom_headers : option (gmap string string)) (st_end st_last : enc_state) :
  file_bytes ≠ [] ->
  (forall custom, custom_headers = Some custom -> custom !! "Seed"%string = None) ->
  encode_loop (complete_binary file_bytes) (expiry_of now self_destruct_timer)
    custom_headers fuel enc_init = Some (inr st_end) ->
  last (encode_trace (complete_binary file_bytes)
          (expiry_of now self_destruct_timer) custom_headers fuel enc_init)
  = Some st_last ->
  Nat.log2 (length (legal_moves (chess_board st_last)))
  ≤ length (complete_binary file_bytes) - file_bit_index st_last ->
  should_end_game (chess_board st_end) = true ->
  exists games game last_game more,
    encode_games fuel file_bytes now self_destruct_timer custom_headers
    = Some (inr games)
    ∧ games !! (length games - 1) = Some game
    ∧ games !! (length games - 2) = Some game
    ∧ 2 ≤ length games
    ∧ extract_bits_of [game] = inr last_game
    ∧ decode_games games = inr (file_bytes ++ more)
    ∧ length more = length last_game / 8.
Proof using shuffle_perm uci_nodup py_int_str.
  intros Hne Hcustom Hloop Hlast Hwhole Hends.
  set (wrapped := complete_binary file_bytes) in *.
  set (expiry := expiry_of now self_destruct_timer) in *.
  destruct (trace_last _ _ _ fuel st_end st_last Hloop Hlast)
    as (Hreach & Hidx & Hpass & Hend).
  destruct (last_pass _ _ _ st_last st_end Hidx Hpass Hend)
    as (Hn & Hall & mv & Hmv & Heq).
  destruct (extracted_last_game _ _ _ shuffle_perm uci_nodup py_int_str Hcustom
              fuel st_end st_last Hloop Hlast) as (seen & g & Hsplit & Hg & Hext).
  rewrite Hends in Hext.
  replace (Nat.log2 (length (legal_moves (chess_board st_last)))
           - bits_to_encode wrapped st_last) with 0 in Hsplit
    by (unfold bits_to_encode; lia).
  simpl in Hsplit. rewrite take_drop in Hsplit.
  assert (chess_board st_end ≠ []) as Hboard.
  { rewrite Heq. simpl. unfold push. by destruct (chess_board st_last). }
  assert (finish expiry custom_headers st_end
          = (output_pgns st_last
               ++ [record_of expiry custom_headers st_end (chess_board st_end)])
            ++ [record_of expiry custom_headers st_end (chess_board st_end)])
    as Hfinish.
  { rewrite finish_nonempty by done. f_equal. rewrite Heq at 1. simpl.
    rewrite <- (f_equal chess_board Heq) at 1. simpl. rewrite Hends.
    f_equal. f_equal. unfold record_of. by rewrite Heq. }
  exists (finish expiry custom_headers st_end),
         (record_of expiry custom_headers st_end (chess_board st_end)), g.
  assert (exists more,
            (match parse_frame (seen ++ g ++ g) with
             | inl e => inl e
             | inr data_bits => inr (bytes_of_bits data_bits)
             end : string + list byte) = inr (file_bytes ++ more)
            ∧ length more = length g / 8) as (more & Hdec & Hmore).
  { pose proof (length_data_bits_of file_bytes) as Hdata.
    assert (0 < length file_bytes) as Hpos
      by (destruct file_bytes; simpl; [done|lia]).
    assert (wrapped = (START_MARKER ++ data_bits_of file_bytes) ++ END_MARKER) as Hw.
    { unfold wrapped, complete_binary. by rewrite padding_needed_0, app_assoc. }
    assert (length (START_MARKER ++ data_bits_of file_bytes)
            = 4 + 8 * length file_bytes) as Hhead.
    { rewrite length_app, Hdata. reflexivity. }
    assert (length seen + length g = 8 * length file_bytes + 8) as Hlen.
    { rewrite <- length_app, Hsplit. apply length_complete_binary. }
    assert (g = drop (length seen) wrapped) as Hdrop.
    { by rewrite <- Hsplit, drop_app_length. }
    rewrite app_assoc, Hsplit.
    destruct (decide (length g < 4)) as [Hsmall|Hbig].
    - exists []. rewrite Nat.div_small by lia. split; [|done].
      assert (g = drop (4 - length g) END_MARKER) as Hsuffix.
      { rewrite Hdrop at 1. rewrite Hw.
        replace (length seen)
          with (length (START_MARKER ++ data_bits_of file_bytes) + (4 - length g))
          by lia.
        by rewrite drop_app_add. }
      destruct (end_marker_repeated_in_part (length g) Hsmall) as (p & Hp & Hp8).
      rewrite <- Hsuffix in Hp.
      rewrite Hw, <- !app_assoc.
      rewrite (parse_frame_trailing file_bytes _ p) by done.
      by rewrite bytes_of_bits_data_bits_of, app_nil_r.
    - assert (drop (length g - 4) g = END_MARKER) as Htail.
      { rewrite Hdrop, drop_drop, Hw.
        replace (length seen + (length (drop (length seen)
                   ((START_MARKER ++ data_bits_of file_bytes) ++ END_MARKER)) - 4))
          with (length (START_MARKER ++ data_bits_of file_bytes) + 0).
        - by rewrite drop_app_add.
        - rewrite <- Hw, <- Hdrop. lia. }
      set (q := length g / 8).
      pose proof (Nat.div_mod_eq (length g) 8) as Hdm.
      pose proof (Nat.mod_upper_bound (length g) 8 ltac:(lia)) as Hub.
      exists (bytes_of_bits (take (8 * q) (END_MARKER ++ take (length g - 4) g))).
      split.
      + rewrite <- (take_drop (length g - 4) g) at 1. rewrite Htail, Hw.
        rewrite <- !app_assoc.
        rewrite (app_assoc (data_bits_of file_bytes)),
                (app_assoc (data_bits_of file_bytes ++ END_MARKER)).
        rewrite parse_frame_between.
        assert (length ((data_bits_of file_bytes ++ END_MARKER)
                        ++ take (length g - 4) g)
                = length file_bytes * 8 + length g) as Hbody.
        { rewrite !length_app, length_take, Hdata. simpl. lia. }
        rewrite bool_decide_false.
        2:{ intros E. apply (f_equal length) in E. rewrite Hbody in E.
            simpl in E. lia. }
        rewrite Hbody, bool_decide_false by lia.
        rewrite Nat.div_add_l by lia. fold q. f_equal.
        rewrite <- !app_assoc.
        replace (8 * (length file_bytes + q))
          with (length (data_bits_of file_bytes) + 8 * q) by lia.
        rewrite take_app_add. apply bytes_of_bits_app.
      + rewrite length_bytes_of_bits_eq, length_take, length_app, length_take.
        simpl length. rewrite Nat.min_l by lia.
        by rewrite Nat.mul_comm, Nat.div_mul. }
  exists more. split_and!.
  - unfold encode_games. fold wrapped expiry. by rewrite Hloop.
  - rewrite Hfinish, length_app. simpl.
    rewrite lookup_app_r by lia.
    by replace (length _ + 1 - 1 - length _) with 0 by lia.
  - rewrite Hfinish, !length_app. simpl.
    rewrite lookup_app_l by (rewrite length_app; simpl; lia).
    rewrite lookup_app_r by lia.
    by replace (length (output_pgns st_last) + 1 + 1 - 2
                - length (output_pgns st_last)) with 0 by lia.
  - rewrite Hfinish, !length_app. simpl. lia.
  - done.
  - unfold decode_games. rewrite Hext. exact Hdec.
  - done.
Qed.

End GameSet.
(** ** The games of a run *)

(** X6: the game set [encode] makes is, for some boards of which none is
    empty, the record of each board in order, the game number [i] counted
    from 0 made with the seed of the draw number [i], the expiry of the run
    and the headers of the game number [i + 1]; and the record of the last
    board once more when the last move ended its game. *)
Theorem games_numbered (fuel : nat) (file_bytes : list byte) (now : Z)
    (self_destruct_timer : option Z) (custom_headers : option (gmap string string))
    (games : list (GameRecord Move)) :
  encode_games fuel file_bytes now self_destruct_timer custom_headers
  = Some (inr games) ->
  exists (boards : list Board) (board : Board),
    Forall (fun board => board ≠ []) (boards ++ [board])
    ∧ games
      = imap (fun i board =>
                create_game_record board (randint i)
                  (expiry_of now self_destruct_timer)
                  (game_headers_for custom_headers (S i)))
             (boards ++ [board])
        ++ (if should_end_game board
            then [create_game_record board (randint (length boards))
                    (expiry_of now self_destruct_timer)
                    (game_headers_for custom_headers (S (length boards)))]
            else [])
    ∧ Forall (fun game => mainline_moves game ≠ []) games.
Proof.
  unfold encode_games. intros Henc.
  destruct (encode_loop _ _ _ _ _) as [[e|st_end]|] eqn:Hloop; [done| |done].
  injection Henc as <-.
  destruct (finish_games (complete_binary file_bytes)
              (expiry_of now self_destruct_timer) custom_headers fuel st_end)
    as (all & Hne & Hlast & Hfinish);
    [rewrite length_complete_binary; lia|done|].
  apply last_Some in Hlast as [boards ->].
  exists boards, (chess_board st_end).
  rewrite length_app in Hfinish. simpl in Hfinish.
  replace (length boards + 1 - 1) with (length boards) in Hfinish by lia.
  assert (Forall (fun game : GameRecord Move => mainline_moves game ≠ [])
            (imap (game_of (expiry_of now self_destruct_timer) custom_headers)
               (boards ++ [chess_board st_end]))) as Hmoves.
  { apply Forall_lookup. intros i game Hi.
    apply list_lookup_imap_Some in Hi as (board & Hboard & ->).
    simpl. unfold move_stack.
    by apply (proj1 (Forall_lookup _ _) Hne i). }
  split_and!; [done|exact Hfinish|].
  rewrite Hfinish. apply Forall_app. split; [done|].
  destruct (should_end_game _); [|apply Forall_nil_2]. apply Forall_singleton. simpl.
  unfold move_stack. rewrite Forall_app, Forall_singleton in Hne.
  by destruct Hne.
Qed.
(** ** What [decode] reads from a game, and what it reports *)

Lemma index_of_Some (name : string) (names : list string) (i : nat) :
  index_of name names = Some i ->
  names !! i = Some name ∧ forall j, j < i -> names !! j ≠ Some name.
Proof.
  unfold index_of. destruct (list_find _ names) as [[k x]|] eqn:E; [|done].
  intros [= <-]. apply list_find_Some in E as (Hk & -> & Hmin).
  split; [done|]. intros j Hj Hname. by apply (Hmin j name).
Qed.

Lemma index_of_None (name : string) (names : list string) :
  index_of name names = None <-> name ∉ names.
Proof.
  unfold index_of. destruct (list_find _ names) as [[k x]|] eqn:E.
  - apply list_find_Some in E as (Hk & -> & _). split; [done|].
    intros Hno. destruct Hno. by eapply list_elem_of_lookup_2.
  - apply list_find_None in E. split; [|done]. intros _ Hin.
    by apply (proj1 (Forall_forall _ _) E name).
Qed.

(** The errors of the extraction: where they come from. *)
Lemma decode_step_error (game_index : nat) (st : Board * Rng * bits) (move : Move)
    (e : string) :
  decode_step game_index st move = inl e ->
  e = ("Invalid move found in game " +:+ py_str (Z.of_nat (game_index + 1))
         +:+ ": " +:+ uci move)%string.
Proof.
  destruct st as [[board rng] all_bits]. unfold decode_step.
  case_bool_decide; [done|]. destruct (shuffle rng _) as [rng' shuffled].
  destruct (index_of _ _); [done|]. by intros [= <-].
Qed.

Lemma decode_moves_error (game_index : nat) (moves : list Move)
    (st : Board * Rng * bits) (e : string) :
  decode_moves game_index st moves = inl e ->
  exists move,
    move ∈ moves
    ∧ e = ("Invalid move found in game " +:+ py_str (Z.of_nat (game_index + 1))
             +:+ ": " +:+ uci move)%string.
Proof.
  revert st. induction moves as [|m ms IH]; intros st; cbn [decode_moves]; [done|].
  destruct (decode_step game_index st m) as [e1|st1] eqn:E.
  - intros [= <-]. exists m. split; [left|by eapply decode_step_error].
  - intros H. destruct (IH st1 H) as (move & Hin & ->). exists move.
    split; [by right|done].
Qed.

Lemma extract_from_take (games : list (GameRecord Move)) (game_index : nat)
    (all_bits : bits) (e : string) :
  extract_from game_index all_bits games = inl e ->
  exists i game bits_before,
    games !! i = Some game
    ∧ extract_from game_index all_bits (take i games) = inr bits_before
    ∧ decode_game (game_index + i) bits_before game = inl e.
Proof.
  revert game_index all_bits.
  induction games as [|g gs IH]; intros k b0; cbn [extract_from]; [done|].
  destruct (decode_game k b0 g) as [e1|b1] eqn:E.
  - intros [= <-]. exists 0, g, b0. by rewrite Nat.add_0_r.
  - intros H. destruct (IH (S k) b1 H) as (i & game & bits_i & Hi & Htake & Hgame).
    exists (S i), game, bits_i. split_and!; [done| |].
    + cbn [take extract_from]. by rewrite E.
    + by replace (k + S i) with (S k + i) by lia.
Qed.

(** X7: when the extraction of [decode] fails, every game before some game
    of the file was read without an error, and the error names that game by
    its number counted from 1: it is the seed error when [int()] refuses the
    seed header of the game ("1" when there is none), and otherwise the move
    error on a move of that game. *)
Theorem extraction_error_names_game (games : list (GameRecord Move)) (e : string) :
  extract_bits_of games = inl e ->
  exists i game bits_before,
    games !! i = Some game
    ∧ extract_bits_of (take i games) = inr bits_before
    ∧ decode_games games = inl e
    ∧ ((py_int (default "1"%string (headers game !! "Seed"%string)) = None
        ∧ e = ("Invalid seed in game " +:+ py_str (Z.of_nat (i + 1)))%string)
       ∨ (exists seed move,
            py_int (default "1"%string (headers game !! "Seed"%string)) = Some seed
            ∧ move ∈ mainline_moves game
            ∧ e = ("Invalid move found in game " +:+ py_str (Z.of_nat (i + 1))
                     +:+ ": " +:+ uci move)%string)).
Proof.
  intros Hext. unfold decode_games. rewrite Hext. unfold extract_bits_of in *.
  destruct (extract_from_take games 0 [] e Hext)
    as (i & game & bits_i & Hi & Htake & Hgame).
  exists i, game, bits_i. split_and!; [done..|].
  rewrite Nat.add_0_l in Hgame. unfold decode_game in Hgame.
  destruct (py_int _) as [seed|]; [right|left].
  - destruct (decode_moves _ _ _) as [e1|[[? ?] ?]] eqn:E; [|done].
    injection Hgame as <-.
    destruct (decode_moves_error _ _ _ _ E) as (move & Hin & ->). eauto.
  - by injection Hgame as <-.
Qed.

Lemma decode_game_same (game_index : nat) (all_bits : bits)
    (game game' : GameRecord Move) :
  same_seed_and_moves game game' ->
  decode_game game_index all_bits game = decode_game game_index all_bits game'.
Proof. intros [Hseed Hmoves]. unfold decode_game. by rewrite Hseed, Hmoves. Qed.

Lemma extract_from_same (games games' : list (GameRecord Move)) :
  Forall2 same_seed_and_moves games games' ->
  forall game_index all_bits,
    extract_from game_index all_bits games
    = extract_from game_index all_bits games'.
Proof.
  induction 1 as [|g g' gs gs' Hg _ IH]; intros k b0; cbn [extract_from]; [done|].
  rewrite (decode_game_same k b0 g g' Hg).
  destruct (decode_game k b0 g'); [done|]. apply IH.
Qed.

Lemma decode_games_same (games games' : list (GameRecord Move)) :
  Forall2 same_seed_and_moves games games' ->
  decode_games games = decode_games games'.
Proof.
  intros H. unfold decode_games, extract_bits_of.
  by rewrite (extract_from_same games games' H).
Qed.

(** X8: of the games of a file [decode] reads the seed header and the
    moves, and of the first game the expiry header, and nothing else: two
    game sets that agree on these decode alike, to the same error or to the
    same bytes, and leave the same files. *)
Theorem decode_reads_seed_moves_expiry (fs : FS) (current_time : Z)
    (output_file_path : string) (first first' : GameRecord Move)
    (rest rest' : list (GameRecord Move)) :
  Forall2 same_seed_and_moves (first :: rest) (first' :: rest') ->
  headers first !! "ExpiryTime"%string = headers first' !! "ExpiryTime"%string ->
  extract_bits_of (first :: rest) = extract_bits_of (first' :: rest')
  ∧ decode_games (first :: rest) = decode_games (first' :: rest')
  ∧ check_expiry fs current_time output_file_path first
    = check_expiry fs current_time output_file_path first'
  ∧ decode_rest fs (first :: rest) output_file_path
    = decode_rest fs (first' :: rest') output_file_path.
Proof.
  intros Hsame Hexpiry. split_and!.
  - by apply extract_from_same.
  - by apply decode_games_same.
  - unfold check_expiry. by rewrite Hexpiry.
  - unfold decode_rest. by rewrite (decode_games_same _ _ Hsame).
Qed.
(** ** The moves [decode] accepts *)

Lemma length_format_b_wide (w n : nat) :
  2 ^ w ≤ n -> w < length (format_b w n).
Proof.
  intros Hn. unfold format_b. rewrite length_app, repeat_length.
  pose proof (bits_val_lt (bin n)) as Hlt. rewrite bits_val_bin in Hlt.
  assert (w < length (bin n)); [|lia].
  apply (Nat.pow_lt_mono_r_iff 2); lia.
Qed.

(** X9: at a position with two legal moves or more [decode] looks the move
    of the file up by its UCI name among the shuffled legal moves. A name
    that is there is accepted at its first index, the generator advances by
    the shuffle, and the index is printed in binary: on [floor(log2 n)]
    digits when it is below [2 ^ floor(log2 n)], and on more digits when it
    is not, which is an index that [encode] never plays. A name that is not
    there is refused with the move error that names the game and the move. *)
Theorem decode_looks_moves_up_by_name (game_index : nat) (board : Board)
    (rng : Rng) (all_bits : bits) (move : Move) :
  (forall rng moves, (shuffle rng moves).2 ≡ₚ moves) ->
  2 ≤ length (legal_moves board) ->
  let names := uci <$> (shuffle rng (legal_moves board)).2 in
  let max_bits := Nat.log2 (length (legal_moves board)) in
  (uci move ∈ uci <$> legal_moves board ->
   exists move_index,
     names !! move_index = Some (uci move)
     ∧ (forall j, j < move_index -> names !! j ≠ Some (uci move))
     ∧ decode_step game_index (board, rng, all_bits) move
       = inr (push board move, (shuffle rng (legal_moves board)).1,
              all_bits ++ format_b max_bits move_index)
     ∧ bits_val (format_b max_bits move_index) = move_index
     ∧ (move_index < 2 ^ max_bits -> length (format_b max_bits move_index) = max_bits)
     ∧ (2 ^ max_bits ≤ move_index -> max_bits < length (format_b max_bits move_index)))
  ∧ (uci move ∉ uci <$> legal_moves board ->
     decode_step game_index (board, rng, all_bits) move
     = inl ("Invalid move found in game " +:+ py_str (Z.of_nat (game_index + 1))
              +:+ ": " +:+ uci move)%string)
  ∧ (forall (wrapped : bits) (st : enc_state),
       file_bit_index st < length wrapped ->
       2 ≤ length (legal_moves (chess_board st)) ->
       bits_val (chunk_at wrapped st)
       < 2 ^ Nat.log2 (length (legal_moves (chess_board st)))).
Proof.
  intros Hperm Hn names max_bits.
  assert (forall (wrapped : bits) (st : enc_state),
            file_bit_index st < length wrapped ->
            2 ≤ length (legal_moves (chess_board st)) ->
            bits_val (chunk_at wrapped st)
            < 2 ^ Nat.log2 (length (legal_moves (chess_board st)))) as Hplayed.
  { intros wrapped st Hidx Hc.
    destruct (bits_to_encode_bounds wrapped st Hidx Hc) as (_ & Hle & _).
    destruct (chunk_val_in_range wrapped st Hidx Hc) as (_ & Hlt & _).
    eapply Nat.lt_le_trans; [exact Hlt|]. apply Nat.pow_le_mono_r; lia. }
  pose proof (Hperm rng (legal_moves board)) as Hp.
  assert (0 < max_bits) as Hbits by (apply Nat.log2_pos; lia).
  unfold decode_step. rewrite bool_decide_false by lia.
  subst names max_bits.
  destruct (shuffle rng (legal_moves board)) as [rng' shuffled]. simpl in *.
  rewrite (Permutation_length Hp). split_and!; [| |exact Hplayed].
  - intros Hin. rewrite <- Hp in Hin.
    destruct (index_of (uci move) (uci <$> shuffled)) as [i|] eqn:E.
    2:{ by apply index_of_None in E. }
    apply index_of_Some in E as [Hi Hmin]. exists i.
    rewrite bool_decide_true by done.
    split_and!; [done|done|done|apply bits_val_format_b| |].
    + by apply length_format_b.
    + apply length_format_b_wide.
  - intros Hout. rewrite <- Hp in Hout. apply index_of_None in Hout.
    by rewrite Hout.
Qed.
(** ** The files [decode] leaves *)

Lemma parse_frame_whole_bytes (all_bits data_bits : bits) :
  parse_frame all_bits = inr data_bits ->
  8 ≤ length data_bits ∧ length data_bits mod 8 = 0.
Proof.
  unfold parse_frame. destruct (find _ _) as [s|]; [|done].
  destruct (rfind _ _) as [e|]; [|done]. case_bool_decide; [done|].
  case_bool_decide as Hlen; [done|]. intros [= <-].
  rewrite length_truncate_residue in *. rewrite length_take in *.
  set (n := length (slice _ _ _)) in *.
  pose proof (Nat.div_mod_eq n 8) as Hdm.
  pose proof (Nat.mod_upper_bound n 8 ltac:(lia)) as Hub.
  rewrite Nat.min_l in * by lia. split; [lia|].
  rewrite Nat.mul_comm. apply Nat.Div0.mod_mul.
Qed.

Lemma decode_games_nonempty (games : list (GameRecord Move)) (decoded : list byte) :
  decode_games games = inr decoded -> decoded ≠ [].
Proof.
  unfold decode_games. destruct (extract_bits_of games) as [e|all_bits]; [done|].
  destruct (parse_frame all_bits) as [e|data_bits] eqn:E; [done|].
  intros [= <-] Hnil. apply parse_frame_whole_bytes in E as [Hlen _].
  apply (f_equal length) in Hnil. rewrite length_bytes_of_bits_eq in Hnil.
  cbn [length] in Hnil.
  assert (1 ≤ length data_bits / 8) by (apply Nat.div_le_lower_bound; lia). lia.
Qed.

(** The errors of the extraction and of the frame begin with none of the
    letters that the errors of the check of the written file begin with. *)
Lemma decode_games_error_head (games : list (GameRecord Move)) (e tail : string) :
  decode_games games = inl e ->
  e ≠ ("F" +:+ tail)%string ∧ e ≠ ("D" +:+ tail)%string.
Proof.
  unfold decode_games. destruct (extract_bits_of games) as [e1|all_bits] eqn:E.
  - intros [= <-]. unfold extract_bits_of in E.
    destruct (extract_from_take _ _ _ _ E) as (i & game & bits_i & _ & _ & Hgame).
    unfold decode_game in Hgame. destruct (py_int _).
    + destruct (decode_moves _ _ _) as [e2|[[? ?] ?]] eqn:Hm; [|done].
      injection Hgame as <-.
      destruct (decode_moves_error _ _ _ _ Hm) as (move & _ & ->).
      split; intros Heq; cbn [String.append] in Heq; discriminate Heq.
    + injection Hgame as <-.
      split; intros Heq; cbn [String.append] in Heq; discriminate Heq.
  - unfold parse_frame.
    repeat (first [destruct (find _ _)|destruct (rfind _ _)|case_bool_decide]);
      try done; intros [= <-]; split; intros Heq; discriminate Heq.
Qed.

(** X10: what [decode] leaves. When it fails, the files are the files it
    found less the one at the output path, and the error is neither of the
    two that check the written file: those are never raised. When it
    succeeds, the PGN file was there, its games decoded to bytes of which
    there is at least one, and the files are the files it found with those
    bytes at the output path. *)
Theorem decode_outcome (fs : FS) (current_time : Z)
    (pgn_file_path output_file_path : string) (fs' : FS) (r : string + unit) :
  decode fs current_time pgn_file_path output_file_path = (fs', r) ->
  match r with
  | inl e =>
      fs' = delete output_file_path fs
      ∧ e ≠ "Decoding failed: Failed to create output file"%string
      ∧ e ≠ "Decoding failed: Decoded output file is empty"%string
  | inr _ =>
      exists pgn_content decoded,
        fs !! pgn_file_path = Some pgn_content
        ∧ decode_games (pgn_load pgn_content) = inr decoded
        ∧ decoded ≠ []
        ∧ fs' = <[output_file_path := decoded]> fs
  end.
Proof.
  unfold decode, decode_body.
  destruct (fs !! pgn_file_path) as [content|] eqn:Hfile;
    [|by intros [= <- <-]].
  destruct (is_blank content); [by intros [= <- <-]|].
  destruct (pgn_load content) as [|first rest] eqn:Hload; [by intros [= <- <-]|].
  assert (decode_rest fs (first :: rest) output_file_path
          = match decode_games (first :: rest) with
            | inl e => (delete output_file_path fs, inl e)
            | inr decoded => (<[output_file_path := decoded]> fs, inr ())
            end) as Hrest.
  { unfold decode_rest.
    destruct (decode_games (first :: rest)) as [e|decoded] eqn:Hdec; [done|].
    rewrite lookup_insert_eq, insert_delete_eq.
    destruct decoded; [|done]. by apply decode_games_nonempty in Hdec. }
  assert (forall fs1 r1,
            (let (fs2, r2) := decode_rest fs (first :: rest) output_file_path in
             match r2 with
             | inl e => (delete output_file_path fs2, inl ("Decoding failed: " +:+ e))
             | inr tt => (fs2, inr tt)
             end) = (fs1, r1) ->
            match r1 with
            | inl e =>
                fs1 = delete output_file_path fs
                ∧ e ≠ "Decoding failed: Failed to create output file"%string
                ∧ e ≠ "Decoding failed: Decoded output file is empty"%string
            | inr _ =>
                exists pgn_content decoded,
                  Some content = Some pgn_content
                  ∧ decode_games (pgn_load pgn_content) = inr decoded
                  ∧ decoded ≠ []
                  ∧ fs1 = <[output_file_path := decoded]> fs
            end) as Hafter.
  { intros fs1 r1. rewrite Hrest.
    destruct (decode_games (first :: rest)) as [e|decoded] eqn:Hdec.
    - intros [= <- <-]. rewrite delete_delete_eq. split; [done|].
      split; intros Heq.
      + change "Decoding failed: Failed to create output file"%string
          with ("Decoding failed: " +:+ "Failed to create output file")%string
          in Heq.
        apply String.app_inj in Heq.
        by destruct (decode_games_error_head _ _ "ailed to create output file" Hdec).
      + change "Decoding failed: Decoded output file is empty"%string
          with ("Decoding failed: " +:+ "Decoded output file is empty")%string
          in Heq.
        apply String.app_inj in Heq.
        by destruct (decode_games_error_head _ _ "ecoded output file is empty" Hdec).
    - intros [= <- <-]. exists content, decoded. rewrite Hload.
      split_and!; [done|done| |done]. by eapply decode_games_nonempty. }
  unfold check_expiry.
  destruct (headers first !! "ExpiryTime"%string) as [value|]; [|apply Hafter].
  destruct (py_int value) as [expiry_time|]; [|by intros [= <- <-]].
  case_bool_decide; [|apply Hafter].
  intros [= <- <-]. by rewrite delete_delete_eq.
Qed.
(** ** The outcomes of [encode] *)

Section EncodeOutcomes.

Hypothesis shuffle_perm :
  forall rng moves, (shuffle rng moves).2 ≡ₚ moves.

(** X11: [encode] raises for an input file that is missing or empty, with
    the error of [read_input_file], and for nothing else: no pass of its loop
    fails; and when it raises, the files are as they were. *)
Theorem encode_fails_only_on_input (fuel : nat) (fs : FS) (now : Z)
    (file_path output_pgn_path : string) (self_destruct_timer : option Z)
    (custom_headers : option (gmap string string)) (fs' : FS) (e : string) :
  encode fuel fs now file_path output_pgn_path self_destruct_timer custom_headers
  = Some (fs', inl e) ->
  fs' = fs
  ∧ ((fs !! file_path = None ∧ e = "Input file does not exist"%string)
     ∨ (fs !! file_path = Some [] ∧ e = "Input file is empty"%string)).
Proof using shuffle_perm.
  unfold encode, read_input_file.
  destruct (fs !! file_path) as [[|b l]|];
    [intros [= <- <-]; auto|
     |intros [= <- <-]; auto].
  unfold encode_games.
  pose proof (loop_no_error (complete_binary (b :: l))
                (expiry_of now self_destruct_timer) custom_headers shuffle_perm
                fuel enc_init) as Hloop.
  destruct (encode_loop _ _ _ _ _) as [[e1|st]|]; [|done..].
  by destruct (Hloop e1).
Qed.

Variable max_plies : nat.
Hypothesis initial_choice : 2 ≤ length (legal_moves initial_board).
Hypothesis long_games_over :
  forall board, max_plies ≤ length board -> is_game_over board = true.

(** X12: on an input file that holds at least one byte [encode] ends
    without an error, within [(max_plies + 3)] passes of its loop for each bit
    of the frame, when no game goes on beyond [max_plies] plies: it writes the
    PGN text of a game set that is not empty at the output path and leaves
    the other files. The passes allowed beyond those it needs change
    nothing. *)
Theorem encode_succeeds (fuel : nat) (fs : FS) (now : Z)
    (file_path output_pgn_path : string) (self_destruct_timer : option Z)
    (custom_headers : option (gmap string string)) (file_bytes : list byte) :
  fs !! file_path = Some file_bytes ->
  file_bytes ≠ [] ->
  (max_plies + 3) * (8 * length file_bytes + 8) ≤ fuel ->
  exists games,
    games ≠ []
    ∧ encode_games fuel file_bytes now self_destruct_timer custom_headers
      = Some (inr games)
    ∧ encode fuel fs now file_path output_pgn_path self_destruct_timer
        custom_headers
      = Some (<[output_pgn_path := pgn_dump games]> fs, inr ())
    ∧ forall fuel', fuel ≤ fuel' ->
        encode fuel' fs now file_path output_pgn_path self_destruct_timer
          custom_headers
        = Some (<[output_pgn_path := pgn_dump games]> fs, inr ()).
Proof using shuffle_perm initial_choice long_games_over.
  intros Hfile Hne Hfuel.
  set (wrapped := complete_binary file_bytes).
  set (expiry := expiry_of now self_destruct_timer).
  assert (length wrapped = 8 * length file_bytes + 8) as Hlen
    by apply length_complete_binary.
  destruct (loop_terminates_from wrapped expiry custom_headers shuffle_perm
              max_plies initial_choice long_games_over fuel enc_init)
    as [st_end Hloop].
  { unfold work_left, enc_init, plies_left, initial_board.
    cbn [file_bit_index chess_board]. lia. }
  assert (file_bit_index enc_init < length wrapped) as Hstart.
  { unfold enc_init. cbn [file_bit_index]. lia. }
  destruct (loop_last wrapped expiry custom_headers fuel enc_init st_end Hloop
              Hstart (reach_init _ _ _))
    as (st_last & _ & Hidx & Hpass & Hend).
  destruct (last_pass wrapped expiry custom_headers st_last st_end Hidx Hpass Hend)
    as (_ & _ & mv & _ & Heq).
  assert (chess_board st_end ≠ []) as Hboard.
  { rewrite Heq. simpl. unfold push. by destruct (chess_board st_last). }
  exists (finish expiry custom_headers st_end).
  assert (forall fuel', fuel ≤ fuel' ->
            encode_games fuel' file_bytes now self_destruct_timer custom_headers
            = Some (inr (finish expiry custom_headers st_end))) as Hgames.
  { intros fuel' Hle. unfold encode_games. fold wrapped expiry.
    by rewrite (loop_fuel_mono wrapped expiry custom_headers fuel fuel' enc_init
                  (inr st_end) Hle Hloop). }
  assert (forall fuel', fuel ≤ fuel' ->
            encode fuel' fs now file_path output_pgn_path self_destruct_timer
              custom_headers
            = Some (<[output_pgn_path :=
                        pgn_dump (finish expiry custom_headers st_end)]> fs,
                    inr ())) as Hencode.
  { intros fuel' Hle. unfold encode, read_input_file. rewrite Hfile.
    destruct file_bytes as [|b l]; [done|]. by rewrite (Hgames fuel' Hle). }
  split_and!.
  - rewrite finish_nonempty by done. by destruct (output_pgns st_end).
  - by apply Hgames.
  - by apply Hencode.
  - exact Hencode.
Qed.

End EncodeOutcomes.
(** ** The headers of a record *)

Lemma create_game_record_lookup (board : Board) (seed : Z)
    (expiry_time : option Z) (custom_headers : option (gmap string string))
    (key : string) :
  headers (create_game_record board seed expiry_time custom_headers) !! key
  = let given :=
      match custom_headers ≫= (fun custom => custom !! key) with
      | Some value => if bool_decide (value ≠ ""%string) then Some value else None
      | None => None
      end in
    let roster :=
      match tag_roster !! key with
      | Some value => Some value
      | None => if bool_decide (key = "Seed"%string) then Some (py_str seed) else None
      end in
    let unexpired :=
      match given with Some value => Some value | None => roster end in
    match expiry_time with
    | Some t =>
        if bool_decide (key = "ExpiryTime"%string) then Some (py_str t) else unexpired
    | None => unexpired
    end.
Proof.
  cbv zeta. unfold create_game_record. cbn [headers].
  assert ((match custom_headers with
           | Some custom =>
               filter (fun kv : string * string => kv.2 ≠ ""%string) custom
                 ∪ tag_roster
           | None => tag_roster
           end ∪ <["Seed"%string := py_str seed]> tag_roster) !! key
          = match
              match custom_headers ≫= (fun custom => custom !! key) with
              | Some value =>
                  if bool_decide (value ≠ ""%string) then Some value else None
              | None => None
              end
            with
            | Some value => Some value
            | None =>
                match tag_roster !! key with
                | Some value => Some value
                | None =>
                    if bool_decide (key = "Seed"%string)
                    then Some (py_str seed) else None
                end
            end) as Hbase.
  { assert ((<["Seed"%string := py_str seed]> tag_roster) !! key
            = match tag_roster !! key with
              | Some value =>
                  if bool_decide (key = "Seed"%string)
                  then Some (py_str seed) else Some value
              | None =>
                  if bool_decide (key = "Seed"%string)
                  then Some (py_str seed) else None
              end) as Hseed.
    { rewrite lookup_insert. destruct (decide ("Seed"%string = key)) as [<-|Hne].
      - by rewrite !bool_decide_true by done.
      - rewrite !bool_decide_false by done. by destruct (tag_roster !! key). }
    rewrite lookup_union, Hseed.
    destruct custom_headers as [custom|]; simpl.
    - rewrite lookup_union, map_lookup_filter.
      destruct (custom !! key) as [value|]; simpl.
      + destruct (decide (value ≠ ""%string)) as [Hv|Hv].
        * rewrite (bool_decide_true _ Hv), option_guard_True by exact Hv. simpl.
          destruct (tag_roster !! key); repeat case_bool_decide; reflexivity.
        * rewrite (bool_decide_false _ Hv), option_guard_False by exact Hv. simpl.
          destruct (tag_roster !! key); repeat case_bool_decide; reflexivity.
      + destruct (tag_roster !! key); repeat case_bool_decide; reflexivity.
    - destruct (tag_roster !! key); repeat case_bool_decide; reflexivity. }
  destruct expiry_time as [t|]; [|exact Hbase].
  rewrite lookup_insert. destruct (decide ("ExpiryTime"%string = key)) as [<-|Hne].
  - by rewrite bool_decide_true.
  - rewrite bool_decide_false by done. exact Hbase.
Qed.
(** X13: the headers of the record that [create_game_record] makes, key by
    key. The key ExpiryTime holds the expiry when the run has one. Any other
    key, and ExpiryTime in a run without expiry, holds the value of the
    caller's headers when that value is not empty: this goes for the seven
    tags of the roster and for the key Seed as well, whose seed it replaces.
    A key that the caller leaves out, or gives an empty value, holds the
    default of the roster, the seed for the key Seed, and is absent
    otherwise. The moves of the record are the move stack of the board. *)
Theorem create_game_record_headers (board : Board) (seed : Z)
    (expiry_time : option Z) (custom_headers : option (gmap string string))
    (key : string) :
  let given :=
    match custom_headers ≫= (fun custom => custom !! key) with
    | Some value => if bool_decide (value ≠ ""%string) then Some value else None
    | None => None
    end in
  let roster :=
    match tag_roster !! key with
    | Some value => Some value
    | None => if bool_decide (key = "Seed"%string) then Some (py_str seed) else None
    end in
  let unexpired :=
    match given with Some value => Some value | None => roster end in
  headers (create_game_record board seed expiry_time custom_headers) !! key
  = match expiry_time with
    | Some t =>
        if bool_decide (key = "ExpiryTime"%string) then Some (py_str t) else unexpired
    | None => unexpired
    end
  ∧ mainline_moves (create_game_record board seed expiry_time custom_headers)
    = move_stack board
  ∧ (forall value,
       tag_roster !! key = Some value ->
       value = (if bool_decide (key = "Date"%string) then "????.??.??"
                else if bool_decide (key = "Result"%string) then "*" else "?")%string).
Proof.
  cbv zeta. split_and!; [apply create_game_record_lookup|reflexivity|].
  intros value Hkey. apply elem_of_list_to_map_2 in Hkey.
  repeat (apply elem_of_cons in Hkey as [[= -> ->]|Hkey]; [reflexivity|]).
  by apply elem_of_nil in Hkey.
Qed.

(** The headers handed to [create_game_record] for a game, key by key: the
    caller's, and the number of the game under the key Round from the second
    game on, unless the caller's headers have that key. *)
Lemma game_headers_for_lookup (custom_headers : option (gmap string string))
    (game_number : nat) (key : string) :
  game_headers_for custom_headers game_number ≫= (fun h => h !! key)
  = if bool_decide (key = "Round"%string) && bool_decide (1 < game_number)
       && bool_decide (custom_headers ≫= (fun custom => custom !! "Round"%string)
                       = None)
    then Some (py_str (Z.of_nat game_number))
    else custom_headers ≫= (fun custom => custom !! key).
Proof.
  unfold game_headers_for.
  destruct (decide (key = "Round"%string)) as [->|Hkey].
  - rewrite (bool_decide_true ("Round"%string = _)) by done.
    destruct custom_headers as [custom|]; simpl.
    + case_bool_decide as Hempty.
      * subst custom. rewrite lookup_empty.
        case_bool_decide; simpl; [by rewrite lookup_singleton_eq|done].
      * destruct (decide (1 < game_number)) as [Hn|Hn].
        -- rewrite (bool_decide_true _ Hn). simpl.
           destruct (custom !! "Round"%string) as [v|] eqn:Hr.
           ++ rewrite !bool_decide_false by done. simpl. done.
           ++ rewrite !bool_decide_true by done. simpl.
              by rewrite lookup_insert_eq.
        -- rewrite (bool_decide_false _ Hn). simpl. done.
    + case_bool_decide; simpl; [by rewrite lookup_singleton_eq|done].
  - rewrite (bool_decide_false (key = _)) by done. simpl.
    destruct custom_headers as [custom|]; simpl.
    + case_bool_decide as Hempty.
      * subst custom. rewrite lookup_empty.
        case_bool_decide; simpl; [by rewrite lookup_singleton_ne|done].
      * destruct (bool_decide (1 < game_number) && _); simpl; [|done].
        by rewrite lookup_insert_ne.
    + case_bool_decide; simpl; [by rewrite lookup_singleton_ne|done].
Qed.

(** The headers of a request, key by key. *)
Lemma request_headers_lookup (form : pgn_fields) (key : string) :
  request_headers form ≫= (fun custom => custom !! key)
  = (list_to_map
       [("Event", pgn_event form); ("Site", pgn_site form);
        ("Date", pgn_date form); ("Round", pgn_round form);
        ("White", pgn_white form); ("Black", pgn_black form);
        ("WhiteElo", pgn_whiteelo form); ("BlackElo", pgn_blackelo form);
        ("Result", pgn_result form); ("ECO", pgn_eco form)]%string
     : gmap string (option string)) !! key ≫= truthy.
Proof.
  unfold request_headers. cbv zeta. rewrite <- lookup_omap.
  case_bool_decide as Hempty; [|reflexivity].
  rewrite Hempty, lookup_empty. reflexivity.
Qed.

Lemma truthy_nonempty (v : option string) (s : string) :
  truthy v = Some s -> s ≠ ""%string.
Proof. destruct v as [x|]; simpl; [|done]. case_bool_decide; congruence. Qed.

(** ** The expiry guard and the files *)

Lemma decode_expired (fs : FS) (current_time : Z)
    (pgn_file_path output_file_path : string) (pgn_content : list byte)
    (first : GameRecord Move) (rest : list (GameRecord Move))
    (value : string) (expiry_time : Z) :
  fs !! pgn_file_path = Some pgn_content ->
  is_blank pgn_content = false ->
  pgn_load pgn_content = first :: rest ->
  headers first !! "ExpiryTime"%string = Some value ->
  py_int value = Some expiry_time ->
  (current_time > expiry_time)%Z ->
  decode fs current_time pgn_file_path output_file_path
  = (delete output_file_path fs,
     inl ("Decoding failed: " +:+ expired_msg (current_time - expiry_time))).
Proof.
  intros Hfile Hblank Hload Hhdr Hint Hlate.
  unfold decode, decode_body, check_expiry.
  rewrite Hfile, Hblank, Hload, Hhdr, Hint.
  rewrite (bool_decide_true _ Hlate). by rewrite delete_delete_eq.
Qed.

Lemma decode_no_expiry (fs : FS) (current_time : Z)
    (pgn_file_path output_file_path : string) (pgn_content : list byte)
    (first : GameRecord Move) (rest : list (GameRecord Move)) :
  fs !! pgn_file_path = Some pgn_content ->
  is_blank pgn_content = false ->
  pgn_load pgn_content = first :: rest ->
  headers first !! "ExpiryTime"%string = None ->
  decode_body fs current_time pgn_file_path output_file_path
  = decode_rest fs (first :: rest) output_file_path.
Proof.
  intros Hfile Hblank Hload Hhdr. unfold decode_body, check_expiry.
  by rewrite Hfile, Hblank, Hload, Hhdr.
Qed.

Lemma encode_games_expiry (fuel : nat) (file_bytes : list byte) (now timer : Z)
    (custom_headers : option (gmap string string))
    (games : list (GameRecord Move)) (game : GameRecord Move) :
  (0 < timer)%Z ->
  encode_games fuel file_bytes now (Some timer) custom_headers = Some (inr games) ->
  game ∈ games ->
  headers game !! "ExpiryTime"%string = Some (py_str (now + timer)).
Proof.
  intros Htimer Henc Hin. unfold encode_games in Henc.
  assert (expiry_of now (Some timer) = Some (now + timer)%Z) as Hexp.
  { unfold expiry_of. by rewrite bool_decide_true. }
  rewrite Hexp in Henc.
  destruct (encode_loop _ _ _ _ _) as [[e|st]|] eqn:Hloop; [done| |done].
  injection Henc as <-.
  destruct (loop_reach _ _ _ _ _ _ (reach_init _ _ _) Hloop) as [Hreach _].
  destruct (finish_records _ _ _ st Hreach game Hin) as (board & seed & gh & ->).
  apply create_game_record_expiry.
Qed.

(** C8: when the first game carries an expiry that the current time is past,
    [decode] removes the output file and fails with the expired error, the
    elapsed time in seconds below 60, in whole minutes below 3600 and in
    whole hours from there, whatever the moves of the games are; when the
    first game carries no expiry, [decode] goes on to the extraction whatever
    the time is; and every game of a set that [encode] makes with a positive
    timer carries the one expiry [now + timer]. *)
Theorem expiry_guard :
  (forall fs current_time pgn_file_path output_file_path pgn_content
          first rest value expiry_time,
     fs !! pgn_file_path = Some pgn_content ->
     is_blank pgn_content = false ->
     pgn_load pgn_content = first :: rest ->
     headers first !! "ExpiryTime"%string = Some value ->
     py_int value = Some expiry_time ->
     (current_time > expiry_time)%Z ->
     let time_diff := (current_time - expiry_time)%Z in
     let elapsed :=
       if bool_decide (time_diff < 60)%Z then py_str time_diff +:+ " seconds"
       else if bool_decide (time_diff < 3600)%Z
            then py_str (time_diff `div` 60)%Z +:+ " minutes"
            else py_str (time_diff `div` 3600)%Z +:+ " hours" in
     exists fs',
       decode fs current_time pgn_file_path output_file_path
       = (fs', inl ("Decoding failed: This file has expired " +:+ elapsed
                      +:+ " ago and can no longer be decrypted"))
       ∧ fs' !! output_file_path = None)
  ∧ (forall fs current_time pgn_file_path output_file_path pgn_content first rest,
       fs !! pgn_file_path = Some pgn_content ->
       is_blank pgn_content = false ->
       pgn_load pgn_content = first :: rest ->
       headers first !! "ExpiryTime"%string = None ->
       decode_body fs current_time pgn_file_path output_file_path
       = decode_rest fs (first :: rest) output_file_path)
  ∧ (forall fuel file_bytes now timer custom_headers games game,
       (0 < timer)%Z ->
       encode_games fuel file_bytes now (Some timer) custom_headers
       = Some (inr games) ->
       game ∈ games ->
       headers game !! "ExpiryTime"%string = Some (py_str (now + timer))).
Proof.
  split_and!.
  - intros fs current_time pgn out content first rest value expiry_time
      Hfile Hblank Hload Hhdr Hint Hlate time_diff elapsed.
    exists (delete out fs). split; [|apply lookup_delete_eq].
    by rewrite (decode_expired _ _ _ _ _ _ _ _ _ Hfile Hblank Hload Hhdr Hint Hlate).
  - apply decode_no_expiry.
  - apply encode_games_expiry.
Qed.

(** C9, as the code has it: an error inside [decode] ends it with the error
    raised again under the prefix of [decode] and with no file at the output
    path; an error inside [encode] ends it with the files as they were, so
    that nothing is written, and nothing is removed either. *)
Theorem errors_abort_and_clean :
  (forall fs current_time pgn_file_path output_file_path fs' e,
     decode fs current_time pgn_file_path output_file_path = (fs', inl e) ->
     fs' !! output_file_path = None
     ∧ exists cause, e = "Decoding failed: " +:+ cause)
  ∧ (forall fuel fs now file_path output_pgn_path self_destruct_timer
            custom_headers fs' e,
       encode fuel fs now file_path output_pgn_path self_destruct_timer
         custom_headers = Some (fs', inl e) ->
       fs' = fs).
Proof.
  split.
  - intros fs current_time pgn out fs' e. unfold decode.
    destruct (decode_body fs current_time pgn out) as [fs1 [e1|[]]]; [|done].
    intros [= <- <-]. split; [apply lookup_delete_eq|eauto].
  - intros fuel fs now inp out timer custom fs' e. unfold encode, read_input_file.
    destruct (fs !! inp) as [[|b l]|]; [by intros [= <- _]| |by intros [= <- _]].
    destruct (encode_games _ _ _ _ _) as [[e1|games]|]; [|done..].
    by intros [= <- _].
Qed.

End Codec.

(** ** The codec at the small engine *)

(** The codec at the small engine, on the payload of one zero byte. *)
Definition toy_wrapped : bits := complete_binary [x00].
Definition toy_init : @enc_state nat nat := enc_init toy_Random toy_randint.
Definition toy_pass : @enc_state nat nat -> string + @enc_state nat nat :=
  encode_iter toy_legal_moves toy_is_game_over toy_never toy_never
    toy_Random toy_shuffle toy_randint toy_wrapped None None.
Definition toy_decode_encoded (fuel : nat) (file_bytes : list byte)
    : option (string + list byte) :=
  decode_encoded toy_legal_moves toy_is_game_over toy_never toy_never toy_uci
    toy_Random toy_shuffle toy_randint decimal_int fuel file_bytes 0 None None.

Definition toy_loop : nat -> @enc_state nat nat -> option (string + @enc_state nat nat) :=
  encode_loop toy_legal_moves toy_is_game_over toy_never toy_never
    toy_Random toy_shuffle toy_randint toy_wrapped None None.
Definition toy_reach : @enc_state nat nat -> Prop :=
  enc_reach toy_legal_moves toy_is_game_over toy_never toy_never
    toy_Random toy_shuffle toy_randint toy_wrapped None None.
Definition toy_decode_step :
    nat -> list nat * nat * bits -> nat -> string + list nat * nat * bits :=
  decode_step toy_legal_moves toy_uci toy_shuffle.

(** The state after the first pass, a state at the position with one move
    and the state at the last pass. *)
Definition toy_second : @enc_state nat nat := mkEnc 3 [0] 3 4 1 [] 1.
Definition toy_forced : @enc_state nat nat := mkEnc 3 [0; 0; 0; 0; 0; 0] 3 3 1 [] 1.
Definition toy_last : @enc_state nat nat := mkEnc 15 [0; 4; 5; 6; 1] 3 8 1 [] 1.

Definition toy_decode (fs : FS) (current_time : Z) (pgn output : string)
    : FS * (string + unit) :=
  decode toy_legal_moves toy_uci toy_Random toy_shuffle decimal_int
    toy_pgn_load toy_is_blank fs current_time pgn output.
Definition toy_encode (fuel : nat) (fs : FS) (file_path output : string)
    : option (FS * (string + unit)) :=
  encode toy_legal_moves toy_is_game_over toy_never toy_never toy_Random
    toy_shuffle toy_randint toy_pgn_dump fuel fs 0 file_path output None None.

(** ** The results at the small engine *)

Lemma py_str_inj (z z' : Z) : py_str z = py_str z' -> z = z'.
Proof.
  unfold py_str. intros H. apply DecimalZ.to_int_inj.
  assert (Some (Z.to_int z) = Some (Z.to_int z')) as [= E]; [|done].
  by rewrite <- !NilEmpty.isi, H.
Qed.

Lemma decimal_int_py_str (z : Z) : decimal_int (py_str z) = Some z.
Proof.
  assert (Z.of_int <$> NilEmpty.int_of_string (py_str z) = Some z) as Hread.
  { unfold py_str. rewrite NilEmpty.isi. simpl. f_equal. apply DecimalZ.of_to. }
  unfold decimal_int. unfold py_str in *.
  destruct z as [|p|p]; [done|..]; simpl in *;
    pose proof (Unsigned.to_uint_nonnil p) as Hnil;
    destruct (Pos.to_uint p) as [|d|d|d|d|d|d|d|d|d|d]; try done;
    simpl in *; try done; destruct d; done.
Qed.

Lemma toy_shuffle_perm (rng : nat) (moves : list nat) :
  (toy_shuffle rng moves).2 ≡ₚ moves.
Proof.
  simpl. unfold rotate. rewrite Permutation_app_comm. by rewrite take_drop.
Qed.

Lemma toy_uci_nodup (board : list nat) :
  NoDup (toy_uci <$> toy_legal_moves board).
Proof.
  apply NoDup_fmap_2_strong; [|apply NoDup_seq].
  intros x y _ _ H. apply py_str_inj in H. lia.
Qed.

Lemma toy_long_games_over (board : list nat) :
  11 ≤ length board -> toy_is_game_over board = true.
Proof. intros H. unfold toy_is_game_over. by rewrite bool_decide_true. Qed.

(** C1, where the code breaks it: on the payload of one zero byte the
    sixteen bits of the frame are read three at a time, the last move stands
    for the one bit left, [decode] prints it on three digits, the end marker
    is lost and [decode] fails. *)
Theorem round_trip_fails_on_short_last_move :
  toy_decode_encoded 100 [x00]
  = Some (inl "End marker not found in decoded data"%string).
Proof. vm_compute. reflexivity. Qed.

(** The other way the payload is lost: the last move ends its game, the game
    is recorded twice, and [decode] gives the payload, the byte of the two
    markers and the payload again. *)
Lemma round_trip_repeats_last_game :
  toy_decode_encoded 100 [x01; x02; x03]
  = Some (inr [x01; x02; x03; x5a; x01; x02; x03]).
Proof. vm_compute. reflexivity. Qed.

(** And two payloads that come back: in one game, and in two. *)
Lemma round_trip_examples :
  toy_decode_encoded 100 [x00; xff] = Some (inr [x00; xff])
  ∧ toy_decode_encoded 100 [x01; x02; x03; x04; x05; x06]
    = Some (inr [x01; x02; x03; x04; x05; x06]).
Proof. split; vm_compute; reflexivity. Qed.

(** The payload of two bytes meets the conditions of
    [round_trip_whole_last_move]: its last move stands for three bits at a
    position with eight moves and does not end the game. *)
Lemma round_trip_whole_last_move_example :
  exists games,
    encode_games toy_legal_moves toy_is_game_over toy_never toy_never toy_Random
      toy_shuffle toy_randint 100 [x00; xff] 0 None None = Some (inr games)
    ∧ decode_games toy_legal_moves toy_uci toy_Random toy_shuffle decimal_int games
      = inr [x00; xff].
Proof.
  assert (exists st_end st_last,
            encode_loop toy_legal_moves toy_is_game_over toy_never toy_never
              toy_Random toy_shuffle toy_randint (complete_binary [x00; xff])
              (expiry_of 0 None) None 100 toy_init = Some (inr st_end)
            ∧ last (encode_trace toy_legal_moves toy_is_game_over toy_never
                      toy_never toy_Random toy_shuffle toy_randint
                      (complete_binary [x00; xff]) (expiry_of 0 None) None 100
                      toy_init) = Some st_last
            ∧ Nat.log2 (length (toy_legal_moves (chess_board st_last)))
              ≤ length (complete_binary [x00; xff]) - file_bit_index st_last
            ∧ should_end_game toy_is_game_over toy_never toy_never
                (chess_board st_end) = false)
    as (st_end & st_last & Hloop & Hlast & Hfull & Hgoes).
  { eexists _, _. split_and!.
    - vm_compute. reflexivity.
    - vm_compute. reflexivity.
    - vm_compute. lia.
    - vm_compute. reflexivity. }
  apply (round_trip_whole_last_move toy_legal_moves toy_is_game_over toy_never
           toy_never toy_uci toy_Random toy_shuffle toy_randint decimal_int
           toy_shuffle_perm toy_uci_nodup decimal_int_py_str
           100 [x00; xff] 0%Z None None st_end st_last);
    done.
Qed.

(** The payload of one zero byte meets the conditions of
    [round_trip_fails_short_last_move]: its last move stands for one bit at a
    position with eight moves. *)
Lemma round_trip_fails_short_last_move_example :
  exists games,
    encode_games toy_legal_moves toy_is_game_over toy_never toy_never toy_Random
      toy_shuffle toy_randint 100 [x00] 0 None None = Some (inr games)
    ∧ decode_games toy_legal_moves toy_uci toy_Random toy_shuffle decimal_int games
      ≠ inr [x00].
Proof.
  assert (exists st_end,
            encode_loop toy_legal_moves toy_is_game_over toy_never toy_never
              toy_Random toy_shuffle toy_randint (complete_binary [x00])
              (expiry_of 0 None) None 100 toy_init = Some (inr st_end)
            ∧ last (encode_trace toy_legal_moves toy_is_game_over toy_never
                      toy_never toy_Random toy_shuffle toy_randint
                      (complete_binary [x00]) (expiry_of 0 None) None 100
                      toy_init) = Some toy_last
            ∧ should_end_game toy_is_game_over toy_never toy_never
                (chess_board st_end) = false)
    as (st_end & Hloop & Hlast & Hgoes).
  { eexists. split_and!; vm_compute; reflexivity. }
  apply (round_trip_fails_short_last_move toy_legal_moves toy_is_game_over
           toy_never toy_never toy_uci toy_Random toy_shuffle toy_randint
           decimal_int toy_shuffle_perm toy_uci_nodup decimal_int_py_str
           100 [x00] 0%Z None None st_end toy_last);
    [done|done|done|left; vm_compute; reflexivity|vm_compute; lia|done].
Qed.

(** On the payload of one zero byte [decode] extracts eighteen bits from the
    games of [encode], which read sixteen: the first fifteen bits of the
    frame, two zeros, and the last bit of the frame. *)
Lemma extracted_longer_than_wrapped :
  exists games,
    encode_games toy_legal_moves toy_is_game_over toy_never toy_never toy_Random
      toy_shuffle toy_randint 100 [x00] 0 None None = Some (inr games)
    ∧ extract_bits_of toy_legal_moves toy_uci toy_Random toy_shuffle decimal_int
        games
      = inr (take 15 toy_wrapped ++ [false; false] ++ drop 15 toy_wrapped).
Proof. eexists. split; vm_compute; reflexivity. Qed.

(** The frame parser on five streams: without a start marker; without an
    end marker; with the end marker right after the start marker; with three
    bits between the two; and with one byte between the two. *)
Lemma parse_frame_spec_witness :
  parse_frame [false; false; false; false]
  = inl "Start marker not found in decoded data"%string
  ∧ parse_frame (START_MARKER ++ [false; false])
    = inl "End marker not found in decoded data"%string
  ∧ parse_frame (START_MARKER ++ END_MARKER)
    = inl "End marker not found in decoded data"%string
  ∧ parse_frame (START_MARKER ++ [true; true; true] ++ END_MARKER)
    = inl "No data found between markers"%string
  ∧ parse_frame (START_MARKER ++ [true; true; false; false; false; false; true; true]
                   ++ END_MARKER)
    = inr [true; true; false; false; false; false; true; true].
Proof.
  split_and!.
  - apply (proj1 (parse_frame_spec _)). intros i Ho.
    pose proof (occurs_at_lt _ _ _ (proj1 markers_nonempty) Ho) as Hi.
    simpl in Hi. assert (i = 0) as -> by lia. discriminate Ho.
  - apply (proj1 (proj2 (parse_frame_spec _)) 0).
    + split; [reflexivity|]. intros j Hj. lia.
    + intros e He Ho.
      pose proof (occurs_at_lt _ _ _ (proj2 markers_nonempty) Ho) as Hi.
      simpl in Hi. lia.
  - apply (proj1 (proj2 (parse_frame_spec _)) 0).
    + split; [reflexivity|]. intros j Hj. lia.
    + intros e He Ho.
      pose proof (occurs_at_lt _ _ _ (proj2 markers_nonempty) Ho) as Hi.
      simpl in Hi. lia.
  - rewrite (proj2 (proj2 (parse_frame_spec _)) 0 7).
    + reflexivity.
    + split; [reflexivity|]. intros j Hj. lia.
    + split; [reflexivity|]. intros j Hj Ho.
      pose proof (occurs_at_lt _ _ _ (proj2 markers_nonempty) Ho) as Hi.
      simpl in Hi. lia.
    + lia.
  - rewrite (proj2 (proj2 (parse_frame_spec _)) 0 12).
    + reflexivity.
    + split; [reflexivity|]. intros j Hj. lia.
    + split; [reflexivity|]. intros j Hj Ho.
      pose proof (occurs_at_lt _ _ _ (proj2 markers_nonempty) Ho) as Hi.
      simpl in Hi. lia.
    + lia.
Defined.

(** The first pass reads three bits, the number 5, at a position with eight
    moves. *)
Lemma move_index_in_range_witness :
  file_bit_index toy_init < length toy_wrapped
  ∧ 2 ≤ length (toy_legal_moves (chess_board toy_init))
  ∧ exists move_index,
      int2 (chunk_at toy_legal_moves toy_wrapped toy_init) = Some move_index
      ∧ move_index = 5
      ∧ move_index < length (toy_legal_moves (chess_board toy_init)).
Proof.
  assert (file_bit_index toy_init < length toy_wrapped) as Hidx
    by (vm_compute; lia).
  assert (2 ≤ length (toy_legal_moves (chess_board toy_init))) as Hn
    by (vm_compute; lia).
  split_and!; [done|done|].
  destruct (proj1 (move_index_in_range toy_legal_moves toy_is_game_over
                     toy_never toy_never toy_Random toy_shuffle toy_randint
                     toy_pgn_dump)
              toy_wrapped toy_init Hidx Hn) as (_ & _ & i & Hi & Hval & Hlt).
  exists i. split_and!; [done| |done]. rewrite Hval. reflexivity.
Defined.

(** The seventh position has one move: the pass pushes it and reads
    nothing. *)
Lemma forced_position_no_bits_witness :
  length (toy_legal_moves (chess_board toy_forced)) ≤ 1
  ∧ exists st', toy_pass toy_forced = inr st'
                ∧ file_bit_index st' = file_bit_index toy_forced.
Proof.
  assert (length (toy_legal_moves (chess_board toy_forced)) ≤ 1) as Hf
    by (vm_compute; lia).
  split; [done|].
  destruct (forced_position_no_bits toy_legal_moves toy_is_game_over toy_never
              toy_never toy_uci toy_Random toy_shuffle toy_randint toy_wrapped
              None None toy_forced Hf) as [(st' & Hpass & Hidx & _) _].
  exists st'. done.
Defined.

Lemma toy_second_reach : toy_reach toy_second.
Proof.
  apply (reach_step _ _ _ _ _ _ _ _ _ _ toy_init).
  - apply reach_init.
  - vm_compute. lia.
  - vm_compute. reflexivity.
Qed.

(** After the first pass the generator has been advanced once. *)
Lemma generators_synchronized_witness :
  toy_reach toy_second
  ∧ move_random toy_second
    = rng_at toy_legal_moves toy_Random toy_shuffle
        (base_seed toy_second) (chess_board toy_second).
Proof.
  split; [apply toy_second_reach|].
  apply (generators_synchronized toy_legal_moves toy_is_game_over toy_never
           toy_never toy_uci toy_Random toy_shuffle toy_randint toy_wrapped
           None None toy_shuffle_perm toy_uci_nodup toy_second toy_second_reach).
Defined.

(** The sixteen bits of the frame of one byte are read within 224 passes. *)
Lemma every_bit_consumed_once_witness :
  0 < length toy_wrapped
  ∧ (11 + 3) * length toy_wrapped ≤ 224
  ∧ exists st_end,
      toy_loop 224 toy_init = Some (inr st_end)
      ∧ file_bit_index st_end = length toy_wrapped.
Proof.
  assert (0 < length toy_wrapped) as Hlen by (vm_compute; lia).
  assert ((11 + 3) * length toy_wrapped ≤ 224) as Hfuel by (vm_compute; lia).
  split_and!; [done|done|].
  destruct (every_bit_consumed_once toy_legal_moves toy_is_game_over toy_never
              toy_never toy_Random toy_shuffle toy_randint toy_wrapped None None
              toy_shuffle_perm 11 ltac:(vm_compute; lia) toy_long_games_over
              224 Hlen Hfuel) as (st_end & Hloop & Hidx & _).
  exists st_end. done.
Defined.

(** The last pass reads the one bit left at a position with eight moves, and
    [decode] prints three digits for its move. *)
Lemma decode_emits_full_width_witness :
  file_bit_index toy_last < length toy_wrapped
  ∧ 2 ≤ length (toy_legal_moves (chess_board toy_last))
  ∧ exists chosen_move rng,
      forall game_index all_bits,
        toy_decode_step game_index
          (chess_board toy_last, move_random toy_last, all_bits) chosen_move
        = inr (push (chess_board toy_last) chosen_move, rng,
               all_bits ++ [false; false; true]).
Proof.
  assert (file_bit_index toy_last < length toy_wrapped) as Hidx
    by (vm_compute; lia).
  assert (2 ≤ length (toy_legal_moves (chess_board toy_last))) as Hn
    by (vm_compute; lia).
  split_and!; [done|done|].
  destruct (proj1 (decode_emits_full_width toy_legal_moves toy_is_game_over
                     toy_never toy_never toy_uci toy_Random toy_shuffle
                     toy_randint decimal_int toy_wrapped None None
                     toy_shuffle_perm toy_uci_nodup) toy_last Hidx Hn)
    as (mv & rng & _ & Hdec & _).
  exists mv, rng. exact Hdec.
Defined.

(** A file whose first game expired 65 seconds ago: one minute. *)
Lemma expiry_guard_witness :
  exists fs',
    toy_decode {["in.pgn"%string := [x0a]]} 75 "in.pgn" "out.bin"
    = (fs', inl ("Decoding failed: This file has expired 1 minutes"
                 +:+ " ago and can no longer be decrypted"))
    ∧ fs' !! "out.bin"%string = None.
Proof.
  apply (proj1 (expiry_guard toy_legal_moves toy_is_game_over toy_never toy_never
                  toy_uci toy_Random toy_shuffle toy_randint decimal_int
                  toy_pgn_load toy_is_blank)
           {["in.pgn"%string := [x0a]]} 75%Z "in.pgn"%string "out.bin"%string [x0a]
           (mkGame (<["ExpiryTime"%string := "10"%string]> tag_roster) []) []
           "10"%string 10%Z);
    [reflexivity|reflexivity|reflexivity|reflexivity|reflexivity|lia].
Defined.

(** [decode] on a PGN file that does not exist. *)
Lemma errors_abort_and_clean_witness :
  toy_decode {["out.bin"%string := [x41]]} 0 "in.pgn" "out.bin"
  = (∅, inl "Decoding failed: Input PGN file does not exist"%string)
  ∧ (∅ : FS) !! "out.bin"%string = None.
Proof.
  assert (toy_decode {["out.bin"%string := [x41]]} 0 "in.pgn" "out.bin"
          = (∅, inl "Decoding failed: Input PGN file does not exist"%string))
    as Hrun by (vm_compute; reflexivity).
  split; [exact Hrun|].
  apply (proj1 (errors_abort_and_clean toy_legal_moves toy_is_game_over toy_never
                  toy_never toy_uci toy_Random toy_shuffle toy_randint
                  decimal_int toy_pgn_dump toy_pgn_load toy_is_blank)
           _ _ _ _ _ _ Hrun).
Defined.

(** C9, where the code differs: [encode] on an input file that does not exist
    raises and leaves the file that was at the output path where it was. *)
Lemma encode_error_keeps_old_output :
  toy_encode 100 {["out.pgn"%string := [x41]]} "in.bin" "out.pgn"
  = Some ({["out.pgn"%string := [x41]]}, inl "Input file does not exist"%string)
  ∧ ({["out.pgn"%string := [x41]]} : FS) !! "out.pgn"%string = Some [x41].
Proof. split; reflexivity. Qed.
